(** * SpirvBuilder: the SPIR-V instruction and control-flow builder

    A shallow embedding of [tools/clang/lib/SPIRV/SpirvBuilder.cpp].

    The builder allocates every node from a [SpirvContext] arena and threads
    a handful of mutable members ([module], [function], [insertPoint],
    [basicBlocks]) through every call.  Pointers are arena addresses; a
    nullable pointer is an [option]; the mutable members and the arena form an
    explicit state threaded by a small state-and-abort monad, in which a failed
    [assert] stops the computation and hands back the state it stopped in. *)

From stdpp Require Import base list gmap strings.
From Stdlib Require Import NArith.

(** ** Opaque descriptors received from the front end *)

(** [QualType] and [SourceLocation] are opaque handles of the front end; the
    builder only stores them in nodes.  [SourceLocation()] is the raw value 0. *)
Definition QualType := N.
Definition SourceLocation := N.
Definition noLoc : SourceLocation := 0%N.

(** The two AST types the builder reads from [astContext]. *)
Record ASTContext := mkASTContext {
  UnsignedIntTy : QualType;
  BoolTy : QualType
}.

(** ** Pointers *)

(** [T *] is an optional arena address: [None] is [nullptr]. *)
Definition InstPtr := option nat.
Definition BlockPtr := option nat.
Definition FuncPtr := option nat.

(** [if (p)] on a pointer. *)
Definition nonnull {A} (p : option A) : bool :=
  match p with Some _ => true | None => false end.

(** ** Enumerators of the SPIR-V header *)

Module spv.

(** Modelled from the spec: [enum class Op : unsigned] is declared in
    spirv.hpp, which is not among the sources; the enumerators the builder
    names carry the numbers of the SPIR-V registry. *)
Definition Op := N.
Definition OpImageSampleImplicitLod : Op := 87%N.
Definition OpImageSampleExplicitLod : Op := 88%N.
Definition OpImageSampleDrefImplicitLod : Op := 89%N.
Definition OpImageSampleDrefExplicitLod : Op := 90%N.
Definition OpImageFetch : Op := 95%N.
Definition OpImageGather : Op := 96%N.
Definition OpImageDrefGather : Op := 97%N.
Definition OpImageRead : Op := 98%N.
Definition OpImageWrite : Op := 99%N.
Definition OpImageQuerySizeLod : Op := 103%N.
Definition OpImageQuerySize : Op := 104%N.
Definition OpImageQueryLod : Op := 105%N.
Definition OpImageQueryLevels : Op := 106%N.
Definition OpImageQuerySamples : Op := 107%N.
Definition OpAtomicCompareExchange : Op := 230%N.
Definition OpImageSparseSampleImplicitLod : Op := 305%N.
Definition OpImageSparseSampleExplicitLod : Op := 306%N.
Definition OpImageSparseSampleDrefImplicitLod : Op := 307%N.
Definition OpImageSparseSampleDrefExplicitLod : Op := 308%N.
Definition OpImageSparseFetch : Op := 313%N.
Definition OpImageSparseGather : Op := 314%N.
Definition OpImageSparseDrefGather : Op := 315%N.
Definition OpImageSparseRead : Op := 320%N.
Definition OpMax : Op := 2147483647%N.

(** Modelled from the spec: [enum class Capability : unsigned] of spirv.hpp;
    the four capabilities the builder requires by name (extended image
    gather, minimum Lod, sparse residency, image query), with the numbers of
    the SPIR-V registry. *)
Definition Capability := N.
Definition ImageGatherExtended : Capability := 25%N.
Definition SparseResidency : Capability := 41%N.
Definition MinLodCap : Capability := 42%N.
Definition ImageQuery : Capability := 50%N.

(** Modelled from the spec: [enum class ImageOperandsMask : unsigned] of
    spirv.hpp, with its [operator|]; the fixed bit order is Bias, Lod, Grad,
    ConstOffset, Offset, ConstOffsets, Sample, MinLod, from the least
    significant bit upwards. *)
Module ImageOperandsMask.
Definition t := N.
Definition MaskNone : t := 0%N.
Definition Bias : t := N.shiftl 1 0.
Definition Lod : t := N.shiftl 1 1.
Definition Grad : t := N.shiftl 1 2.
Definition ConstOffset : t := N.shiftl 1 3.
Definition Offset : t := N.shiftl 1 4.
Definition ConstOffsets : t := N.shiftl 1 5.
Definition Sample : t := N.shiftl 1 6.
Definition MinLod : t := N.shiftl 1 7.
Definition or (a b : t) : t := N.lor a b.
End ImageOperandsMask.

(** The remaining enumerations are only stored in nodes. *)
Definition Scope := N.
Definition MemorySemanticsMask := N.
Definition LoopControlMask := N.
Definition SelectionControlMask := N.
Definition SelectionControlMaskNone : SelectionControlMask := 0%N.
Definition FunctionControlMask := N.
Definition FunctionControlMaskNone : FunctionControlMask := 0%N.
Definition GroupOperation := N.
Definition StorageClass := N.
Definition StorageClassFunction : StorageClass := 7%N.

End spv.

Definition GLSLstd450 := N.

(** ** Instruction nodes *)

(** One constructor per node class the builder instantiates; the fields are
    the constructor arguments in the order the builder passes them.  The
    debug name that [setDebugName] writes into a parameter or a variable right
    after its allocation is the last field of those two nodes. *)
Inductive SpirvInstruction : Type :=
  | SpirvFunctionParameter (ptrType : QualType) (id : N) (loc : SourceLocation)
      (debugName : string)
  | SpirvVariable (valueType : QualType) (id : N) (loc : SourceLocation)
      (storageClass : spv.StorageClass) (init : InstPtr) (debugName : string)
  | SpirvComposite (resultType : QualType) (id : N) (loc : SourceLocation)
      (constituents : list InstPtr)
  | SpirvCompositeExtract (resultType : QualType) (id : N) (loc : SourceLocation)
      (composite : InstPtr) (indexes : list N)
  | SpirvCompositeInsert (resultType : QualType) (id : N) (loc : SourceLocation)
      (composite object : InstPtr) (indices : list N)
  | SpirvVectorShuffle (resultType : QualType) (id : N) (loc : SourceLocation)
      (vector1 vector2 : InstPtr) (selectors : list N)
  | SpirvLoad (resultType : QualType) (id : N) (loc : SourceLocation)
      (pointer : InstPtr)
  | SpirvStore (loc : SourceLocation) (address value : InstPtr)
  | SpirvFunctionCall (returnType : QualType) (id : N) (loc : SourceLocation)
      (func : FuncPtr) (params : list InstPtr)
  | SpirvAccessChain (resultType : QualType) (id : N) (loc : SourceLocation)
      (base : InstPtr) (indexes : list InstPtr)
  | SpirvUnaryOp (op : spv.Op) (resultType : QualType) (id : N)
      (loc : SourceLocation) (operand : InstPtr)
  | SpirvBinaryOp (op : spv.Op) (resultType : QualType) (id : N)
      (loc : SourceLocation) (lhs rhs : InstPtr)
  | SpirvSpecConstantBinaryOp (op : spv.Op) (resultType : QualType) (id : N)
      (loc : SourceLocation) (lhs rhs : InstPtr)
  | SpirvNonUniformElect (resultType : QualType) (id : N) (loc : SourceLocation)
      (execScope : spv.Scope)
  | SpirvNonUniformUnaryOp (op : spv.Op) (resultType : QualType) (id : N)
      (loc : SourceLocation) (execScope : spv.Scope)
      (groupOp : option spv.GroupOperation) (operand : InstPtr)
  | SpirvNonUniformBinaryOp (op : spv.Op) (resultType : QualType) (id : N)
      (loc : SourceLocation) (execScope : spv.Scope) (operand1 operand2 : InstPtr)
  | SpirvAtomic (opcode : spv.Op) (resultType : QualType) (id : N)
      (loc : SourceLocation) (originalValuePtr : InstPtr) (scope : spv.Scope)
      (memorySemantics : spv.MemorySemanticsMask)
      (unequalMemorySemantics : option spv.MemorySemanticsMask)
      (valueToOp : InstPtr) (comparator : InstPtr)
  | SpirvImageTexelPointer (resultType : QualType) (id : N)
      (loc : SourceLocation) (image coordinate sample : InstPtr)
  | SpirvSampledImage (imageType : QualType) (id : N) (loc : SourceLocation)
      (image sampler : InstPtr)
  | SpirvImageOp (op : spv.Op) (texelType : QualType) (id : N)
      (loc : SourceLocation) (image coordinate : InstPtr)
      (mask : spv.ImageOperandsMask.t)
      (dref bias lod gradDx gradDy constOffset varOffset constOffsets sample
       minLod component texelToWrite : InstPtr)
  | SpirvImageSparseTexelsResident (resultType : QualType) (id : N)
      (loc : SourceLocation) (residentCode : InstPtr)
  | SpirvSelect (resultType : QualType) (id : N) (loc : SourceLocation)
      (condition trueValue falseValue : InstPtr)
  | SpirvSelectionMerge (loc : SourceLocation) (mergeBlock : BlockPtr)
      (selectionControl : spv.SelectionControlMask)
  | SpirvSwitch (loc : SourceLocation) (selector : InstPtr)
      (defaultLabel : BlockPtr) (targets : list (N * BlockPtr))
  | SpirvKill (loc : SourceLocation)
  | SpirvLoopMerge (loc : SourceLocation) (mergeBlock continueBlock : BlockPtr)
      (loopControl : spv.LoopControlMask)
  | SpirvBranch (loc : SourceLocation) (target : BlockPtr)
  | SpirvBranchConditional (loc : SourceLocation) (condition : InstPtr)
      (trueLabel falseLabel : BlockPtr)
  | SpirvReturn (loc : SourceLocation) (value : InstPtr)
  | SpirvExtInst (resultType : QualType) (id : N) (loc : SourceLocation)
      (set : InstPtr) (inst : GLSLstd450) (operands : list InstPtr)
  | SpirvBarrier (loc : SourceLocation) (memoryScope : spv.Scope)
      (memorySemantics : spv.MemorySemanticsMask) (exec : option spv.Scope)
  | SpirvBitFieldInsert (resultType : QualType) (id : N) (loc : SourceLocation)
      (base insert offset count : InstPtr)
  | SpirvBitFieldExtract (resultType : QualType) (id : N) (loc : SourceLocation)
      (base offset count : InstPtr) (isSigned : bool).

(** ** Containers *)

Record SpirvBasicBlock := mkBasicBlock {
  labelId : N;
  labelName : string;
  instructions : list nat;
  successors : list BlockPtr;
  mergeTarget : BlockPtr;
  continueTarget : BlockPtr
}.

Record SpirvFunction := mkFunction {
  returnType : QualType;
  functionId : N;
  functionControl : spv.FunctionControlMask;
  functionLoc : SourceLocation;
  functionName : string;
  parameters : list nat;
  variables : list nat;
  functionBlocks : list nat
}.

Record SpirvModule := mkModule {
  capabilities : gset N;
  functions : list nat
}.

(** The arena: the address of a node is its position in its table; nothing is
    ever removed. *)
Record SpirvContext := mkContext {
  insts : list SpirvInstruction;
  blocks : list SpirvBasicBlock;
  funcs : list SpirvFunction
}.

(** The builder's members.  The module, allocated once by the constructor
    and never re-seated, is kept by value. *)
Record SpirvBuilder := mkBuilder {
  astContext : ASTContext;
  context : SpirvContext;
  module : SpirvModule;
  function : FuncPtr;
  insertPoint : BlockPtr;
  basicBlocks : list nat
}.

(** ** Methods of the containers *)

(** Modelled from the spec: [SpirvBasicBlock::addInstruction] (the block
    header is not among the sources) appends to the block's ordered
    instruction sequence. *)
Definition SpirvBasicBlock_addInstruction (i : nat) (bb : SpirvBasicBlock)
  : SpirvBasicBlock :=
  mkBasicBlock (labelId bb) (labelName bb) (instructions bb ++ [i])
    (successors bb) (mergeTarget bb) (continueTarget bb).

(** Modelled from the spec: [SpirvBasicBlock::addSuccessor] records one more
    successor edge. *)
Definition SpirvBasicBlock_addSuccessor (succ : BlockPtr) (bb : SpirvBasicBlock)
  : SpirvBasicBlock :=
  mkBasicBlock (labelId bb) (labelName bb) (instructions bb)
    (successors bb ++ [succ]) (mergeTarget bb) (continueTarget bb).

(** Modelled from the spec: [SpirvBasicBlock::setMergeTarget] sets the one
    merge target of the block. *)
Definition SpirvBasicBlock_setMergeTarget (m : BlockPtr) (bb : SpirvBasicBlock)
  : SpirvBasicBlock :=
  mkBasicBlock (labelId bb) (labelName bb) (instructions bb)
    (successors bb) m (continueTarget bb).

(** Modelled from the spec: [SpirvBasicBlock::setContinueTarget] sets the one
    continue target of the block. *)
Definition SpirvBasicBlock_setContinueTarget (c : BlockPtr) (bb : SpirvBasicBlock)
  : SpirvBasicBlock :=
  mkBasicBlock (labelId bb) (labelName bb) (instructions bb)
    (successors bb) (mergeTarget bb) c.

(** Modelled from the spec: [SpirvFunction::addParameter], [addVariable] and
    [addBasicBlock] append to the function's three ordered sequences. *)
Definition SpirvFunction_addParameter (p : nat) (f : SpirvFunction) : SpirvFunction :=
  mkFunction (returnType f) (functionId f) (functionControl f) (functionLoc f)
    (functionName f) (parameters f ++ [p]) (variables f) (functionBlocks f).

Definition SpirvFunction_addVariable (v : nat) (f : SpirvFunction) : SpirvFunction :=
  mkFunction (returnType f) (functionId f) (functionControl f) (functionLoc f)
    (functionName f) (parameters f) (variables f ++ [v]) (functionBlocks f).

Definition SpirvFunction_addBasicBlock (b : nat) (f : SpirvFunction) : SpirvFunction :=
  mkFunction (returnType f) (functionId f) (functionControl f) (functionLoc f)
    (functionName f) (parameters f) (variables f) (functionBlocks f ++ [b]).

(** Modelled from the spec: [SpirvModule::addFunction] appends to the module's
    ordered function sequence. *)
Definition SpirvModule_addFunction (f : nat) (m : SpirvModule) : SpirvModule :=
  mkModule (capabilities m) (functions m ++ [f]).

(** Modelled from the spec: requiring a capability adds its token to the
    module-wide set; the set has no duplicates and nothing is ever removed. *)
Definition SpirvModule_requireCapability (cap : spv.Capability) (m : SpirvModule)
  : SpirvModule :=
  mkModule ({[cap]} ∪ capabilities m) (functions m).

(** ** The builder monad *)

(** A call either completes with a value and the next state, or dies in an
    [assert]; [Fatal] keeps the assertion's message and the state the builder
    was in at that moment, so that what a failed call had already done can be
    observed. *)
Inductive Outcome (A : Type) : Type :=
  | Done (a : A) (s : SpirvBuilder)
  | Fatal (msg : string) (s : SpirvBuilder).
Arguments Done {A} a s.
Arguments Fatal {A} msg s.

Definition Build (A : Type) : Type := SpirvBuilder → Outcome A.

#[global] Instance Build_ret : MRet Build := λ A a s, Done a s.
#[global] Instance Build_bind : MBind Build := λ A B k m s,
  match m s with
  | Done a s' => k a s'
  | Fatal msg s' => Fatal msg s'
  end.

Definition get : Build SpirvBuilder := λ s, Done s s.
Definition modify (f : SpirvBuilder → SpirvBuilder) : Build unit :=
  λ s, Done tt (f s).
Definition abort {A} (msg : string) : Build A := λ s, Fatal msg s.

(** [assert(cond && "msg")], as a build with assertions enabled runs it: a
    false condition stops the call with the message, before anything that
    follows the assertion in the source. *)
Definition cassert (cond : SpirvBuilder → bool) (msg : string) : Build unit :=
  λ s, if cond s then Done tt s else Fatal msg s.

(** Member updates. *)
Definition with_context (f : SpirvContext → SpirvContext) (s : SpirvBuilder)
  : SpirvBuilder :=
  mkBuilder (astContext s) (f (context s)) (module s) (function s)
    (insertPoint s) (basicBlocks s).
Definition with_module (f : SpirvModule → SpirvModule) (s : SpirvBuilder)
  : SpirvBuilder :=
  mkBuilder (astContext s) (context s) (f (module s)) (function s)
    (insertPoint s) (basicBlocks s).
Definition with_function (f : FuncPtr) (s : SpirvBuilder) : SpirvBuilder :=
  mkBuilder (astContext s) (context s) (module s) f
    (insertPoint s) (basicBlocks s).
Definition with_insertPoint (b : BlockPtr) (s : SpirvBuilder) : SpirvBuilder :=
  mkBuilder (astContext s) (context s) (module s) (function s) b (basicBlocks s).
Definition with_basicBlocks (l : list nat) (s : SpirvBuilder) : SpirvBuilder :=
  mkBuilder (astContext s) (context s) (module s) (function s) (insertPoint s) l.

Definition with_insts (f : list SpirvInstruction → list SpirvInstruction)
  (c : SpirvContext) : SpirvContext :=
  mkContext (f (insts c)) (blocks c) (funcs c).
Definition with_blocks (f : list SpirvBasicBlock → list SpirvBasicBlock)
  (c : SpirvContext) : SpirvContext :=
  mkContext (insts c) (f (blocks c)) (funcs c).
Definition with_funcs (f : list SpirvFunction → list SpirvFunction)
  (c : SpirvContext) : SpirvContext :=
  mkContext (insts c) (blocks c) (f (funcs c)).

(** [new (context) T(...)]: the node goes to the end of its table and its
    address is returned. *)
Definition new_inst (n : SpirvInstruction) : Build nat := λ s,
  Done (length (insts (context s))) (with_context (with_insts (λ l, l ++ [n])) s).
Definition new_block (bb : SpirvBasicBlock) : Build nat := λ s,
  Done (length (blocks (context s))) (with_context (with_blocks (λ l, l ++ [bb])) s).
Definition new_function (f : SpirvFunction) : Build nat := λ s,
  Done (length (funcs (context s))) (with_context (with_funcs (λ l, l ++ [f])) s).

(** [insertPoint->method(...)] and [function->method(...)]: the pointed-to
    object is updated in place in the arena.  Behind the builder's asserts the
    pointer is never null; a pointer that is null or that does not address a
    live object of the arena has no defined behaviour in the source and stops
    the model. *)
Definition on_insertPoint (f : SpirvBasicBlock → SpirvBasicBlock) : Build unit :=
  λ s, match insertPoint s with
       | None => Fatal "null pointer dereference" s
       | Some b =>
           match blocks (context s) !! b with
           | None => Fatal "dangling block pointer" s
           | Some _ => Done tt (with_context (with_blocks (alter f b)) s)
           end
       end.

Definition on_function (f : SpirvFunction → SpirvFunction) : Build unit :=
  λ s, match function s with
       | None => Fatal "null pointer dereference" s
       | Some a =>
           match funcs (context s) !! a with
           | None => Fatal "dangling function pointer" s
           | Some _ => Done tt (with_context (with_funcs (alter f a)) s)
           end
       end.

Definition insertPoint_addInstruction (i : nat) : Build unit :=
  on_insertPoint (SpirvBasicBlock_addInstruction i).

(** Modelled from the spec: [SpirvBuilder::requireCapability] (declared in
    SpirvBuilder.h, which is not among the sources) requires the capability
    of the module under construction. *)
Definition requireCapability (cap : spv.Capability) : Build unit :=
  modify (with_module (SpirvModule_requireCapability cap)).

(** Modelled from the spec: [SpirvBuilder::setInsertPoint] (declared in
    SpirvBuilder.h) records the block the caller positions the cursor on. *)
Definition setInsertPoint (bb : BlockPtr) : Build unit :=
  modify (with_insertPoint bb).

Definition null_insert_point : string := "null insert point".
Definition has_insertPoint (s : SpirvBuilder) : bool := nonnull (insertPoint s).
Definition has_function (s : SpirvBuilder) : bool := nonnull (function s).

(** ** SpirvBuilder.cpp *)

(** Modelled from the spec: the values the members [insertPoint] and
    [basicBlocks] have when the constructor returns.  Its initialiser list
    names neither, and their declarations are in SpirvBuilder.h, which is not
    among the sources; the spec's Idle state has the cursor unset and no
    pending block. *)
Definition default_insertPoint : BlockPtr := None.
Definition default_basicBlocks : list nat := [].

(** The constructor: the initialiser list sets [function] to null, the body
    allocates the (empty) module. *)
Definition SpirvBuilder_new (ac : ASTContext) (ctx : SpirvContext) : SpirvBuilder :=
  mkBuilder ac ctx (mkModule ∅ []) None default_insertPoint default_basicBlocks.

Definition beginFunction (returnType : QualType) (loc : SourceLocation)
    (funcName : string) : Build FuncPtr :=
  cassert (λ s, negb (has_function s)) "found nested function";;
  f ← new_function (mkFunction returnType 0 spv.FunctionControlMaskNone loc
                       funcName [] [] []);
  modify (with_function (Some f));;
  mret (Some f).

Definition addFnParam (ptrType : QualType) (loc : SourceLocation)
    (name : string) : Build InstPtr :=
  cassert has_function "found detached parameter";;
  param ← new_inst (SpirvFunctionParameter ptrType 0 loc name);
  on_function (SpirvFunction_addParameter param);;
  mret (Some param).

Definition addFnVar (valueType : QualType) (loc : SourceLocation)
    (name : string) (init : InstPtr) : Build InstPtr :=
  cassert has_function "found detached local variable";;
  var ← new_inst (SpirvVariable valueType 0 loc spv.StorageClassFunction init name);
  on_function (SpirvFunction_addVariable var);;
  mret (Some var).

(** [for (auto *bb : basicBlocks) function->addBasicBlock(bb);] *)
Fixpoint addBasicBlocks (bbs : list nat) : Build unit :=
  match bbs with
  | [] => mret tt
  | bb :: rest => on_function (SpirvFunction_addBasicBlock bb);; addBasicBlocks rest
  end.

Definition endFunction : Build unit :=
  cassert has_function "no active function";;
  s ← get;
  addBasicBlocks (basicBlocks s);;
  modify (with_basicBlocks []);;
  s ← get;
  match function s with
  | Some f => modify (with_module (SpirvModule_addFunction f))
  | None => abort "null pointer dereference"
  end;;
  modify (with_function None);;
  modify (with_insertPoint None).

Definition createBasicBlock (name : string) : Build BlockPtr :=
  cassert has_function "found detached basic block";;
  bb ← new_block (mkBasicBlock 0 name [] [] None None);
  modify (λ s, with_basicBlocks (basicBlocks s ++ [bb]) s);;
  mret (Some bb).

Definition addSuccessor (successorBB : BlockPtr) : Build unit :=
  cassert has_insertPoint null_insert_point;;
  on_insertPoint (SpirvBasicBlock_addSuccessor successorBB).

Definition setMergeTarget (mergeLabel : BlockPtr) : Build unit :=
  cassert has_insertPoint null_insert_point;;
  on_insertPoint (SpirvBasicBlock_setMergeTarget mergeLabel).

Definition setContinueTarget (continueLabel : BlockPtr) : Build unit :=
  cassert has_insertPoint null_insert_point;;
  on_insertPoint (SpirvBasicBlock_setContinueTarget continueLabel).

Definition createCompositeConstruct (resultType : QualType)
    (constituents : list InstPtr) (loc : SourceLocation) : Build InstPtr :=
  cassert has_insertPoint null_insert_point;;
  instruction ← new_inst (SpirvComposite resultType 0 loc constituents);
  insertPoint_addInstruction instruction;;
  mret (Some instruction).

Definition createCompositeExtract (resultType : QualType) (composite : InstPtr)
    (indexes : list N) (loc : SourceLocation) : Build InstPtr :=
  cassert has_insertPoint null_insert_point;;
  instruction ← new_inst (SpirvCompositeExtract resultType 0 loc composite indexes);
  insertPoint_addInstruction instruction;;
  mret (Some instruction).

Definition createCompositeInsert (resultType : QualType) (composite : InstPtr)
    (indices : list N) (object : InstPtr) (loc : SourceLocation) : Build InstPtr :=
  cassert has_insertPoint null_insert_point;;
  instruction ← new_inst (SpirvCompositeInsert resultType 0 loc composite object indices);
  insertPoint_addInstruction instruction;;
  mret (Some instruction).

Definition createVectorShuffle (resultType : QualType) (vector1 vector2 : InstPtr)
    (selectors : list N) (loc : SourceLocation) : Build InstPtr :=
  cassert has_insertPoint null_insert_point;;
  instruction ← new_inst (SpirvVectorShuffle resultType 0 loc vector1 vector2 selectors);
  insertPoint_addInstruction instruction;;
  mret (Some instruction).

Definition createLoad (resultType : QualType) (pointer : InstPtr)
    (loc : SourceLocation) : Build InstPtr :=
  cassert has_insertPoint null_insert_point;;
  instruction ← new_inst (SpirvLoad resultType 0 loc pointer);
  insertPoint_addInstruction instruction;;
  mret (Some instruction).

Definition createStore (address value : InstPtr) (loc : SourceLocation)
  : Build unit :=
  cassert has_insertPoint null_insert_point;;
  instruction ← new_inst (SpirvStore loc address value);
  insertPoint_addInstruction instruction.

Definition createFunctionCall (returnType : QualType) (func : FuncPtr)
    (params : list InstPtr) (loc : SourceLocation) : Build InstPtr :=
  cassert has_insertPoint null_insert_point;;
  instruction ← new_inst (SpirvFunctionCall returnType 0 loc func params);
  insertPoint_addInstruction instruction;;
  mret (Some instruction).

Definition createAccessChain (resultType : QualType) (base : InstPtr)
    (indexes : list InstPtr) (loc : SourceLocation) : Build InstPtr :=
  cassert has_insertPoint null_insert_point;;
  instruction ← new_inst (SpirvAccessChain resultType 0 loc base indexes);
  insertPoint_addInstruction instruction;;
  mret (Some instruction).

(** The [switch (op)] of [createUnaryOp]. *)
Definition isUnaryImageQuery (op : spv.Op) : bool :=
  (op =? spv.OpImageQuerySize)%N || (op =? spv.OpImageQueryLevels)%N
  || (op =? spv.OpImageQuerySamples)%N.

Definition createUnaryOp (op : spv.Op) (resultType : QualType)
    (operand : InstPtr) (loc : SourceLocation) : Build InstPtr :=
  cassert has_insertPoint null_insert_point;;
  instruction ← new_inst (SpirvUnaryOp op resultType 0 loc operand);
  insertPoint_addInstruction instruction;;
  (if isUnaryImageQuery op then requireCapability spv.ImageQuery else mret tt);;
  mret (Some instruction).

(** The [switch (op)] of [createBinaryOp]. *)
Definition isBinaryImageQuery (op : spv.Op) : bool :=
  (op =? spv.OpImageQueryLod)%N || (op =? spv.OpImageQuerySizeLod)%N.

Definition createBinaryOp (op : spv.Op) (resultType : QualType)
    (lhs rhs : InstPtr) (loc : SourceLocation) : Build InstPtr :=
  cassert has_insertPoint null_insert_point;;
  instruction ← new_inst (SpirvBinaryOp op resultType 0 loc lhs rhs);
  insertPoint_addInstruction instruction;;
  (if isBinaryImageQuery op then requireCapability spv.ImageQuery else mret tt);;
  mret (Some instruction).

Definition createSpecConstantBinaryOp (op : spv.Op) (resultType : QualType)
    (lhs rhs : InstPtr) (loc : SourceLocation) : Build InstPtr :=
  cassert has_insertPoint null_insert_point;;
  instruction ← new_inst (SpirvSpecConstantBinaryOp op resultType 0 loc lhs rhs);
  insertPoint_addInstruction instruction;;
  mret (Some instruction).

Definition createGroupNonUniformElect (op : spv.Op) (resultType : QualType)
    (execScope : spv.Scope) (loc : SourceLocation) : Build InstPtr :=
  cassert has_insertPoint null_insert_point;;
  instruction ← new_inst (SpirvNonUniformElect resultType 0 loc execScope);
  insertPoint_addInstruction instruction;;
  mret (Some instruction).

Definition createGroupNonUniformUnaryOp (op : spv.Op) (resultType : QualType)
    (execScope : spv.Scope) (operand : InstPtr)
    (groupOp : option spv.GroupOperation) (loc : SourceLocation) : Build InstPtr :=
  cassert has_insertPoint null_insert_point;;
  instruction ← new_inst
    (SpirvNonUniformUnaryOp op resultType 0 loc execScope groupOp operand);
  insertPoint_addInstruction instruction;;
  mret (Some instruction).

Definition createGroupNonUniformBinaryOp (op : spv.Op) (resultType : QualType)
    (execScope : spv.Scope) (operand1 operand2 : InstPtr) (loc : SourceLocation)
  : Build InstPtr :=
  cassert has_insertPoint null_insert_point;;
  instruction ← new_inst
    (SpirvNonUniformBinaryOp op resultType 0 loc execScope operand1 operand2);
  insertPoint_addInstruction instruction;;
  mret (Some instruction).

(** The generic form leaves the second memory-semantics mask and the
    comparator of the shared node shape unsupplied. *)
Definition createAtomicOp (opcode : spv.Op) (resultType : QualType)
    (originalValuePtr : InstPtr) (scope : spv.Scope)
    (memorySemantics : spv.MemorySemanticsMask) (valueToOp : InstPtr)
    (loc : SourceLocation) : Build InstPtr :=
  cassert has_insertPoint null_insert_point;;
  instruction ← new_inst
    (SpirvAtomic opcode resultType 0 loc originalValuePtr scope memorySemantics
       None valueToOp None);
  insertPoint_addInstruction instruction;;
  mret (Some instruction).

Definition createAtomicCompareExchange (resultType : QualType)
    (originalValuePtr : InstPtr) (scope : spv.Scope)
    (equalMemorySemantics unequalMemorySemantics : spv.MemorySemanticsMask)
    (valueToOp comparator : InstPtr) (loc : SourceLocation) : Build InstPtr :=
  cassert has_insertPoint null_insert_point;;
  instruction ← new_inst
    (SpirvAtomic spv.OpAtomicCompareExchange resultType 0 loc originalValuePtr
       scope equalMemorySemantics (Some unequalMemorySemantics) valueToOp
       comparator);
  insertPoint_addInstruction instruction;;
  mret (Some instruction).

Definition createImageTexelPointer (resultType : QualType)
    (image coordinate sample : InstPtr) (loc : SourceLocation) : Build InstPtr :=
  cassert has_insertPoint null_insert_point;;
  instruction ← new_inst (SpirvImageTexelPointer resultType 0 loc image coordinate sample);
  insertPoint_addInstruction instruction;;
  mret (Some instruction).

(** ** Image operations *)

(** The capability resolver of the type-description collaborator
    ([TypeTranslator::getCapabilityForStorageImageReadWrite]), an interface the
    builder only calls. *)
Class TypeTranslator := {
  getCapabilityForStorageImageReadWrite : QualType → spv.Capability
}.

Definition composeImageOperandsMask (bias lod : InstPtr)
    (grad : InstPtr * InstPtr)
    (constOffset varOffset constOffsets sample minLod : InstPtr)
  : Build spv.ImageOperandsMask.t :=
  let mask := spv.ImageOperandsMask.MaskNone in
  let mask := if nonnull bias
              then spv.ImageOperandsMask.or mask spv.ImageOperandsMask.Bias
              else mask in
  let mask := if nonnull lod
              then spv.ImageOperandsMask.or mask spv.ImageOperandsMask.Lod
              else mask in
  let mask := if nonnull grad.1 && nonnull grad.2
              then spv.ImageOperandsMask.or mask spv.ImageOperandsMask.Grad
              else mask in
  let mask := if nonnull constOffset
              then spv.ImageOperandsMask.or mask spv.ImageOperandsMask.ConstOffset
              else mask in
  mask ← (if nonnull varOffset
          then let mask := spv.ImageOperandsMask.or mask spv.ImageOperandsMask.Offset in
               requireCapability spv.ImageGatherExtended;; mret mask
          else mret mask);
  mask ← (if nonnull constOffsets
          then let mask := spv.ImageOperandsMask.or mask spv.ImageOperandsMask.ConstOffsets in
               requireCapability spv.ImageGatherExtended;; mret mask
          else mret mask);
  let mask := if nonnull sample
              then spv.ImageOperandsMask.or mask spv.ImageOperandsMask.Sample
              else mask in
  mask ← (if nonnull minLod
          then requireCapability spv.MinLodCap;;
               mret (spv.ImageOperandsMask.or mask spv.ImageOperandsMask.MinLod)
          else mret mask);
  mret mask.

(** The nested conditional expression that picks the opcode of
    [createImageSample]. *)
Definition imageSampleOp (compareVal : InstPtr) (isExplicit isSparse : bool)
  : spv.Op :=
  if nonnull compareVal then
    if isExplicit
    then (if isSparse then spv.OpImageSparseSampleDrefExplicitLod
          else spv.OpImageSampleDrefExplicitLod)
    else (if isSparse then spv.OpImageSparseSampleDrefImplicitLod
          else spv.OpImageSampleDrefImplicitLod)
  else
    if isExplicit
    then (if isSparse then spv.OpImageSparseSampleExplicitLod
          else spv.OpImageSampleExplicitLod)
    else (if isSparse then spv.OpImageSparseSampleImplicitLod
          else spv.OpImageSampleImplicitLod).

Definition lod_minLod_assertion : string := "lod == nullptr || minLod == nullptr".

Definition createImageSample (texelType imageType : QualType)
    (image sampler : InstPtr) (isNonUniform : bool)
    (coordinate compareVal bias lod : InstPtr) (grad : InstPtr * InstPtr)
    (constOffset varOffset constOffsets sample minLod residencyCode : InstPtr)
    (loc : SourceLocation) : Build InstPtr :=
  cassert has_insertPoint null_insert_point;;
  let isExplicit := nonnull lod || (nonnull grad.1 && nonnull grad.2) in
  let isSparse := nonnull residencyCode in
  let op := imageSampleOp compareVal isExplicit isSparse in
  cassert (λ _, negb (nonnull lod) || negb (nonnull minLod)) lod_minLod_assertion;;
  (if isSparse then requireCapability spv.SparseResidency else mret tt);;
  sampledImage ← new_inst (SpirvSampledImage imageType 0 loc image sampler);
  insertPoint_addInstruction sampledImage;;
  mask ← composeImageOperandsMask bias lod grad constOffset varOffset
           constOffsets sample minLod;
  imageSampleInst ← new_inst
    (SpirvImageOp op texelType 0 loc (Some sampledImage) coordinate mask
       compareVal bias lod grad.1 grad.2 constOffset varOffset constOffsets
       sample minLod None None);
  insertPoint_addInstruction imageSampleInst;;
  if isSparse then
    s ← get;
    status ← createCompositeExtract (UnsignedIntTy (astContext s))
               (Some imageSampleInst) [0%N] noLoc;
    createStore residencyCode status loc;;
    createCompositeExtract texelType (Some imageSampleInst) [1%N] noLoc
  else mret (Some imageSampleInst).

Definition createImageFetchOrRead `{TypeTranslator} (doImageFetch : bool)
    (texelType imageType : QualType) (image coordinate lod : InstPtr)
    (constOffset varOffset constOffsets sample residencyCode : InstPtr)
    (loc : SourceLocation) : Build InstPtr :=
  cassert has_insertPoint null_insert_point;;
  mask ← composeImageOperandsMask None lod (None, None) constOffset varOffset
           constOffsets sample None;
  let isSparse := nonnull residencyCode in
  (if isSparse then requireCapability spv.SparseResidency else mret tt);;
  let op := if doImageFetch
            then (if isSparse then spv.OpImageSparseFetch else spv.OpImageFetch)
            else (if isSparse then spv.OpImageSparseRead else spv.OpImageRead) in
  (if negb doImageFetch
   then requireCapability (getCapabilityForStorageImageReadWrite imageType)
   else mret tt);;
  fetchOrReadInst ← new_inst
    (SpirvImageOp op texelType 0 loc image coordinate mask
       None None lod None None constOffset varOffset constOffsets sample
       None None None);
  insertPoint_addInstruction fetchOrReadInst;;
  if isSparse then
    s ← get;
    status ← createCompositeExtract (UnsignedIntTy (astContext s))
               (Some fetchOrReadInst) [0%N] noLoc;
    createStore residencyCode status loc;;
    createCompositeExtract texelType (Some fetchOrReadInst) [1%N] noLoc
  else mret (Some fetchOrReadInst).

Definition createImageWrite `{TypeTranslator} (imageType : QualType)
    (image coord texel : InstPtr) (loc : SourceLocation) : Build unit :=
  cassert has_insertPoint null_insert_point;;
  requireCapability (getCapabilityForStorageImageReadWrite imageType);;
  writeInst ← new_inst
    (SpirvImageOp spv.OpImageWrite imageType 0 loc image coord
       spv.ImageOperandsMask.MaskNone
       None None None None None None None None None None None texel);
  insertPoint_addInstruction writeInst.

Definition createImageGather (texelType imageType : QualType)
    (image sampler : InstPtr) (isNonUniform : bool)
    (coordinate component compareVal : InstPtr)
    (constOffset varOffset constOffsets sample residencyCode : InstPtr)
    (loc : SourceLocation) : Build InstPtr :=
  cassert has_insertPoint null_insert_point;;
  (if nonnull residencyCode then requireCapability spv.SparseResidency
   else mret tt);;
  sampledImage ← new_inst (SpirvSampledImage imageType 0 loc image sampler);
  insertPoint_addInstruction sampledImage;;
  mask ← composeImageOperandsMask None None (None, None) constOffset varOffset
           constOffsets sample None;
  let op := if nonnull compareVal
            then (if nonnull residencyCode then spv.OpImageSparseDrefGather
                  else spv.OpImageDrefGather)
            else (if nonnull residencyCode then spv.OpImageSparseGather
                  else spv.OpImageGather) in
  imageInstruction ← new_inst
    (SpirvImageOp op texelType 0 loc (Some sampledImage) coordinate mask
       compareVal None None None None constOffset varOffset constOffsets
       sample None component None);
  insertPoint_addInstruction imageInstruction;;
  if nonnull residencyCode then
    s ← get;
    status ← createCompositeExtract (UnsignedIntTy (astContext s))
               (Some imageInstruction) [0%N] noLoc;
    createStore residencyCode status noLoc;;
    createCompositeExtract texelType (Some imageInstruction) [1%N] noLoc
  else mret (Some imageInstruction).

Definition createImageSparseTexelsResident (residentCode : InstPtr)
    (loc : SourceLocation) : Build InstPtr :=
  cassert has_insertPoint null_insert_point;;
  s ← get;
  inst ← new_inst (SpirvImageSparseTexelsResident (BoolTy (astContext s)) 0 loc
                     residentCode);
  insertPoint_addInstruction inst;;
  mret (Some inst).

Definition createSelect (resultType : QualType)
    (condition trueValue falseValue : InstPtr) (loc : SourceLocation)
  : Build InstPtr :=
  cassert has_insertPoint null_insert_point;;
  inst ← new_inst (SpirvSelect resultType 0 loc condition trueValue falseValue);
  insertPoint_addInstruction inst;;
  mret (Some inst).

(** ** Structured control flow *)

Definition createSwitch (mergeLabel : BlockPtr) (selector : InstPtr)
    (defaultLabel : BlockPtr) (target : list (N * BlockPtr))
    (loc : SourceLocation) : Build unit :=
  cassert has_insertPoint null_insert_point;;
  selectionMerge ← new_inst
    (SpirvSelectionMerge loc mergeLabel spv.SelectionControlMaskNone);
  insertPoint_addInstruction selectionMerge;;
  switchInst ← new_inst (SpirvSwitch loc selector defaultLabel target);
  insertPoint_addInstruction switchInst.

Definition createKill (loc : SourceLocation) : Build unit :=
  cassert has_insertPoint null_insert_point;;
  kill ← new_inst (SpirvKill loc);
  insertPoint_addInstruction kill.

Definition createBranch (targetLabel mergeBB continueBB : BlockPtr)
    (loopControl : spv.LoopControlMask) (loc : SourceLocation) : Build unit :=
  cassert has_insertPoint null_insert_point;;
  (if nonnull mergeBB && nonnull continueBB then
     loopMerge ← new_inst (SpirvLoopMerge loc mergeBB continueBB loopControl);
     insertPoint_addInstruction loopMerge
   else mret tt);;
  branch ← new_inst (SpirvBranch loc targetLabel);
  insertPoint_addInstruction branch.

Definition createConditionalBranch (condition : InstPtr)
    (trueLabel falseLabel mergeLabel continueLabel : BlockPtr)
    (selectionControl : spv.SelectionControlMask)
    (loopControl : spv.LoopControlMask) (loc : SourceLocation) : Build unit :=
  cassert has_insertPoint null_insert_point;;
  (if nonnull mergeLabel then
     if nonnull continueLabel then
       loopMerge ← new_inst
         (SpirvLoopMerge loc mergeLabel continueLabel loopControl);
       insertPoint_addInstruction loopMerge
     else
       selectionMerge ← new_inst
         (SpirvSelectionMerge loc mergeLabel selectionControl);
       insertPoint_addInstruction selectionMerge
   else mret tt);;
  branchConditional ← new_inst
    (SpirvBranchConditional loc condition trueLabel falseLabel);
  insertPoint_addInstruction branchConditional.

Definition createReturn (loc : SourceLocation) : Build unit :=
  cassert has_insertPoint null_insert_point;;
  ret ← new_inst (SpirvReturn loc None);
  insertPoint_addInstruction ret.

Definition createReturnValue (value : InstPtr) (loc : SourceLocation)
  : Build unit :=
  cassert has_insertPoint null_insert_point;;
  ret ← new_inst (SpirvReturn loc value);
  insertPoint_addInstruction ret.

Definition createExtInst (resultType : QualType) (set : InstPtr)
    (inst : GLSLstd450) (operands : list InstPtr) (loc : SourceLocation)
  : Build InstPtr :=
  cassert has_insertPoint null_insert_point;;
  extInst ← new_inst (SpirvExtInst resultType 0 loc set inst operands);
  insertPoint_addInstruction extInst;;
  mret (Some extInst).

Definition createBarrier (memoryScope : spv.Scope)
    (memorySemantics : spv.MemorySemanticsMask) (exec : option spv.Scope)
    (loc : SourceLocation) : Build unit :=
  cassert has_insertPoint null_insert_point;;
  barrier ← new_inst (SpirvBarrier loc memoryScope memorySemantics exec);
  insertPoint_addInstruction barrier.

Definition createBitFieldInsert (resultType : QualType)
    (base insert offset count : InstPtr) (loc : SourceLocation) : Build InstPtr :=
  cassert has_insertPoint null_insert_point;;
  inst ← new_inst (SpirvBitFieldInsert resultType 0 loc base insert offset count);
  insertPoint_addInstruction inst;;
  mret (Some inst).

Definition createBitFieldExtract (resultType : QualType)
    (base offset count : InstPtr) (isSigned : bool) (loc : SourceLocation)
  : Build InstPtr :=
  cassert has_insertPoint null_insert_point;;
  inst ← new_inst (SpirvBitFieldExtract resultType 0 loc base offset count isSigned);
  insertPoint_addInstruction inst;;
  mret (Some inst).

(** Both bodies are empty in the source. *)
Definition createEmitVertex (loc : SourceLocation) : Build unit := mret tt.
Definition createEndPrimitive (loc : SourceLocation) : Build unit := mret tt.

(** ** Calls as data *)

(** Every operation of the builder, reified, so that statements can range
    over all of them; [exec] runs one. *)
Inductive BuilderCall : Type :=
  | BeginFunction (returnType : QualType) (loc : SourceLocation) (funcName : string)
  | AddFnParam (ptrType : QualType) (loc : SourceLocation) (name : string)
  | AddFnVar (valueType : QualType) (loc : SourceLocation) (name : string)
      (init : InstPtr)
  | EndFunction
  | CreateBasicBlock (name : string)
  | SetInsertPoint (bb : BlockPtr)
  | AddSuccessor (successorBB : BlockPtr)
  | SetMergeTarget (mergeLabel : BlockPtr)
  | SetContinueTarget (continueLabel : BlockPtr)
  | CreateCompositeConstruct (resultType : QualType) (constituents : list InstPtr)
      (loc : SourceLocation)
  | CreateCompositeExtract (resultType : QualType) (composite : InstPtr)
      (indexes : list N) (loc : SourceLocation)
  | CreateCompositeInsert (resultType : QualType) (composite : InstPtr)
      (indices : list N) (object : InstPtr) (loc : SourceLocation)
  | CreateVectorShuffle (resultType : QualType) (vector1 vector2 : InstPtr)
      (selectors : list N) (loc : SourceLocation)
  | CreateLoad (resultType : QualType) (pointer : InstPtr) (loc : SourceLocation)
  | CreateStore (address value : InstPtr) (loc : SourceLocation)
  | CreateFunctionCall (returnType : QualType) (func : FuncPtr)
      (params : list InstPtr) (loc : SourceLocation)
  | CreateAccessChain (resultType : QualType) (base : InstPtr)
      (indexes : list InstPtr) (loc : SourceLocation)
  | CreateUnaryOp (op : spv.Op) (resultType : QualType) (operand : InstPtr)
      (loc : SourceLocation)
  | CreateBinaryOp (op : spv.Op) (resultType : QualType) (lhs rhs : InstPtr)
      (loc : SourceLocation)
  | CreateSpecConstantBinaryOp (op : spv.Op) (resultType : QualType)
      (lhs rhs : InstPtr) (loc : SourceLocation)
  | CreateGroupNonUniformElect (op : spv.Op) (resultType : QualType)
      (execScope : spv.Scope) (loc : SourceLocation)
  | CreateGroupNonUniformUnaryOp (op : spv.Op) (resultType : QualType)
      (execScope : spv.Scope) (operand : InstPtr)
      (groupOp : option spv.GroupOperation) (loc : SourceLocation)
  | CreateGroupNonUniformBinaryOp (op : spv.Op) (resultType : QualType)
      (execScope : spv.Scope) (operand1 operand2 : InstPtr) (loc : SourceLocation)
  | CreateAtomicOp (opcode : spv.Op) (resultType : QualType)
      (originalValuePtr : InstPtr) (scope : spv.Scope)
      (memorySemantics : spv.MemorySemanticsMask) (valueToOp : InstPtr)
      (loc : SourceLocation)
  | CreateAtomicCompareExchange (resultType : QualType)
      (originalValuePtr : InstPtr) (scope : spv.Scope)
      (equalMemorySemantics unequalMemorySemantics : spv.MemorySemanticsMask)
      (valueToOp comparator : InstPtr) (loc : SourceLocation)
  | CreateImageTexelPointer (resultType : QualType)
      (image coordinate sample : InstPtr) (loc : SourceLocation)
  | CreateImageSample (texelType imageType : QualType) (image sampler : InstPtr)
      (isNonUniform : bool) (coordinate compareVal bias lod : InstPtr)
      (grad : InstPtr * InstPtr)
      (constOffset varOffset constOffsets sample minLod residencyCode : InstPtr)
      (loc : SourceLocation)
  | CreateImageFetchOrRead (doImageFetch : bool) (texelType imageType : QualType)
      (image coordinate lod : InstPtr)
      (constOffset varOffset constOffsets sample residencyCode : InstPtr)
      (loc : SourceLocation)
  | CreateImageWrite (imageType : QualType) (image coord texel : InstPtr)
      (loc : SourceLocation)
  | CreateImageGather (texelType imageType : QualType) (image sampler : InstPtr)
      (isNonUniform : bool) (coordinate component compareVal : InstPtr)
      (constOffset varOffset constOffsets sample residencyCode : InstPtr)
      (loc : SourceLocation)
  | CreateImageSparseTexelsResident (residentCode : InstPtr) (loc : SourceLocation)
  | CreateSelect (resultType : QualType) (condition trueValue falseValue : InstPtr)
      (loc : SourceLocation)
  | CreateSwitch (mergeLabel : BlockPtr) (selector : InstPtr)
      (defaultLabel : BlockPtr) (target : list (N * BlockPtr))
      (loc : SourceLocation)
  | CreateKill (loc : SourceLocation)
  | CreateBranch (targetLabel mergeBB continueBB : BlockPtr)
      (loopControl : spv.LoopControlMask) (loc : SourceLocation)
  | CreateConditionalBranch (condition : InstPtr)
      (trueLabel falseLabel mergeLabel continueLabel : BlockPtr)
      (selectionControl : spv.SelectionControlMask)
      (loopControl : spv.LoopControlMask) (loc : SourceLocation)
  | CreateReturn (loc : SourceLocation)
  | CreateReturnValue (value : InstPtr) (loc : SourceLocation)
  | CreateExtInst (resultType : QualType) (set : InstPtr) (inst : GLSLstd450)
      (operands : list InstPtr) (loc : SourceLocation)
  | CreateBarrier (memoryScope : spv.Scope)
      (memorySemantics : spv.MemorySemanticsMask) (exec : option spv.Scope)
      (loc : SourceLocation)
  | CreateBitFieldInsert (resultType : QualType)
      (base insert offset count : InstPtr) (loc : SourceLocation)
  | CreateBitFieldExtract (resultType : QualType) (base offset count : InstPtr)
      (isSigned : bool) (loc : SourceLocation)
  | CreateEmitVertex (loc : SourceLocation)
  | CreateEndPrimitive (loc : SourceLocation).

(** What a call hands back: nothing, or a pointer into the arena. *)
Inductive Returned : Type :=
  | RetVoid
  | RetPtr (p : option nat).

Definition returning (m : Build (option nat)) : Build Returned :=
  p ← m; mret (RetPtr p).
Definition void (m : Build unit) : Build Returned :=
  m;; mret RetVoid.

Definition exec `{TypeTranslator} (c : BuilderCall) : Build Returned :=
  match c with
  | BeginFunction rt loc name => returning (beginFunction rt loc name)
  | AddFnParam ty loc name => returning (addFnParam ty loc name)
  | AddFnVar ty loc name init => returning (addFnVar ty loc name init)
  | EndFunction => void endFunction
  | CreateBasicBlock name => returning (createBasicBlock name)
  | SetInsertPoint bb => void (setInsertPoint bb)
  | AddSuccessor bb => void (addSuccessor bb)
  | SetMergeTarget bb => void (setMergeTarget bb)
  | SetContinueTarget bb => void (setContinueTarget bb)
  | CreateCompositeConstruct ty cs loc =>
      returning (createCompositeConstruct ty cs loc)
  | CreateCompositeExtract ty c ix loc =>
      returning (createCompositeExtract ty c ix loc)
  | CreateCompositeInsert ty c ix o loc =>
      returning (createCompositeInsert ty c ix o loc)
  | CreateVectorShuffle ty v1 v2 sel loc =>
      returning (createVectorShuffle ty v1 v2 sel loc)
  | CreateLoad ty p loc => returning (createLoad ty p loc)
  | CreateStore a v loc => void (createStore a v loc)
  | CreateFunctionCall ty f ps loc => returning (createFunctionCall ty f ps loc)
  | CreateAccessChain ty b ix loc => returning (createAccessChain ty b ix loc)
  | CreateUnaryOp op ty x loc => returning (createUnaryOp op ty x loc)
  | CreateBinaryOp op ty l r loc => returning (createBinaryOp op ty l r loc)
  | CreateSpecConstantBinaryOp op ty l r loc =>
      returning (createSpecConstantBinaryOp op ty l r loc)
  | CreateGroupNonUniformElect op ty sc loc =>
      returning (createGroupNonUniformElect op ty sc loc)
  | CreateGroupNonUniformUnaryOp op ty sc x g loc =>
      returning (createGroupNonUniformUnaryOp op ty sc x g loc)
  | CreateGroupNonUniformBinaryOp op ty sc x y loc =>
      returning (createGroupNonUniformBinaryOp op ty sc x y loc)
  | CreateAtomicOp op ty p sc sem v loc =>
      returning (createAtomicOp op ty p sc sem v loc)
  | CreateAtomicCompareExchange ty p sc eq ne v cmp loc =>
      returning (createAtomicCompareExchange ty p sc eq ne v cmp loc)
  | CreateImageTexelPointer ty i c sm loc =>
      returning (createImageTexelPointer ty i c sm loc)
  | CreateImageSample ty it i sm nu co cv bi lod gr cof vof cofs sa ml rc loc =>
      returning (createImageSample ty it i sm nu co cv bi lod gr cof vof cofs
                   sa ml rc loc)
  | CreateImageFetchOrRead f ty it i co lod cof vof cofs sa rc loc =>
      returning (createImageFetchOrRead f ty it i co lod cof vof cofs sa rc loc)
  | CreateImageWrite it i co tx loc => void (createImageWrite it i co tx loc)
  | CreateImageGather ty it i sm nu co cm cv cof vof cofs sa rc loc =>
      returning (createImageGather ty it i sm nu co cm cv cof vof cofs sa rc loc)
  | CreateImageSparseTexelsResident rc loc =>
      returning (createImageSparseTexelsResident rc loc)
  | CreateSelect ty c t f loc => returning (createSelect ty c t f loc)
  | CreateSwitch m sel d tg loc => void (createSwitch m sel d tg loc)
  | CreateKill loc => void (createKill loc)
  | CreateBranch t m c lc loc => void (createBranch t m c lc loc)
  | CreateConditionalBranch cd t f m c sc lc loc =>
      void (createConditionalBranch cd t f m c sc lc loc)
  | CreateReturn loc => void (createReturn loc)
  | CreateReturnValue v loc => void (createReturnValue v loc)
  | CreateExtInst ty set i ops loc => returning (createExtInst ty set i ops loc)
  | CreateBarrier ms sem ex loc => void (createBarrier ms sem ex loc)
  | CreateBitFieldInsert ty b i o c loc =>
      returning (createBitFieldInsert ty b i o c loc)
  | CreateBitFieldExtract ty b o c sg loc =>
      returning (createBitFieldExtract ty b o c sg loc)
  | CreateEmitVertex loc => void (createEmitVertex loc)
  | CreateEndPrimitive loc => void (createEndPrimitive loc)
  end.

(** The calls whose body allocates an instruction node and appends it to the
    block under the cursor: every [create*] operation but [createBasicBlock]
    (which allocates a block) and the two stubs with empty bodies. *)
Definition emitsInstruction (c : BuilderCall) : bool :=
  match c with
  | BeginFunction _ _ _ | AddFnParam _ _ _ | AddFnVar _ _ _ _ | EndFunction
  | CreateBasicBlock _ | SetInsertPoint _
  | AddSuccessor _ | SetMergeTarget _ | SetContinueTarget _
  | CreateEmitVertex _ | CreateEndPrimitive _ => false
  | _ => true
  end.

(** ** Observations on builder states *)

(** The instruction sequence of block [b] (empty when [b] is no block). *)
Definition block_insts (s : SpirvBuilder) (b : nat) : list nat :=
  match blocks (context s) !! b with
  | Some bb => instructions bb
  | None => []
  end.

(** The node at an address of the arena. *)
Definition node_at (s : SpirvBuilder) (p : nat) : option SpirvInstruction :=
  insts (context s) !! p.

(** The cursor is positioned on the live block [b]. *)
Definition positioned (s : SpirvBuilder) (b : nat) : Prop :=
  insertPoint s = Some b ∧ b < length (blocks (context s)).

Definition Idle (s : SpirvBuilder) : Prop := function s = None.
Definition FunctionOpen (s : SpirvBuilder) : Prop := function s ≠ None.

Definition SpirvBasicBlock_addInstructions (ps : list nat) (bb : SpirvBasicBlock)
  : SpirvBasicBlock :=
  mkBasicBlock (labelId bb) (labelName bb) (instructions bb ++ ps)
    (successors bb) (mergeTarget bb) (continueTarget bb).

(** [emits_exactly s s' b ns]: from [s] to [s'] the arena gained exactly the
    nodes [ns], in this order and at consecutive fresh addresses; block [b]
    had exactly these addresses appended, in this order, to its instruction
    sequence; and no other block, no function and no member of the builder
    changed.  (The capability set is accounted for separately.) *)
Record emits_exactly (s s' : SpirvBuilder) (b : nat) (ns : list SpirvInstruction)
  : Prop := mkEmits {
  emits_insts : insts (context s') = insts (context s) ++ ns;
  emits_blocks :
    blocks (context s') =
    alter (SpirvBasicBlock_addInstructions
             (seq (length (insts (context s))) (length ns))) b
          (blocks (context s));
  emits_funcs : funcs (context s') = funcs (context s);
  emits_functions : functions (module s') = functions (module s);
  emits_function : function s' = function s;
  emits_insertPoint : insertPoint s' = insertPoint s;
  emits_basicBlocks : basicBlocks s' = basicBlocks s;
  emits_astContext : astContext s' = astContext s
}.

(** The state after appending the nodes [ns] to block [b]. *)
Definition emitted (b : nat) (ns : list SpirvInstruction) (s : SpirvBuilder)
  : SpirvBuilder :=
  with_context
    (λ c, mkContext (insts c ++ ns)
            (alter (SpirvBasicBlock_addInstructions
                      (seq (length (insts c)) (length ns))) b (blocks c))
            (funcs c)) s.

(** The state after requiring the capabilities [caps]. *)
Definition requiring (caps : list spv.Capability) (s : SpirvBuilder)
  : SpirvBuilder :=
  with_module (λ m, mkModule (list_to_set caps ∪ capabilities m) (functions m)) s.

Definition isLoopMerge (n : SpirvInstruction) : bool :=
  match n with SpirvLoopMerge _ _ _ _ => true | _ => false end.
Definition isSelectionMerge (n : SpirvInstruction) : bool :=
  match n with SpirvSelectionMerge _ _ _ => true | _ => false end.
Definition isBranchConditional (n : SpirvInstruction) : bool :=
  match n with SpirvBranchConditional _ _ _ _ => true | _ => false end.

(** How many of the nodes [ns] satisfy [p]. *)
Definition count (p : SpirvInstruction → bool) (ns : list SpirvInstruction) : nat :=
  length (filter (λ n, p n = true) ns).

(** ** Reference tables *)

(** The eight sample opcodes by axis: depth comparison, explicit Lod, sparse
    residency. *)
Definition sampleOpcodeTable (dref explicit sparse : bool) : spv.Op :=
  match dref, explicit, sparse with
  | false, false, false => spv.OpImageSampleImplicitLod
  | false, false, true => spv.OpImageSparseSampleImplicitLod
  | false, true, false => spv.OpImageSampleExplicitLod
  | false, true, true => spv.OpImageSparseSampleExplicitLod
  | true, false, false => spv.OpImageSampleDrefImplicitLod
  | true, false, true => spv.OpImageSparseSampleDrefImplicitLod
  | true, true, false => spv.OpImageSampleDrefExplicitLod
  | true, true, true => spv.OpImageSparseSampleDrefExplicitLod
  end.

(** The eight presence flags of the image operands, in bit order. *)
Record OperandFlags := mkFlags {
  hasBias : bool;
  hasLod : bool;
  hasGrad : bool;
  hasConstOffset : bool;
  hasOffset : bool;
  hasConstOffsets : bool;
  hasSample : bool;
  hasMinLod : bool
}.

Definition flagsOf (bias lod : InstPtr) (grad : InstPtr * InstPtr)
    (constOffset varOffset constOffsets sample minLod : InstPtr) : OperandFlags :=
  mkFlags (nonnull bias) (nonnull lod) (nonnull grad.1 && nonnull grad.2)
    (nonnull constOffset) (nonnull varOffset) (nonnull constOffsets)
    (nonnull sample) (nonnull minLod).

Definition flagBits (f : OperandFlags) : list bool :=
  [hasBias f; hasLod f; hasGrad f; hasConstOffset f; hasOffset f;
   hasConstOffsets f; hasSample f; hasMinLod f].

(** The mask whose bit [i] is the [i]-th presence flag. *)
Definition maskOfFlags (f : OperandFlags) : N :=
  foldr (λ b acc, (N.b2n b + 2 * acc)%N) 0%N (flagBits f).

(** The capabilities the mask composition requires for given flags. *)
Definition capsOfFlags (f : OperandFlags) : gset N :=
  (if hasOffset f || hasConstOffsets f then {[spv.ImageGatherExtended]} else ∅)
  ∪ (if hasMinLod f then {[spv.MinLodCap]} else ∅).

(** The capabilities the mask composition requires, in the order of its
    [requireCapability] calls. *)
Definition maskCapabilities (varOffset constOffsets minLod : InstPtr)
  : list spv.Capability :=
  (if nonnull varOffset then [spv.ImageGatherExtended] else [])
  ++ (if nonnull constOffsets then [spv.ImageGatherExtended] else [])
  ++ (if nonnull minLod then [spv.MinLodCap] else []).

Definition isImageOp (n : SpirvInstruction) : bool :=
  match n with
  | SpirvImageOp _ _ _ _ _ _ _ _ _ _ _ _ _ _ _ _ _ _ _ => true
  | _ => false
  end.

(** The opcode of an image instruction node. *)
Definition imageOpcode (n : SpirvInstruction) : option spv.Op :=
  match n with
  | SpirvImageOp op _ _ _ _ _ _ _ _ _ _ _ _ _ _ _ _ _ _ => Some op
  | _ => None
  end.

(** The three nodes of the sparse unwrap pattern behind an image instruction
    at address [img], the first of them allocated at address [a]: the status
    (field 0) is extracted, stored to the residency-output location, and the
    texel (field 1) is extracted. *)
Definition sparseUnwrap (uintTy texelType : QualType) (img a : nat)
    (residencyCode : InstPtr) (storeLoc : SourceLocation)
  : list SpirvInstruction :=
  [SpirvCompositeExtract uintTy 0 noLoc (Some img) [0%N];
   SpirvStore storeLoc residencyCode (Some a);
   SpirvCompositeExtract texelType 0 noLoc (Some img) [1%N]].

(** What an image access does around its image instruction [imageInst],
    emitted after the nodes [pre]: with a residency-output location the
    sparse-residency capability is in the module, the three unwrap nodes
    follow the image instruction and the second extract is returned; without
    one nothing follows and the image instruction is returned. *)
Definition sparseContract (s s' : SpirvBuilder) (b : nat)
    (pre : list SpirvInstruction) (imageInst : SpirvInstruction)
    (texelType : QualType) (residencyCode : InstPtr) (storeLoc : SourceLocation)
    (ret : InstPtr) : Prop :=
  let img := length (insts (context s)) + length pre in
  match residencyCode with
  | Some rc =>
      spv.SparseResidency ∈ capabilities (module s')
      ∧ emits_exactly s s' b
          (pre ++ [imageInst]
           ++ [SpirvCompositeExtract (UnsignedIntTy (astContext s)) 0 noLoc
                 (Some img) [0%N];
               SpirvStore storeLoc (Some rc) (Some (img + 1));
               SpirvCompositeExtract texelType 0 noLoc (Some img) [1%N]])
      ∧ ret = Some (img + 3)
      ∧ node_at s' (img + 3)
        = Some (SpirvCompositeExtract texelType 0 noLoc (Some img) [1%N])
  | None =>
      emits_exactly s s' b (pre ++ [imageInst])
      ∧ ret = Some img
      ∧ node_at s' img = Some imageInst
  end.

Definition SpirvFunction_addBasicBlocks (bs : list nat) (f : SpirvFunction)
  : SpirvFunction :=
  mkFunction (returnType f) (functionId f) (functionControl f) (functionLoc f)
    (functionName f) (parameters f) (variables f) (functionBlocks f ++ bs).

(** A computation that, when it completes, has left the active function, the
    cursor and the pending-block list as they were, and has neither allocated
    nor dropped a block or a function. *)
Definition keeps_members {A} (m : Build A) : Prop :=
  ∀ s a s', m s = Done a s' →
    function s' = function s ∧ insertPoint s' = insertPoint s
    ∧ basicBlocks s' = basicBlocks s
    ∧ length (blocks (context s')) = length (blocks (context s))
    ∧ length (funcs (context s')) = length (funcs (context s)).

(** A computation that, when it completes, has left the instruction sequence
    of every block as it was. *)
Definition keeps_instructions {A} (m : Build A) : Prop :=
  ∀ s a s' b, m s = Done a s' → block_insts s' b = block_insts s b.

(** The pointers the builder holds address live objects of the arena, and
    the cursor, when set, is on a pending block. *)
Record pointers_live (s : SpirvBuilder) : Prop := mkLive {
  live_function : ∀ f, function s = Some f → f < length (funcs (context s));
  live_pending : ∀ b, b ∈ basicBlocks s → b < length (blocks (context s));
  live_cursor : ∀ b, insertPoint s = Some b → b ∈ basicBlocks s
}.

(** The asserted precondition of [createImageSample]: Lod and MinLod are not
    both supplied. *)
Definition lodContract (c : BuilderCall) : Prop :=
  match c with
  | CreateImageSample _ _ _ _ _ _ _ _ lod _ _ _ _ _ minLod _ _ =>
      lod = None ∨ minLod = None
  | _ => True
  end.

(** The four calls that write the active function, the cursor or the
    pending-block list. *)
Definition changesMembers (c : BuilderCall) : bool :=
  match c with
  | BeginFunction _ _ _ | EndFunction | CreateBasicBlock _ | SetInsertPoint _ => true
  | _ => false
  end.

(** ** Sequences of calls that respect the contract *)

(** The one precondition that no assertion of the source checks: the cursor
    is either unset or positioned on a block of the active function (its
    pending list). *)
Definition cursorContract (c : BuilderCall) (s : SpirvBuilder) : Prop :=
  match c with
  | SetInsertPoint (Some b) => FunctionOpen s ∧ b ∈ basicBlocks s
  | _ => True
  end.

(** The states a client can reach from a freshly constructed builder by calls
    that respect the contract: no assertion fails and the cursor contract
    holds. *)
Inductive reachable `{TypeTranslator} : SpirvBuilder → Prop :=
  | reachable_new ac ctx : reachable (SpirvBuilder_new ac ctx)
  | reachable_call s c r s' :
      reachable s → cursorContract c s → exec c s = Done r s' → reachable s'.

(** The states reached from a freshly constructed builder by calls that all
    complete (no assertion fails) and that each satisfy the caller-side
    condition [P] in the state they are made in. *)
Inductive reachable_by `{TypeTranslator}
    (P : BuilderCall → SpirvBuilder → Prop) : SpirvBuilder → Prop :=
  | reachable_by_new ac ctx : reachable_by P (SpirvBuilder_new ac ctx)
  | reachable_by_call s c r s' :
      reachable_by P s → P c s → exec c s = Done r s' → reachable_by P s'.

(** No condition but the assertions of the source. *)
Definition asserted `{TypeTranslator} : SpirvBuilder → Prop :=
  reachable_by (λ _ _, True).

(** The call positions the cursor on a block while no function is open. *)
Definition positionsWhileIdle (c : BuilderCall) (s : SpirvBuilder) : Prop :=
  match c with
  | SetInsertPoint (Some _) => Idle s
  | _ => False
  end.

(** No assertion fails and the cursor is never positioned on a block while
    no function is open. *)
Definition unpositioned `{TypeTranslator} : SpirvBuilder → Prop :=
  reachable_by (λ c s, ¬ positionsWhileIdle c s).

(** ** Concrete builders *)

Definition demoAST : ASTContext := mkASTContext 7%N 9%N.
Definition demoTranslator : TypeTranslator :=
  {| getCapabilityForStorageImageReadWrite := λ _, 49%N |}.

Definition stateOf {A} (o : Outcome A) : SpirvBuilder :=
  match o with Done _ s => s | Fatal _ s => s end.

(** Freshly constructed: Idle. *)
Definition idleBuilder : SpirvBuilder :=
  SpirvBuilder_new demoAST (mkContext [] [] []).

(** A function is open, one block created, cursor not yet positioned. *)
Definition openBuilder : SpirvBuilder :=
  stateOf ((beginFunction 1%N 0%N "main";; createBasicBlock "entry") idleBuilder).

(** Cursor positioned on the entry block. *)
Definition cursorBuilder : SpirvBuilder :=
  stateOf (setInsertPoint (Some 0) openBuilder).

(** The function closed again: Idle, with one function in the module. *)
Definition closedBuilder : SpirvBuilder :=
  stateOf (endFunction cursorBuilder).

(** The cursor positioned, after the function was closed, on the block of
    that closed function: every call of the sequence completes. *)
Definition strayBuilder : SpirvBuilder :=
  stateOf (setInsertPoint (Some 0) closedBuilder).

(** ** Sequences of calls and further observations *)

(** A client's straight-line sequence of calls: each runs in the state the
    previous one left; the first assertion that fails stops the sequence. *)
Fixpoint execAll `{TypeTranslator} (cs : list BuilderCall)
  : Build (list Returned) :=
  match cs with
  | [] => mret []
  | c :: rest => r ← exec c; rs ← execAll rest; mret (r :: rs)
  end.

(** The operand mask stored in an image instruction node. *)
Definition imageMask (n : SpirvInstruction) : option N :=
  match n with
  | SpirvImageOp _ _ _ _ _ _ mask _ _ _ _ _ _ _ _ _ _ _ _ => Some mask
  | _ => None
  end.

(** The depth-comparison operand stored in an image instruction node. *)
Definition imageDref (n : SpirvInstruction) : InstPtr :=
  match n with
  | SpirvImageOp _ _ _ _ _ _ _ dref _ _ _ _ _ _ _ _ _ _ _ => dref
  | _ => None
  end.

(** The mask stored in an image instruction node is the mask of the operands
    stored in the same node (any other node agrees vacuously). *)
Definition maskAgrees (n : SpirvInstruction) : Prop :=
  match n with
  | SpirvImageOp _ _ _ _ _ _ mask _ bias lod gradDx gradDy constOffset
      varOffset constOffsets sample minLod _ _ =>
      mask = maskOfFlags (flagsOf bias lod (gradDx, gradDy) constOffset
                            varOffset constOffsets sample minLod)
  | _ => True
  end.

Definition isExplicitLodOp (op : spv.Op) : bool :=
  bool_decide (op ∈ [spv.OpImageSampleExplicitLod;
                     spv.OpImageSampleDrefExplicitLod;
                     spv.OpImageSparseSampleExplicitLod;
                     spv.OpImageSparseSampleDrefExplicitLod]).

Definition isDrefOp (op : spv.Op) : bool :=
  bool_decide (op ∈ [spv.OpImageSampleDrefImplicitLod;
                     spv.OpImageSampleDrefExplicitLod;
                     spv.OpImageSparseSampleDrefImplicitLod;
                     spv.OpImageSparseSampleDrefExplicitLod;
                     spv.OpImageDrefGather; spv.OpImageSparseDrefGather]).

Definition isSparseOp (op : spv.Op) : bool :=
  bool_decide (op ∈ [spv.OpImageSparseSampleImplicitLod;
                     spv.OpImageSparseSampleExplicitLod;
                     spv.OpImageSparseSampleDrefImplicitLod;
                     spv.OpImageSparseSampleDrefExplicitLod;
                     spv.OpImageSparseFetch; spv.OpImageSparseGather;
                     spv.OpImageSparseDrefGather; spv.OpImageSparseRead]).

(** The four fetch/read opcodes by axis: fetch or read, sparse residency. *)
Definition fetchOrReadOpcodeTable (fetch sparse : bool) : spv.Op :=
  match fetch, sparse with
  | true, false => spv.OpImageFetch
  | true, true => spv.OpImageSparseFetch
  | false, false => spv.OpImageRead
  | false, true => spv.OpImageSparseRead
  end.

(** The four gather opcodes by axis: depth comparison, sparse residency. *)
Definition gatherOpcodeTable (dref sparse : bool) : spv.Op :=
  match dref, sparse with
  | false, false => spv.OpImageGather
  | false, true => spv.OpImageSparseGather
  | true, false => spv.OpImageDrefGather
  | true, true => spv.OpImageSparseDrefGather
  end.

(** The capabilities a call can require at most. *)
Definition mayRequire `{TypeTranslator} (c : BuilderCall) : gset N :=
  match c with
  | CreateUnaryOp _ _ _ _ | CreateBinaryOp _ _ _ _ _ => {[spv.ImageQuery]}
  | CreateImageSample _ _ _ _ _ _ _ _ _ _ _ _ _ _ _ _ _ =>
      {[spv.SparseResidency; spv.ImageGatherExtended; spv.MinLodCap]}
  | CreateImageFetchOrRead _ _ imageType _ _ _ _ _ _ _ _ _ =>
      {[spv.SparseResidency; spv.ImageGatherExtended;
        getCapabilityForStorageImageReadWrite imageType]}
  | CreateImageWrite imageType _ _ _ _ =>
      {[getCapabilityForStorageImageReadWrite imageType]}
  | CreateImageGather _ _ _ _ _ _ _ _ _ _ _ _ _ _ =>
      {[spv.SparseResidency; spv.ImageGatherExtended]}
  | _ => ∅
  end.

(** A computation that, however it ends, removes no capability and adds
    none outside [A]. *)
Definition caps_within (A : gset N) {B} (m : Build B) : Prop :=
  ∀ s, capabilities (module s) ⊆ capabilities (module (stateOf (m s)))
       ∧ capabilities (module (stateOf (m s))) ⊆ capabilities (module s) ∪ A.

(** [s'] extends [s]: every node of the arena is where it was, no block or
    function is gone, and every block's instruction sequence has only grown
    at its end. *)
Definition extends (s s' : SpirvBuilder) : Prop :=
  insts (context s) `prefix_of` insts (context s')
  ∧ length (blocks (context s)) ≤ length (blocks (context s'))
  ∧ length (funcs (context s)) ≤ length (funcs (context s'))
  ∧ ∀ b, block_insts s b `prefix_of` block_insts s' b.

Definition append_only {B} (m : Build B) : Prop :=
  ∀ s, extends s (stateOf (m s)).

(** The two calls that declare a parameter or a local variable. *)
Definition isDeclaration (c : BuilderCall) : bool :=
  match c with
  | AddFnParam _ _ _ | AddFnVar _ _ _ _ => true
  | _ => false
  end.

(** The node a declaration allocates. *)
Definition declNodes (cs : list BuilderCall) : list SpirvInstruction :=
  flat_map (λ c, match c with
                 | AddFnParam ty loc name => [SpirvFunctionParameter ty 0 loc name]
                 | AddFnVar ty loc name init =>
                     [SpirvVariable ty 0 loc spv.StorageClassFunction init name]
                 | _ => []
                 end) cs.

(** The addresses a run of declarations, the first allocated at [a], adds to
    the parameters and to the variables of the function, in call order. *)
Fixpoint declarations (a : nat) (cs : list BuilderCall) : list nat * list nat :=
  match cs with
  | [] => ([], [])
  | AddFnParam _ _ _ :: rest =>
      let '(ps, vs) := declarations (S a) rest in (a :: ps, vs)
  | AddFnVar _ _ _ _ :: rest =>
      let '(ps, vs) := declarations (S a) rest in (ps, a :: vs)
  | _ :: rest => declarations a rest
  end.

Definition SpirvFunction_declare (ps vs : list nat) (f : SpirvFunction)
  : SpirvFunction :=
  mkFunction (returnType f) (functionId f) (functionControl f) (functionLoc f)
    (functionName f) (parameters f ++ ps) (variables f ++ vs) (functionBlocks f).

(** The parameter nodes, and the variable nodes, of a run of declarations, in
    call order. *)
Definition paramNodes (cs : list BuilderCall) : list SpirvInstruction :=
  flat_map (λ c, match c with
                 | AddFnParam ty loc name => [SpirvFunctionParameter ty 0 loc name]
                 | _ => []
                 end) cs.
Definition varNodes (cs : list BuilderCall) : list SpirvInstruction :=
  flat_map (λ c, match c with
                 | AddFnVar ty loc name init =>
                     [SpirvVariable ty 0 loc spv.StorageClassFunction init name]
                 | _ => []
                 end) cs.

Definition completes {A} (o : Outcome A) : bool :=
  match o with Done _ _ => true | Fatal _ _ => false end.

(** From [s] to [s'] nothing changed but block [b], and not its instruction
    sequence. *)
Definition only_cursor_block (s s' : SpirvBuilder) (b : nat) : Prop :=
  insts (context s') = insts (context s)
  ∧ (∀ b', block_insts s' b' = block_insts s b')
  ∧ (∀ b', b' ≠ b → blocks (context s') !! b' = blocks (context s) !! b')
  ∧ length (blocks (context s')) = length (blocks (context s))
  ∧ funcs (context s') = funcs (context s)
  ∧ module s' = module s
  ∧ function s' = function s
  ∧ insertPoint s' = insertPoint s
  ∧ basicBlocks s' = basicBlocks s.

(** * Running the monad *)

Lemma bind_run {A B} (m : Build A) (k : A → Build B) (s : SpirvBuilder) :
  (m ≫= k) s =
  match m s with
  | Done a s' => k a s'
  | Fatal msg s' => Fatal msg s'
  end.
Proof. reflexivity. Qed.

Lemma cassert_true cond msg s : cond s = true → cassert cond msg s = Done tt s.
Proof. unfold cassert. intros ->. reflexivity. Qed.

Lemma cassert_false cond msg s : cond s = false → cassert cond msg s = Fatal msg s.
Proof. unfold cassert. intros ->. reflexivity. Qed.

Lemma positioned_has_insertPoint s b : positioned s b → has_insertPoint s = true.
Proof. intros [Hip _]. unfold has_insertPoint. rewrite Hip. reflexivity. Qed.

Lemma no_cursor_has_insertPoint s : insertPoint s = None → has_insertPoint s = false.
Proof. unfold has_insertPoint. intros ->. reflexivity. Qed.

(** ** Algebra of [emitted] and [requiring] *)

Lemma addInstructions_nil bb : SpirvBasicBlock_addInstructions [] bb = bb.
Proof. destruct bb. unfold SpirvBasicBlock_addInstructions. simpl. by rewrite app_nil_r. Qed.

Lemma addInstructions_app ps qs bb :
  SpirvBasicBlock_addInstructions qs (SpirvBasicBlock_addInstructions ps bb)
  = SpirvBasicBlock_addInstructions (ps ++ qs) bb.
Proof. unfold SpirvBasicBlock_addInstructions. simpl. by rewrite app_assoc. Qed.

Lemma alter_addInstructions_nil b (l : list SpirvBasicBlock) :
  alter (SpirvBasicBlock_addInstructions []) b l = l.
Proof.
  revert b. induction l as [|bb l IH]; intros [|b]; simpl; try done.
  - by rewrite addInstructions_nil.
  - f_equal. apply IH.
Qed.

Lemma alter_addInstructions_app ps qs b (l : list SpirvBasicBlock) :
  alter (SpirvBasicBlock_addInstructions qs) b
    (alter (SpirvBasicBlock_addInstructions ps) b l)
  = alter (SpirvBasicBlock_addInstructions (ps ++ qs)) b l.
Proof.
  revert b. induction l as [|bb l IH]; intros [|b]; simpl; try done.
  - by rewrite addInstructions_app.
  - f_equal. apply IH.
Qed.

Lemma emitted_nil b s : emitted b [] s = s.
Proof.
  destruct s as [ac [i bl f] m fn ip bbs]. unfold emitted, with_context. simpl.
  by rewrite app_nil_r, alter_addInstructions_nil.
Qed.

Lemma emitted_app b ns ms s :
  emitted b ms (emitted b ns s) = emitted b (ns ++ ms) s.
Proof.
  unfold emitted, with_context. simpl.
  rewrite alter_addInstructions_app, <- app_assoc.
  rewrite !length_app, seq_app. reflexivity.
Qed.

Lemma emitted_requiring b ns caps s :
  emitted b ns (requiring caps s) = requiring caps (emitted b ns s).
Proof. reflexivity. Qed.

Lemma requiring_nil s : requiring [] s = s.
Proof.
  destruct s as [ac c [caps fs] fn ip bbs]. unfold requiring, with_module. simpl.
  by rewrite (left_id_L ∅ (∪)).
Qed.

Lemma requiring_app c1 c2 s :
  requiring c2 (requiring c1 s) = requiring (c1 ++ c2) s.
Proof.
  unfold requiring, with_module. simpl. do 2 f_equal.
  rewrite list_to_set_app_L, (assoc_L (∪)). f_equal. apply (comm_L (∪)).
Qed.

Lemma positioned_emitted s b ns : positioned s b → positioned (emitted b ns s) b.
Proof.
  intros [Hip Hlt]. split; [exact Hip|]. simpl. by rewrite length_alter.
Qed.

Lemma positioned_requiring s b caps : positioned s b → positioned (requiring caps s) b.
Proof. intros [Hip Hlt]. split; assumption. Qed.

Lemma emits_exactly_emitted s b ns caps :
  emits_exactly s (requiring caps (emitted b ns s)) b ns.
Proof. split; reflexivity. Qed.

Lemma emits_exactly_emitted_only s b ns : emits_exactly s (emitted b ns s) b ns.
Proof. split; reflexivity. Qed.

Lemma capabilities_requiring caps s :
  capabilities (module (requiring caps s)) = list_to_set caps ∪ capabilities (module s).
Proof. reflexivity. Qed.

Lemma capabilities_emitted b ns s :
  capabilities (module (emitted b ns s)) = capabilities (module s).
Proof. reflexivity. Qed.

(** ** The primitive steps *)

Lemma requireCapability_run cap s :
  requireCapability cap s = Done tt (requiring [cap] s).
Proof.
  unfold requireCapability, modify, requiring, with_module. simpl.
  by rewrite (right_id_L ∅ (∪)).
Qed.

(** Allocate a node, append it to the cursor block, go on. *)
Lemma emit_run {B} (n : SpirvInstruction) (k : nat → Build B) s b :
  positioned s b →
  (new_inst n ≫= λ i, insertPoint_addInstruction i ≫= λ _, k i) s
  = k (length (insts (context s))) (emitted b [n] s).
Proof.
  intros [Hip Hlt].
  destruct (lookup_lt_is_Some_2 _ _ Hlt) as [bb Hbb].
  rewrite bind_run. unfold new_inst. rewrite bind_run.
  unfold insertPoint_addInstruction, on_insertPoint. simpl.
  rewrite Hip, Hbb. reflexivity.
Qed.

Lemma emit_last_run (n : SpirvInstruction) s b :
  positioned s b →
  (new_inst n ≫= λ i, insertPoint_addInstruction i) s
  = Done tt (emitted b [n] s).
Proof.
  intros [Hip Hlt].
  destruct (lookup_lt_is_Some_2 _ _ Hlt) as [bb Hbb].
  rewrite bind_run. unfold new_inst.
  unfold insertPoint_addInstruction, on_insertPoint. simpl.
  rewrite Hip, Hbb. reflexivity.
Qed.

Lemma insts_emitted b ns s : insts (context (emitted b ns s)) = insts (context s) ++ ns.
Proof. reflexivity. Qed.

Lemma insts_requiring caps s : insts (context (requiring caps s)) = insts (context s).
Proof. reflexivity. Qed.

(** * Structured control flow *)

Lemma createBranch_run targetLabel mergeBB continueBB loopControl loc s b :
  positioned s b →
  createBranch targetLabel mergeBB continueBB loopControl loc s
  = Done tt
      (emitted b
         ((if nonnull mergeBB && nonnull continueBB
           then [SpirvLoopMerge loc mergeBB continueBB loopControl] else [])
          ++ [SpirvBranch loc targetLabel]) s).
Proof.
  intros Hpos. unfold createBranch.
  rewrite bind_run, (cassert_true _ _ _ (positioned_has_insertPoint _ _ Hpos)).
  rewrite bind_run.
  destruct (nonnull mergeBB && nonnull continueBB).
  - rewrite (emit_last_run _ _ b Hpos).
    rewrite (emit_last_run _ _ b (positioned_emitted _ _ _ Hpos)).
    by rewrite emitted_app.
  - simpl. by rewrite (emit_last_run _ _ b Hpos).
Qed.

(** C5. [createBranch] with the cursor positioned: when both the merge block
    and the continue block are supplied, exactly one loop-merge marker
    (carrying them and the loop-control flags) and then exactly one branch to
    the target are appended to the cursor block; when either is absent, only
    the branch is appended.  Nothing else changes. *)
Theorem createBranch_emits targetLabel mergeBB continueBB loopControl loc s b :
  positioned s b →
  ∃ s', createBranch targetLabel mergeBB continueBB loopControl loc s = Done tt s'
    ∧ capabilities (module s') = capabilities (module s)
    ∧ emits_exactly s s' b
        (match mergeBB, continueBB with
         | Some m, Some c =>
             [SpirvLoopMerge loc (Some m) (Some c) loopControl;
              SpirvBranch loc targetLabel]
         | _, _ => [SpirvBranch loc targetLabel]
         end).
Proof.
  intros Hpos. eexists. split; [by apply createBranch_run|].
  split; [reflexivity|].
  destruct mergeBB as [m|], continueBB as [c|]; apply emits_exactly_emitted_only.
Qed.

Lemma cursorBuilder_positioned : positioned cursorBuilder 0.
Proof. split; [reflexivity | simpl; lia]. Defined.

Lemma createBranch_emits_witness :
  ∃ s', createBranch (Some 0) (Some 0) (Some 0) 0%N 0%N cursorBuilder = Done tt s'
    ∧ capabilities (module s') = capabilities (module cursorBuilder)
    ∧ emits_exactly cursorBuilder s' 0
        [SpirvLoopMerge 0%N (Some 0) (Some 0) 0%N; SpirvBranch 0%N (Some 0)].
Proof.
  exact (createBranch_emits (Some 0) (Some 0) (Some 0) 0%N 0%N cursorBuilder 0
           cursorBuilder_positioned).
Defined.

(** The marker [createConditionalBranch] puts before its branch. *)
Lemma createConditionalBranch_run condition trueLabel falseLabel mergeLabel
    continueLabel selectionControl loopControl loc s b :
  positioned s b →
  createConditionalBranch condition trueLabel falseLabel mergeLabel
    continueLabel selectionControl loopControl loc s
  = Done tt
      (emitted b
         ((if nonnull mergeLabel then
             if nonnull continueLabel
             then [SpirvLoopMerge loc mergeLabel continueLabel loopControl]
             else [SpirvSelectionMerge loc mergeLabel selectionControl]
           else [])
          ++ [SpirvBranchConditional loc condition trueLabel falseLabel]) s).
Proof.
  intros Hpos. unfold createConditionalBranch.
  rewrite bind_run, (cassert_true _ _ _ (positioned_has_insertPoint _ _ Hpos)).
  rewrite bind_run.
  destruct (nonnull mergeLabel); [destruct (nonnull continueLabel)|].
  - rewrite (emit_last_run _ _ b Hpos).
    rewrite (emit_last_run _ _ b (positioned_emitted _ _ _ Hpos)).
    by rewrite emitted_app.
  - rewrite (emit_last_run _ _ b Hpos).
    rewrite (emit_last_run _ _ b (positioned_emitted _ _ _ Hpos)).
    by rewrite emitted_app.
  - simpl. by rewrite (emit_last_run _ _ b Hpos).
Qed.

(** C4. [createConditionalBranch] with the cursor positioned appends to the
    cursor block: a loop-merge marker (merge label, continue label, loop
    control) when both the merge and the continue label are supplied; a
    selection-merge marker (merge label, selection control) when only the
    merge label is; no marker when the merge label is absent; and then, last,
    the conditional branch on the true and false labels.  At most one marker
    is appended, so never both kinds; nothing else changes. *)
Theorem createConditionalBranch_emits condition trueLabel falseLabel mergeLabel
    continueLabel selectionControl loopControl loc s b :
  positioned s b →
  ∃ s' ns,
    createConditionalBranch condition trueLabel falseLabel mergeLabel
      continueLabel selectionControl loopControl loc s = Done tt s'
    ∧ capabilities (module s') = capabilities (module s)
    ∧ emits_exactly s s' b ns
    ∧ ns = match mergeLabel, continueLabel with
           | Some m, Some c =>
               [SpirvLoopMerge loc (Some m) (Some c) loopControl;
                SpirvBranchConditional loc condition trueLabel falseLabel]
           | Some m, None =>
               [SpirvSelectionMerge loc (Some m) selectionControl;
                SpirvBranchConditional loc condition trueLabel falseLabel]
           | None, _ =>
               [SpirvBranchConditional loc condition trueLabel falseLabel]
           end
    ∧ count isLoopMerge ns + count isSelectionMerge ns ≤ 1
    ∧ count isBranchConditional ns = 1
    ∧ last ns = Some (SpirvBranchConditional loc condition trueLabel falseLabel).
Proof.
  intros Hpos. eexists. eexists.
  split; [by apply createConditionalBranch_run|].
  split; [reflexivity|].
  split; [apply emits_exactly_emitted_only|].
  destruct mergeLabel as [m|], continueLabel as [c|]; simpl;
    (split; [reflexivity|]); vm_compute; repeat split; lia.
Qed.

Lemma createConditionalBranch_emits_witness :
  ∃ s' ns,
    createConditionalBranch (Some 3) (Some 1) (Some 2) (Some 4) None 0%N 0%N 5%N
      cursorBuilder = Done tt s'
    ∧ capabilities (module s') = capabilities (module cursorBuilder)
    ∧ emits_exactly cursorBuilder s' 0 ns
    ∧ ns = [SpirvSelectionMerge 5%N (Some 4) 0%N;
            SpirvBranchConditional 5%N (Some 3) (Some 1) (Some 2)]
    ∧ count isLoopMerge ns + count isSelectionMerge ns ≤ 1
    ∧ count isBranchConditional ns = 1
    ∧ last ns = Some (SpirvBranchConditional 5%N (Some 3) (Some 1) (Some 2)).
Proof.
  exact (createConditionalBranch_emits (Some 3) (Some 1) (Some 2) (Some 4) None
           0%N 0%N 5%N cursorBuilder 0 cursorBuilder_positioned).
Defined.

(** * Image-operand masks *)

Lemma Done_eq {A} (a a' : A) (s s' : SpirvBuilder) :
  a = a' → s = s' → Done a s = Done a' s'.
Proof. by intros -> ->. Qed.

Lemma composeImageOperandsMask_run bias lod grad constOffset varOffset
    constOffsets sample minLod s :
  composeImageOperandsMask bias lod grad constOffset varOffset constOffsets
    sample minLod s
  = Done (maskOfFlags (flagsOf bias lod grad constOffset varOffset constOffsets
                         sample minLod))
      (requiring (maskCapabilities varOffset constOffsets minLod) s).
Proof.
  unfold composeImageOperandsMask, maskCapabilities.
  destruct varOffset, constOffsets, minLod; simpl;
    rewrite ?bind_run, ?requireCapability_run; simpl;
    rewrite ?bind_run, ?requireCapability_run; simpl;
    rewrite ?bind_run, ?requireCapability_run; simpl;
    (apply Done_eq;
     [ destruct bias, lod, grad as [[?|] [?|]], constOffset, sample; reflexivity
     | rewrite ?requiring_app, ?requiring_nil; reflexivity ]).
Qed.

(** Bit [i] of the mask of a list of flags is its [i]-th flag. *)
Lemma testbit_bits (l : list bool) (i : nat) :
  N.testbit (foldr (λ b acc, (N.b2n b + 2 * acc)%N) 0%N l) (N.of_nat i)
  = default false (l !! i).
Proof.
  revert i. induction l as [|b l IH]; intros i.
  - by rewrite lookup_nil.
  - cbn [foldr]. destruct i as [|i].
    + rewrite N.add_comm. apply N.testbit_0_r.
    + rewrite Nat2N.inj_succ, N.add_comm, N.testbit_succ_r. apply IH.
Qed.

Lemma list_to_set_maskCapabilities varOffset constOffsets minLod :
  list_to_set (C := gset N) (maskCapabilities varOffset constOffsets minLod)
  = capsOfFlags (mkFlags false false false false (nonnull varOffset)
                   (nonnull constOffsets) false (nonnull minLod)).
Proof.
  unfold maskCapabilities, capsOfFlags.
  destruct varOffset, constOffsets, minLod; simpl; set_solver.
Qed.

(** C2. The image-operand mask is a function of the eight presence flags
    alone (the gradient flag being "both components present"): bit [i] of the
    returned mask is the [i]-th flag in the order Bias, Lod, Grad, ConstOffset,
    Offset, ConstOffsets, Sample, MinLod, and no other bit is set.  The only
    effect of the composition is on the capability set, which gains the
    extended-image-gather capability when a variable offset or a
    constant-offsets list is present and the minimum-Lod capability when a
    minimum level-of-detail is present, and nothing else. *)
Theorem composeImageOperandsMask_flags bias lod grad constOffset varOffset
    constOffsets sample minLod s :
  let f := flagsOf bias lod grad constOffset varOffset constOffsets sample minLod in
  ∃ mask s',
    composeImageOperandsMask bias lod grad constOffset varOffset constOffsets
      sample minLod s = Done mask s'
    ∧ mask = maskOfFlags f
    ∧ (∀ i, N.testbit mask (N.of_nat i) = default false (flagBits f !! i))
    ∧ mask = N.lor (if hasBias f then 1 else 0)
            (N.lor (if hasLod f then 2 else 0)
            (N.lor (if hasGrad f then 4 else 0)
            (N.lor (if hasConstOffset f then 8 else 0)
            (N.lor (if hasOffset f then 16 else 0)
            (N.lor (if hasConstOffsets f then 32 else 0)
            (N.lor (if hasSample f then 64 else 0)
                   (if hasMinLod f then 128 else 0)))))))%N
    ∧ capabilities (module s') = capsOfFlags f ∪ capabilities (module s)
    ∧ context s' = context s
    ∧ functions (module s') = functions (module s)
    ∧ function s' = function s
    ∧ insertPoint s' = insertPoint s
    ∧ basicBlocks s' = basicBlocks s
    ∧ astContext s' = astContext s.
Proof.
  intros f. eexists. eexists.
  split; [apply composeImageOperandsMask_run|].
  split; [reflexivity|].
  split; [intros i; apply testbit_bits|].
  split.
  { subst f. unfold flagsOf.
    destruct (nonnull bias), (nonnull lod), (nonnull grad.1 && nonnull grad.2),
      (nonnull constOffset), (nonnull varOffset), (nonnull constOffsets),
      (nonnull sample), (nonnull minLod); reflexivity. }
  split.
  { rewrite capabilities_requiring, list_to_set_maskCapabilities. reflexivity. }
  repeat split; reflexivity.
Qed.

(** * Image accesses *)

Lemma createCompositeExtract_run resultType composite indexes loc s b :
  positioned s b →
  createCompositeExtract resultType composite indexes loc s
  = Done (Some (length (insts (context s))))
      (emitted b [SpirvCompositeExtract resultType 0 loc composite indexes] s).
Proof.
  intros Hpos. unfold createCompositeExtract.
  rewrite bind_run, (cassert_true _ _ _ (positioned_has_insertPoint _ _ Hpos)).
  by rewrite (emit_run _ _ _ b Hpos).
Qed.

Lemma createStore_run address value loc s b :
  positioned s b →
  createStore address value loc s
  = Done tt (emitted b [SpirvStore loc address value] s).
Proof.
  intros Hpos. unfold createStore.
  rewrite bind_run, (cassert_true _ _ _ (positioned_has_insertPoint _ _ Hpos)).
  by rewrite (emit_last_run _ _ b Hpos).
Qed.

(** The sparse unwrap pattern shared by the three image accesses. *)
Lemma sparse_unwrap_run texelType img residencyCode storeLoc s b :
  positioned s b →
  (s0 ← get;
   status ← createCompositeExtract (UnsignedIntTy (astContext s0)) (Some img)
              [0%N] noLoc;
   createStore residencyCode status storeLoc;;
   createCompositeExtract texelType (Some img) [1%N] noLoc) s
  = Done (Some (length (insts (context s)) + 2))
      (emitted b
         (sparseUnwrap (UnsignedIntTy (astContext s)) texelType img
            (length (insts (context s))) residencyCode storeLoc) s).
Proof.
  intros Hpos. rewrite bind_run. unfold get.
  rewrite bind_run, (createCompositeExtract_run _ _ _ _ _ b Hpos).
  pose proof (positioned_emitted _ _
    [SpirvCompositeExtract (UnsignedIntTy (astContext s)) 0 noLoc (Some img) [0%N]]
    Hpos) as Hpos1.
  rewrite bind_run, (createStore_run _ _ _ _ b Hpos1).
  pose proof (positioned_emitted _ _
    [SpirvStore storeLoc residencyCode (Some (length (insts (context s))))]
    Hpos1) as Hpos2.
  rewrite (createCompositeExtract_run _ _ _ _ _ b Hpos2).
  rewrite !emitted_app, !insts_emitted, !length_app. simpl.
  apply Done_eq; [f_equal; lia | reflexivity].
Qed.

Lemma createImageSample_run texelType imageType image sampler isNonUniform
    coordinate compareVal bias lod grad constOffset varOffset constOffsets
    sample minLod residencyCode loc s b :
  positioned s b →
  lod = None ∨ minLod = None →
  let a := length (insts (context s)) in
  let imageSampleInst :=
    SpirvImageOp
      (imageSampleOp compareVal
         (nonnull lod || (nonnull grad.1 && nonnull grad.2))
         (nonnull residencyCode))
      texelType 0 loc (Some a) coordinate
      (maskOfFlags (flagsOf bias lod grad constOffset varOffset constOffsets
                      sample minLod))
      compareVal bias lod grad.1 grad.2 constOffset varOffset constOffsets
      sample minLod None None in
  createImageSample texelType imageType image sampler isNonUniform coordinate
    compareVal bias lod grad constOffset varOffset constOffsets sample minLod
    residencyCode loc s
  = Done (Some (if nonnull residencyCode then a + 4 else a + 1))
      (requiring
         ((if nonnull residencyCode then [spv.SparseResidency] else [])
          ++ maskCapabilities varOffset constOffsets minLod)
         (emitted b
            ([SpirvSampledImage imageType 0 loc image sampler; imageSampleInst]
             ++ (if nonnull residencyCode
                 then sparseUnwrap (UnsignedIntTy (astContext s)) texelType
                        (a + 1) (a + 2) residencyCode loc
                 else [])) s)).
Proof.
  intros Hpos Hlod a imageSampleInst. unfold createImageSample.
  rewrite bind_run, (cassert_true _ _ _ (positioned_has_insertPoint _ _ Hpos)).
  rewrite bind_run, cassert_true
    by (destruct Hlod as [-> | ->]; [reflexivity | by destruct lod]).
  rewrite bind_run.
  assert (∃ s1, (if nonnull residencyCode
                 then requireCapability spv.SparseResidency else mret tt) s
                = Done tt s1
                ∧ s1 = requiring (if nonnull residencyCode
                                  then [spv.SparseResidency] else []) s)
    as (s1 & -> & Hs1).
  { destruct residencyCode; simpl; eexists; split;
      [apply requireCapability_run | reflexivity | reflexivity
      | by rewrite requiring_nil]. }
  assert (positioned s1 b) as Hpos1 by (subst s1; by apply positioned_requiring).
  rewrite (emit_run _ _ _ b Hpos1).
  rewrite bind_run, composeImageOperandsMask_run.
  set (s2 := requiring _ (emitted b _ s1)).
  assert (positioned s2 b) as Hpos2
    by (subst s2; by apply positioned_requiring, positioned_emitted).
  rewrite (emit_run _ _ _ b Hpos2).
  set (s3 := emitted b _ s2).
  assert (positioned s3 b) as Hpos3 by (subst s3; by apply positioned_emitted).
  assert (length (insts (context s1)) = a) as Ha1 by (by subst s1).
  assert (length (insts (context s2)) = a + 1) as Ha2.
  { subst s2. rewrite insts_requiring, insts_emitted, length_app, Ha1. reflexivity. }
  assert (length (insts (context s3)) = a + 2) as Ha3.
  { subst s3. rewrite insts_emitted, length_app, Ha2. simpl. lia. }
  destruct residencyCode as [rc|]; cbn [nonnull].
  - rewrite (sparse_unwrap_run _ _ _ _ _ b Hpos3). rewrite Ha3, Ha2.
    apply Done_eq; [f_equal; lia|].
    subst s3 s2 s1. rewrite Ha1.
    rewrite emitted_app, emitted_requiring, emitted_app, emitted_requiring.
    rewrite requiring_app. reflexivity.
  - rewrite Ha2. apply Done_eq; [reflexivity|].
    subst s3 s2 s1. rewrite Ha1.
    rewrite emitted_requiring, emitted_app, emitted_requiring.
    rewrite requiring_app, app_nil_r. reflexivity.
Qed.

Lemma require_if_run (c : bool) cap s :
  (if c then requireCapability cap else mret tt) s
  = Done tt (requiring (if c then [cap] else []) s).
Proof.
  destruct c; [apply requireCapability_run | by rewrite requiring_nil].
Qed.

Lemma createImageFetchOrRead_run `{TypeTranslator} (doImageFetch : bool) texelType
    imageType image coordinate lod constOffset varOffset constOffsets sample
    residencyCode loc s b :
  positioned s b →
  let a := length (insts (context s)) in
  let fetchOrReadInst :=
    SpirvImageOp
      (if doImageFetch
       then (if nonnull residencyCode then spv.OpImageSparseFetch
             else spv.OpImageFetch)
       else (if nonnull residencyCode then spv.OpImageSparseRead
             else spv.OpImageRead))
      texelType 0 loc image coordinate
      (maskOfFlags (flagsOf None lod (None, None) constOffset varOffset
                      constOffsets sample None))
      None None lod None None constOffset varOffset constOffsets sample
      None None None in
  createImageFetchOrRead doImageFetch texelType imageType image coordinate lod
    constOffset varOffset constOffsets sample residencyCode loc s
  = Done (Some (if nonnull residencyCode then a + 3 else a))
      (requiring
         (maskCapabilities varOffset constOffsets None
          ++ (if nonnull residencyCode then [spv.SparseResidency] else [])
          ++ (if negb doImageFetch
              then [getCapabilityForStorageImageReadWrite imageType] else []))
         (emitted b
            ([fetchOrReadInst]
             ++ (if nonnull residencyCode
                 then sparseUnwrap (UnsignedIntTy (astContext s)) texelType
                        a (a + 1) residencyCode loc
                 else [])) s)).
Proof.
  intros Hpos a fetchOrReadInst. unfold createImageFetchOrRead.
  rewrite bind_run, (cassert_true _ _ _ (positioned_has_insertPoint _ _ Hpos)).
  rewrite bind_run, composeImageOperandsMask_run.
  rewrite bind_run, require_if_run.
  rewrite bind_run, require_if_run.
  rewrite !requiring_app.
  set (s1 := requiring _ s).
  assert (positioned s1 b) as Hpos1 by (subst s1; by apply positioned_requiring).
  rewrite (emit_run _ _ _ b Hpos1).
  set (s2 := emitted b _ s1).
  assert (positioned s2 b) as Hpos2 by (subst s2; by apply positioned_emitted).
  assert (length (insts (context s1)) = a) as Ha1 by (by subst s1).
  assert (length (insts (context s2)) = a + 1) as Ha2.
  { subst s2. rewrite insts_emitted, length_app, Ha1. reflexivity. }
  destruct residencyCode as [rc|]; cbn [nonnull].
  - rewrite (sparse_unwrap_run _ _ _ _ _ b Hpos2). rewrite Ha2, Ha1.
    apply Done_eq; [f_equal; lia|].
    subst s2 s1. rewrite emitted_app, emitted_requiring. reflexivity.
  - rewrite Ha1. apply Done_eq; [reflexivity|].
    subst s2 s1. rewrite emitted_requiring, app_nil_r. reflexivity.
Qed.

Lemma createImageGather_run texelType imageType image sampler isNonUniform
    coordinate component compareVal constOffset varOffset constOffsets sample
    residencyCode loc s b :
  positioned s b →
  let a := length (insts (context s)) in
  let imageInstruction :=
    SpirvImageOp
      (if nonnull compareVal
       then (if nonnull residencyCode then spv.OpImageSparseDrefGather
             else spv.OpImageDrefGather)
       else (if nonnull residencyCode then spv.OpImageSparseGather
             else spv.OpImageGather))
      texelType 0 loc (Some a) coordinate
      (maskOfFlags (flagsOf None None (None, None) constOffset varOffset
                      constOffsets sample None))
      compareVal None None None None constOffset varOffset constOffsets sample
      None component None in
  createImageGather texelType imageType image sampler isNonUniform coordinate
    component compareVal constOffset varOffset constOffsets sample
    residencyCode loc s
  = Done (Some (if nonnull residencyCode then a + 4 else a + 1))
      (requiring
         ((if nonnull residencyCode then [spv.SparseResidency] else [])
          ++ maskCapabilities varOffset constOffsets None)
         (emitted b
            ([SpirvSampledImage imageType 0 loc image sampler; imageInstruction]
             ++ (if nonnull residencyCode
                 then sparseUnwrap (UnsignedIntTy (astContext s)) texelType
                        (a + 1) (a + 2) residencyCode noLoc
                 else [])) s)).
Proof.
  intros Hpos a imageInstruction. unfold createImageGather.
  rewrite bind_run, (cassert_true _ _ _ (positioned_has_insertPoint _ _ Hpos)).
  rewrite bind_run, require_if_run.
  set (s1 := requiring _ s).
  assert (positioned s1 b) as Hpos1 by (subst s1; by apply positioned_requiring).
  rewrite (emit_run _ _ _ b Hpos1).
  rewrite bind_run, composeImageOperandsMask_run.
  set (s2 := requiring _ (emitted b _ s1)).
  assert (positioned s2 b) as Hpos2
    by (subst s2; by apply positioned_requiring, positioned_emitted).
  rewrite (emit_run _ _ _ b Hpos2).
  set (s3 := emitted b _ s2).
  assert (positioned s3 b) as Hpos3 by (subst s3; by apply positioned_emitted).
  assert (length (insts (context s1)) = a) as Ha1 by (by subst s1).
  assert (length (insts (context s2)) = a + 1) as Ha2.
  { subst s2. rewrite insts_requiring, insts_emitted, length_app, Ha1. reflexivity. }
  assert (length (insts (context s3)) = a + 2) as Ha3.
  { subst s3. rewrite insts_emitted, length_app, Ha2. simpl. lia. }
  destruct residencyCode as [rc|]; cbn [nonnull].
  - rewrite (sparse_unwrap_run _ _ _ _ _ b Hpos3). rewrite Ha3, Ha2.
    apply Done_eq; [f_equal; lia|].
    subst s3 s2 s1. rewrite Ha1.
    rewrite emitted_app, emitted_requiring, emitted_app, emitted_requiring.
    rewrite requiring_app. reflexivity.
  - rewrite Ha2. apply Done_eq; [reflexivity|].
    subst s3 s2 s1. rewrite Ha1.
    rewrite emitted_requiring, emitted_app, emitted_requiring.
    rewrite requiring_app, app_nil_r. reflexivity.
Qed.

Lemma imageSampleOp_table compareVal isExplicit isSparse :
  imageSampleOp compareVal isExplicit isSparse
  = sampleOpcodeTable (nonnull compareVal) isExplicit isSparse.
Proof. by destruct compareVal, isExplicit, isSparse. Qed.

Lemma sampleOpcodeTable_inj d e sp d' e' sp' :
  sampleOpcodeTable d e sp = sampleOpcodeTable d' e' sp' →
  d = d' ∧ e = e' ∧ sp = sp'.
Proof.
  destruct d, e, sp, d', e', sp'; intros Heq; try discriminate Heq; done.
Qed.

(** Each of the eight opcodes of the table is emitted by some call. *)
Lemma every_sample_variant_emitted texelType imageType image sampler
    isNonUniform coordinate bias constOffset varOffset constOffsets sample loc
    s b (d e sp : bool) :
  positioned s b →
  ∃ compareVal lod grad residencyCode r s' ns imageSampleInst,
    createImageSample texelType imageType image sampler isNonUniform coordinate
      compareVal bias lod grad constOffset varOffset constOffsets sample None
      residencyCode loc s = Done r s'
    ∧ emits_exactly s s' b ns
    ∧ ns !! 1 = Some imageSampleInst
    ∧ imageOpcode imageSampleInst = Some (sampleOpcodeTable d e sp).
Proof.
  intros Hpos.
  exists (if d then Some 0 else None), None,
         (if e then (Some 0, Some 0) else (None, None)),
         (if sp then Some 0 else None).
  do 4 eexists.
  split.
  { apply (createImageSample_run _ _ _ _ _ _ _ _ _ _ _ _ _ _ _ _ _ _ b Hpos).
    by right. }
  split; [apply emits_exactly_emitted|].
  split; [reflexivity|].
  simpl. rewrite imageSampleOp_table. by destruct d, e, sp.
Qed.

(** C1. [createImageSample], with the cursor positioned and Lod and MinLod
    not both supplied, emits exactly one image instruction (right after the
    sampled-image combinator), and its opcode is the entry of the table of
    the eight sample opcodes selected by three booleans: a depth-comparison
    value is present; a Lod operand is present or both gradient components
    are; a residency-output location is present.  The eight entries are
    pairwise distinct, so the opcode determines the three booleans and
    nothing else about the call enters the choice; and each of the eight
    opcodes is emitted by some call that the precondition allows. *)
Theorem createImageSample_opcode texelType imageType image sampler isNonUniform
    coordinate compareVal bias lod grad constOffset varOffset constOffsets
    sample minLod residencyCode loc s b :
  positioned s b →
  lod = None ∨ minLod = None →
  ∃ r s' ns imageSampleInst,
    createImageSample texelType imageType image sampler isNonUniform coordinate
      compareVal bias lod grad constOffset varOffset constOffsets sample minLod
      residencyCode loc s = Done r s'
    ∧ emits_exactly s s' b ns
    ∧ count isImageOp ns = 1
    ∧ ns !! 1 = Some imageSampleInst
    ∧ imageOpcode imageSampleInst
      = Some (sampleOpcodeTable
                (nonnull compareVal)
                (nonnull lod || (nonnull grad.1 && nonnull grad.2))
                (nonnull residencyCode))
    ∧ (∀ d e sp d' e' sp',
         sampleOpcodeTable d e sp = sampleOpcodeTable d' e' sp' →
         d = d' ∧ e = e' ∧ sp = sp')
    ∧ (∀ d e sp : bool,
         ∃ compareVal' lod' grad' residencyCode' r' s'' ns' inst',
           createImageSample texelType imageType image sampler isNonUniform
             coordinate compareVal' bias lod' grad' constOffset varOffset
             constOffsets sample None residencyCode' loc s = Done r' s''
           ∧ emits_exactly s s'' b ns'
           ∧ ns' !! 1 = Some inst'
           ∧ imageOpcode inst' = Some (sampleOpcodeTable d e sp)).
Proof.
  intros Hpos Hlod. do 4 eexists.
  split; [by apply (createImageSample_run _ _ _ _ _ _ _ _ _ _ _ _ _ _ _ _ _ _ b)|].
  split; [apply emits_exactly_emitted|].
  split; [by destruct residencyCode|].
  split; [reflexivity|].
  split; [simpl; by rewrite imageSampleOp_table|].
  split; [apply sampleOpcodeTable_inj|].
  intros d e sp. by apply every_sample_variant_emitted.
Qed.

Lemma createImageSample_opcode_witness :
  ∃ r s' ns imageSampleInst,
    createImageSample 3%N 4%N (Some 10) (Some 11) false (Some 12) (Some 13) None
      None (Some 14, Some 15) None None None None None (Some 16) 5%N
      cursorBuilder = Done r s'
    ∧ emits_exactly cursorBuilder s' 0 ns
    ∧ count isImageOp ns = 1
    ∧ ns !! 1 = Some imageSampleInst
    ∧ imageOpcode imageSampleInst = Some spv.OpImageSparseSampleDrefExplicitLod
    ∧ (∀ d e sp d' e' sp',
         sampleOpcodeTable d e sp = sampleOpcodeTable d' e' sp' →
         d = d' ∧ e = e' ∧ sp = sp')
    ∧ (∀ d e sp : bool,
         ∃ compareVal' lod' grad' residencyCode' r' s'' ns' inst',
           createImageSample 3%N 4%N (Some 10) (Some 11) false (Some 12)
             compareVal' None lod' grad' None None None None None
             residencyCode' 5%N cursorBuilder = Done r' s''
           ∧ emits_exactly cursorBuilder s'' 0 ns'
           ∧ ns' !! 1 = Some inst'
           ∧ imageOpcode inst' = Some (sampleOpcodeTable d e sp)).
Proof.
  exact (createImageSample_opcode 3%N 4%N (Some 10) (Some 11) false (Some 12)
           (Some 13) None None (Some 14, Some 15) None None None None None
           (Some 16) 5%N cursorBuilder 0 cursorBuilder_positioned
           (or_introl eq_refl)).
Defined.

Lemma elem_of_requiring cap caps s :
  cap ∈ caps → cap ∈ capabilities (module (requiring caps s)).
Proof.
  intros Hin. rewrite capabilities_requiring.
  apply elem_of_union_l, elem_of_list_to_set, Hin.
Qed.

Lemma sparseContract_emitted s b caps pre imageInst texelType residencyCode
    storeLoc :
  (nonnull residencyCode = true → spv.SparseResidency ∈ caps) →
  let img := length (insts (context s)) + length pre in
  sparseContract s
    (requiring caps
       (emitted b
          (pre ++ [imageInst]
           ++ (if nonnull residencyCode
               then sparseUnwrap (UnsignedIntTy (astContext s)) texelType
                      img (img + 1) residencyCode storeLoc
               else [])) s))
    b pre imageInst texelType residencyCode storeLoc
    (Some (if nonnull residencyCode then img + 3 else img)).
Proof.
  intros Hcap img. unfold sparseContract. fold img.
  destruct residencyCode as [rc|]; cbn [nonnull].
  - split; [by apply elem_of_requiring, Hcap|].
    split; [apply emits_exactly_emitted|].
    split; [reflexivity|].
    unfold node_at. rewrite insts_requiring, insts_emitted.
    rewrite lookup_app_r by lia.
    replace (img + 3 - length (insts (context s))) with (length pre + 3)
      by (unfold img; lia).
    rewrite lookup_app_r by lia.
    replace (length pre + 3 - length pre) with 3 by lia. reflexivity.
  - split; [rewrite app_nil_r; apply emits_exactly_emitted|].
    split; [reflexivity|].
    unfold node_at. rewrite insts_requiring, insts_emitted.
    rewrite lookup_app_r by lia.
    replace (img - length (insts (context s))) with (length pre + 0)
      by (unfold img; lia).
    rewrite lookup_app_r by lia.
    replace (length pre + 0 - length pre) with 0 by lia. reflexivity.
Qed.

(** C3. The three image accesses that take a residency-output location
    ([createImageSample], [createImageFetchOrRead], [createImageGather]), with
    the cursor positioned: when the location is supplied, the sparse-residency
    capability is in the module afterwards and, right behind the image
    instruction, exactly three more nodes are appended to the cursor block:
    the extract of field 0 of the image instruction, the store of that
    extracted status to the supplied location, and the extract of field 1 of
    the image instruction, whose address is what the call returns; when no
    location is supplied the image instruction is the last node appended and
    its address is returned. *)
Theorem sparse_residency_unwrap `{TypeTranslator} texelType imageType image
    sampler isNonUniform coordinate compareVal bias lod grad constOffset
    varOffset constOffsets sample minLod component (doImageFetch : bool)
    residencyCode loc s b :
  positioned s b →
  lod = None ∨ minLod = None →
  (∃ r s' imageInst,
     createImageSample texelType imageType image sampler isNonUniform
       coordinate compareVal bias lod grad constOffset varOffset constOffsets
       sample minLod residencyCode loc s = Done r s'
     ∧ isImageOp imageInst = true
     ∧ sparseContract s s' b [SpirvSampledImage imageType 0 loc image sampler]
         imageInst texelType residencyCode loc r)
  ∧ (∃ r s' imageInst,
       createImageFetchOrRead doImageFetch texelType imageType image
         coordinate lod constOffset varOffset constOffsets sample
         residencyCode loc s = Done r s'
       ∧ isImageOp imageInst = true
       ∧ sparseContract s s' b [] imageInst texelType residencyCode loc r)
  ∧ (∃ r s' imageInst,
       createImageGather texelType imageType image sampler isNonUniform
         coordinate component compareVal constOffset varOffset constOffsets
         sample residencyCode loc s = Done r s'
       ∧ isImageOp imageInst = true
       ∧ sparseContract s s' b [SpirvSampledImage imageType 0 loc image sampler]
           imageInst texelType residencyCode noLoc r).
Proof.
  intros Hpos Hlod.
  set (a := length (insts (context s))).
  split; [|split].
  - do 3 eexists. split.
    { rewrite (createImageSample_run _ _ _ _ _ _ _ _ _ _ _ _ _ _ _ _ _ _ b Hpos Hlod).
      fold a. replace (a + 4) with (a + 1 + 3) by lia.
      replace (a + 2) with (a + 1 + 1) by lia. reflexivity. }
    split; cycle 1.
    { apply (sparseContract_emitted s b _
               [SpirvSampledImage imageType 0 loc image sampler]).
      intros ->. apply elem_of_app. left. by apply list_elem_of_singleton. }
    reflexivity.
  - do 3 eexists. split.
    { rewrite (createImageFetchOrRead_run _ _ _ _ _ _ _ _ _ _ _ _ _ b Hpos).
      fold a. replace (a + 3) with (a + 0 + 3) by lia.
      replace (a + 1) with (a + 0 + 1) by lia.
      replace (Some (if nonnull residencyCode then a + 0 + 3 else a))
        with (Some (if nonnull residencyCode then a + 0 + 3 else a + 0))
        by (destruct residencyCode; simpl; f_equal; lia).
      replace (sparseUnwrap (UnsignedIntTy (astContext s)) texelType a
                 (a + 0 + 1) residencyCode loc)
        with (sparseUnwrap (UnsignedIntTy (astContext s)) texelType (a + 0)
                (a + 0 + 1) residencyCode loc)
        by (f_equal; lia).
      reflexivity. }
    split; cycle 1.
    { apply (sparseContract_emitted s b _ []).
      intros ->. apply elem_of_app. right. apply elem_of_app. left.
      by apply list_elem_of_singleton. }
    reflexivity.
  - do 3 eexists. split.
    { rewrite (createImageGather_run _ _ _ _ _ _ _ _ _ _ _ _ _ _ _ b Hpos).
      fold a. replace (a + 4) with (a + 1 + 3) by lia.
      replace (a + 2) with (a + 1 + 1) by lia. reflexivity. }
    split; cycle 1.
    { apply (sparseContract_emitted s b _
               [SpirvSampledImage imageType 0 loc image sampler]).
      intros ->. apply elem_of_app. left. by apply list_elem_of_singleton. }
    reflexivity.
Qed.

Lemma sparse_residency_unwrap_witness :
  (∃ r s' imageInst,
     createImageSample 3%N 4%N (Some 10) (Some 11) false (Some 12) None None
       None (None, None) None None None None None (Some 16) 5%N cursorBuilder
     = Done r s'
     ∧ isImageOp imageInst = true
     ∧ sparseContract cursorBuilder s' 0
         [SpirvSampledImage 4%N 0 5%N (Some 10) (Some 11)]
         imageInst 3%N (Some 16) 5%N r)
  ∧ (∃ r s' imageInst,
       createImageFetchOrRead (H := demoTranslator) true 3%N 4%N (Some 10)
         (Some 12) None None None None None (Some 16) 5%N cursorBuilder
       = Done r s'
       ∧ isImageOp imageInst = true
       ∧ sparseContract cursorBuilder s' 0 [] imageInst 3%N (Some 16) 5%N r)
  ∧ (∃ r s' imageInst,
       createImageGather 3%N 4%N (Some 10) (Some 11) false (Some 12) (Some 17)
         None None None None None (Some 16) 5%N cursorBuilder = Done r s'
       ∧ isImageOp imageInst = true
       ∧ sparseContract cursorBuilder s' 0
           [SpirvSampledImage 4%N 0 5%N (Some 10) (Some 11)]
           imageInst 3%N (Some 16) noLoc r).
Proof.
  exact (sparse_residency_unwrap (H := demoTranslator) 3%N 4%N (Some 10)
           (Some 11) false (Some 12) None None None (None, None) None None None
           None None (Some 17) true (Some 16) 5%N cursorBuilder 0
           cursorBuilder_positioned (or_introl eq_refl)).
Defined.

(** * Image queries *)

Lemma createUnaryOp_run op resultType operand loc s b :
  positioned s b →
  createUnaryOp op resultType operand loc s
  = Done (Some (length (insts (context s))))
      (requiring (if isUnaryImageQuery op then [spv.ImageQuery] else [])
         (emitted b [SpirvUnaryOp op resultType 0 loc operand] s)).
Proof.
  intros Hpos. unfold createUnaryOp.
  rewrite bind_run, (cassert_true _ _ _ (positioned_has_insertPoint _ _ Hpos)).
  rewrite (emit_run _ _ _ b Hpos).
  by rewrite bind_run, require_if_run.
Qed.

Lemma createBinaryOp_run op resultType lhs rhs loc s b :
  positioned s b →
  createBinaryOp op resultType lhs rhs loc s
  = Done (Some (length (insts (context s))))
      (requiring (if isBinaryImageQuery op then [spv.ImageQuery] else [])
         (emitted b [SpirvBinaryOp op resultType 0 loc lhs rhs] s)).
Proof.
  intros Hpos. unfold createBinaryOp.
  rewrite bind_run, (cassert_true _ _ _ (positioned_has_insertPoint _ _ Hpos)).
  rewrite (emit_run _ _ _ b Hpos).
  by rewrite bind_run, require_if_run.
Qed.

Lemma isUnaryImageQuery_spec op :
  isUnaryImageQuery op = true ↔
  op = spv.OpImageQuerySize ∨ op = spv.OpImageQueryLevels
  ∨ op = spv.OpImageQuerySamples.
Proof.
  unfold isUnaryImageQuery. rewrite !orb_true_iff, !N.eqb_eq. tauto.
Qed.

Lemma isBinaryImageQuery_spec op :
  isBinaryImageQuery op = true ↔
  op = spv.OpImageQueryLod ∨ op = spv.OpImageQuerySizeLod.
Proof.
  unfold isBinaryImageQuery. rewrite !orb_true_iff, !N.eqb_eq. tauto.
Qed.

Lemma node_at_emitted_one b n caps s :
  node_at (requiring caps (emitted b [n] s)) (length (insts (context s))) = Some n.
Proof.
  unfold node_at. rewrite insts_requiring, insts_emitted.
  rewrite lookup_app_r by lia. by rewrite Nat.sub_diag.
Qed.

(** C8. With the cursor positioned, [createUnaryOp] and [createBinaryOp] each
    append exactly their one node, built from the opcode and the operands
    as given, and return its address, for every opcode.  The capability set
    gains the image-query capability when the opcode of [createUnaryOp] is
    the image size, levels or samples query, or the opcode of
    [createBinaryOp] is the image Lod or size-Lod query; for every other
    opcode the capability set is unchanged. *)
Theorem image_query_capability op resultType operand lhs rhs loc s b :
  positioned s b →
  (∃ p s',
     createUnaryOp op resultType operand loc s = Done (Some p) s'
     ∧ emits_exactly s s' b [SpirvUnaryOp op resultType 0 loc operand]
     ∧ node_at s' p = Some (SpirvUnaryOp op resultType 0 loc operand)
     ∧ (op = spv.OpImageQuerySize ∨ op = spv.OpImageQueryLevels
        ∨ op = spv.OpImageQuerySamples →
        capabilities (module s') = {[spv.ImageQuery]} ∪ capabilities (module s))
     ∧ (op ≠ spv.OpImageQuerySize → op ≠ spv.OpImageQueryLevels →
        op ≠ spv.OpImageQuerySamples →
        capabilities (module s') = capabilities (module s)))
  ∧ (∃ p s',
       createBinaryOp op resultType lhs rhs loc s = Done (Some p) s'
       ∧ emits_exactly s s' b [SpirvBinaryOp op resultType 0 loc lhs rhs]
       ∧ node_at s' p = Some (SpirvBinaryOp op resultType 0 loc lhs rhs)
       ∧ (op = spv.OpImageQueryLod ∨ op = spv.OpImageQuerySizeLod →
          capabilities (module s') = {[spv.ImageQuery]} ∪ capabilities (module s))
       ∧ (op ≠ spv.OpImageQueryLod → op ≠ spv.OpImageQuerySizeLod →
          capabilities (module s') = capabilities (module s))).
Proof.
  intros Hpos. split.
  - do 2 eexists. split; [by apply createUnaryOp_run|].
    split; [apply emits_exactly_emitted|].
    split; [apply node_at_emitted_one|].
    rewrite capabilities_requiring, capabilities_emitted. split.
    + intros Hq. apply isUnaryImageQuery_spec in Hq. rewrite Hq. simpl.
      by rewrite (right_id_L ∅ (∪)).
    + intros H1 H2 H3.
      destruct (isUnaryImageQuery op) eqn:Hq.
      * apply isUnaryImageQuery_spec in Hq. tauto.
      * simpl. by rewrite (left_id_L ∅ (∪)).
  - do 2 eexists. split; [by apply createBinaryOp_run|].
    split; [apply emits_exactly_emitted|].
    split; [apply node_at_emitted_one|].
    rewrite capabilities_requiring, capabilities_emitted. split.
    + intros Hq. apply isBinaryImageQuery_spec in Hq. rewrite Hq. simpl.
      by rewrite (right_id_L ∅ (∪)).
    + intros H1 H2.
      destruct (isBinaryImageQuery op) eqn:Hq.
      * apply isBinaryImageQuery_spec in Hq. tauto.
      * simpl. by rewrite (left_id_L ∅ (∪)).
Qed.

(** * The two stubs *)

(** C9. In every builder state, positioned or not, with or without an open
    function, [createEmitVertex] and [createEndPrimitive] complete and leave
    the whole state (arena, module, capability set, active function, cursor,
    pending blocks) exactly as it was. *)
Theorem stubs_do_nothing `{TypeTranslator} loc s :
  createEmitVertex loc s = Done tt s
  ∧ createEndPrimitive loc s = Done tt s
  ∧ exec (CreateEmitVertex loc) s = Done RetVoid s
  ∧ exec (CreateEndPrimitive loc) s = Done RetVoid s.
Proof. repeat split. Qed.

Lemma image_query_capability_witness :
  (∃ p s',
     createUnaryOp spv.OpImageQuerySize 3%N (Some 10) 5%N cursorBuilder
     = Done (Some p) s'
     ∧ emits_exactly cursorBuilder s' 0
         [SpirvUnaryOp spv.OpImageQuerySize 3%N 0 5%N (Some 10)]
     ∧ node_at s' p = Some (SpirvUnaryOp spv.OpImageQuerySize 3%N 0 5%N (Some 10))
     ∧ (spv.OpImageQuerySize = spv.OpImageQuerySize
        ∨ spv.OpImageQuerySize = spv.OpImageQueryLevels
        ∨ spv.OpImageQuerySize = spv.OpImageQuerySamples →
        capabilities (module s')
        = {[spv.ImageQuery]} ∪ capabilities (module cursorBuilder))
     ∧ (spv.OpImageQuerySize ≠ spv.OpImageQuerySize →
        spv.OpImageQuerySize ≠ spv.OpImageQueryLevels →
        spv.OpImageQuerySize ≠ spv.OpImageQuerySamples →
        capabilities (module s') = capabilities (module cursorBuilder)))
  ∧ (∃ p s',
       createBinaryOp spv.OpImageQuerySize 3%N (Some 10) (Some 11) 5%N
         cursorBuilder = Done (Some p) s'
       ∧ emits_exactly cursorBuilder s' 0
           [SpirvBinaryOp spv.OpImageQuerySize 3%N 0 5%N (Some 10) (Some 11)]
       ∧ node_at s' p
         = Some (SpirvBinaryOp spv.OpImageQuerySize 3%N 0 5%N (Some 10) (Some 11))
       ∧ (spv.OpImageQuerySize = spv.OpImageQueryLod
          ∨ spv.OpImageQuerySize = spv.OpImageQuerySizeLod →
          capabilities (module s')
          = {[spv.ImageQuery]} ∪ capabilities (module cursorBuilder))
       ∧ (spv.OpImageQuerySize ≠ spv.OpImageQueryLod →
          spv.OpImageQuerySize ≠ spv.OpImageQuerySizeLod →
          capabilities (module s') = capabilities (module cursorBuilder))).
Proof.
  exact (image_query_capability spv.OpImageQuerySize 3%N (Some 10) (Some 10)
           (Some 11) 5%N cursorBuilder 0 cursorBuilder_positioned).
Defined.

(** * Closing a function *)

Lemma addBasicBlocks_app bs cs fn :
  SpirvFunction_addBasicBlocks cs (SpirvFunction_addBasicBlocks bs fn)
  = SpirvFunction_addBasicBlocks (bs ++ cs) fn.
Proof. unfold SpirvFunction_addBasicBlocks. simpl. by rewrite app_assoc. Qed.

Lemma alter_addBasicBlocks_nil f (l : list SpirvFunction) :
  alter (SpirvFunction_addBasicBlocks []) f l = l.
Proof.
  revert f. induction l as [|fn l IH]; intros [|f]; simpl; try done.
  - destruct fn. unfold SpirvFunction_addBasicBlocks. simpl. by rewrite app_nil_r.
  - f_equal. apply IH.
Qed.

Lemma alter_addBasicBlocks_app bs cs f (l : list SpirvFunction) :
  alter (SpirvFunction_addBasicBlocks cs) f
    (alter (SpirvFunction_addBasicBlocks bs) f l)
  = alter (SpirvFunction_addBasicBlocks (bs ++ cs)) f l.
Proof.
  revert f. induction l as [|fn l IH]; intros [|f]; simpl; try done.
  - by rewrite addBasicBlocks_app.
  - f_equal. apply IH.
Qed.

(** The loop of [endFunction] attaches the blocks in list order. *)
Lemma addBasicBlocks_run bbs s f :
  function s = Some f → f < length (funcs (context s)) →
  addBasicBlocks bbs s
  = Done tt (with_context (with_funcs (alter (SpirvFunction_addBasicBlocks bbs) f)) s).
Proof.
  revert s. induction bbs as [|bb bbs IH]; intros s Hf Hlt.
  - simpl. apply Done_eq; [reflexivity|].
    destruct s as [ac [i bl fs] m fn ip pend]. unfold with_context, with_funcs.
    simpl. by rewrite alter_addBasicBlocks_nil.
  - cbn [addBasicBlocks]. rewrite bind_run. unfold on_function. rewrite Hf.
    destruct (lookup_lt_is_Some_2 _ _ Hlt) as [fn ->].
    rewrite IH; [| exact Hf | simpl; by rewrite length_alter].
    apply Done_eq; [reflexivity|].
    unfold with_context, with_funcs. simpl.
    change (alter (SpirvFunction_addBasicBlock bb) f (funcs (context s)))
      with (alter (SpirvFunction_addBasicBlocks [bb]) f (funcs (context s))).
    by rewrite alter_addBasicBlocks_app.
Qed.

Lemma endFunction_run s f :
  function s = Some f → f < length (funcs (context s)) →
  endFunction s
  = Done tt
      (mkBuilder (astContext s)
         (mkContext (insts (context s)) (blocks (context s))
            (alter (SpirvFunction_addBasicBlocks (basicBlocks s)) f
               (funcs (context s))))
         (mkModule (capabilities (module s)) (functions (module s) ++ [f]))
         None None []).
Proof.
  intros Hf Hlt. unfold endFunction.
  rewrite bind_run, cassert_true by (unfold has_function; by rewrite Hf).
  rewrite bind_run. unfold get. rewrite bind_run.
  rewrite (addBasicBlocks_run _ _ f Hf Hlt).
  rewrite bind_run. unfold modify. rewrite bind_run, bind_run. simpl.
  rewrite Hf. reflexivity.
Qed.

(** C7. From a state with an open function, [endFunction] completes; the
    active function has then received the pending blocks, appended to its
    block sequence in the order of the pending list (the order of their
    creation); the pending list is empty; the function is appended to the
    module's function sequence; the active function and the cursor are unset
    (the builder is Idle); capabilities, instruction nodes and blocks are
    untouched.  The pending list is in creation order because
    [createBasicBlock] puts each new block at its end.  From Idle,
    [endFunction] dies on its assertion, the state unchanged. *)
Theorem endFunction_closes s f :
  function s = Some f → f < length (funcs (context s)) →
  (∃ s',
     endFunction s = Done tt s'
     ∧ funcs (context s')
       = alter (SpirvFunction_addBasicBlocks (basicBlocks s)) f (funcs (context s))
     ∧ (∀ fn, funcs (context s) !! f = Some fn →
          ∃ fn', funcs (context s') !! f = Some fn'
                 ∧ functionBlocks fn' = functionBlocks fn ++ basicBlocks s
                 ∧ parameters fn' = parameters fn
                 ∧ variables fn' = variables fn)
     ∧ basicBlocks s' = []
     ∧ functions (module s') = functions (module s) ++ [f]
     ∧ function s' = None
     ∧ insertPoint s' = None
     ∧ Idle s'
     ∧ capabilities (module s') = capabilities (module s)
     ∧ insts (context s') = insts (context s)
     ∧ blocks (context s') = blocks (context s))
  ∧ (∀ name, ∃ bb s1,
       createBasicBlock name s = Done (Some bb) s1
       ∧ basicBlocks s1 = basicBlocks s ++ [bb])
  ∧ (∀ s0, function s0 = None →
       endFunction s0 = Fatal "no active function" s0).
Proof.
  intros Hf Hlt. split; [|split].
  2:{ intros name. do 2 eexists. unfold createBasicBlock.
      rewrite bind_run, cassert_true by (unfold has_function; by rewrite Hf).
      split; reflexivity. }
  - eexists. split; [by apply endFunction_run|]. simpl.
    split; [reflexivity|].
    split.
    { intros fn Hfn. eexists. split.
      - rewrite list_lookup_alter, Hfn, decide_True by done. reflexivity.
      - by repeat split. }
    by repeat split.
  - intros s0 Hs0. unfold endFunction.
    rewrite bind_run, cassert_false by (unfold has_function; by rewrite Hs0).
    reflexivity.
Qed.

Lemma endFunction_closes_witness :
  (∃ s',
     endFunction openBuilder = Done tt s'
     ∧ funcs (context s')
       = alter (SpirvFunction_addBasicBlocks (basicBlocks openBuilder)) 0
           (funcs (context openBuilder))
     ∧ (∀ fn, funcs (context openBuilder) !! 0 = Some fn →
          ∃ fn', funcs (context s') !! 0 = Some fn'
                 ∧ functionBlocks fn' = functionBlocks fn ++ basicBlocks openBuilder
                 ∧ parameters fn' = parameters fn
                 ∧ variables fn' = variables fn)
     ∧ basicBlocks s' = []
     ∧ functions (module s') = functions (module openBuilder) ++ [0]
     ∧ function s' = None
     ∧ insertPoint s' = None
     ∧ Idle s'
     ∧ capabilities (module s') = capabilities (module openBuilder)
     ∧ insts (context s') = insts (context openBuilder)
     ∧ blocks (context s') = blocks (context openBuilder))
  ∧ (∀ name, ∃ bb s1,
       createBasicBlock name openBuilder = Done (Some bb) s1
       ∧ basicBlocks s1 = basicBlocks openBuilder ++ [bb])
  ∧ (∀ s0, function s0 = None →
       endFunction s0 = Fatal "no active function" s0).
Proof.
  refine (endFunction_closes openBuilder 0 eq_refl _). simpl. lia.
Defined.

(** * Emission without a cursor *)

Ltac dies_on_cursor :=
  rewrite ?bind_run;
  rewrite cassert_false by (by apply no_cursor_has_insertPoint);
  reflexivity.

(** C6. With no cursor positioned, every instruction-emitting operation of
    the builder (every [create*] operation that builds an instruction node)
    dies on the "null insert point" assertion, and the state it dies in is
    the state it was called in: no node was allocated, no block, function,
    capability or member was touched. *)
Theorem null_insert_point_is_fatal `{TypeTranslator} c s :
  emitsInstruction c = true →
  insertPoint s = None →
  exec c s = Fatal null_insert_point s.
Proof.
  intros Hemit Hnone.
  destruct c; try discriminate Hemit; unfold exec, returning, void;
    [ unfold createCompositeConstruct | unfold createCompositeExtract
    | unfold createCompositeInsert | unfold createVectorShuffle
    | unfold createLoad | unfold createStore | unfold createFunctionCall
    | unfold createAccessChain | unfold createUnaryOp | unfold createBinaryOp
    | unfold createSpecConstantBinaryOp | unfold createGroupNonUniformElect
    | unfold createGroupNonUniformUnaryOp | unfold createGroupNonUniformBinaryOp
    | unfold createAtomicOp | unfold createAtomicCompareExchange
    | unfold createImageTexelPointer | unfold createImageSample
    | unfold createImageFetchOrRead | unfold createImageWrite
    | unfold createImageGather | unfold createImageSparseTexelsResident
    | unfold createSelect | unfold createSwitch | unfold createKill
    | unfold createBranch | unfold createConditionalBranch
    | unfold createReturn | unfold createReturnValue | unfold createExtInst
    | unfold createBarrier | unfold createBitFieldInsert
    | unfold createBitFieldExtract ];
    dies_on_cursor.
Qed.

Lemma null_insert_point_is_fatal_witness :
  exec (H := demoTranslator) (CreateLoad 3%N (Some 0) 5%N) openBuilder
  = Fatal null_insert_point openBuilder.
Proof.
  exact (null_insert_point_is_fatal (H := demoTranslator)
           (CreateLoad 3%N (Some 0) 5%N) openBuilder eq_refl eq_refl).
Defined.

(** * The Idle invariant *)

Create HintDb keeps.

Ltac done_inv H :=
  cbv [mret Build_ret get modify abort new_inst requireCapability setInsertPoint]
    in H;
  simplify_eq; repeat split; done.

Lemma keeps_ret {A} (a : A) : keeps_members (mret a).
Proof. intros s a' s' Heq. done_inv Heq. Qed.

Lemma keeps_bind {A B} (m : Build A) (k : A → Build B) :
  keeps_members m → (∀ a, keeps_members (k a)) → keeps_members (m ≫= k).
Proof.
  intros Hm Hk s b s' Heq. rewrite bind_run in Heq.
  destruct (m s) as [a s1|] eqn:Hms; [|discriminate].
  destruct (Hm _ _ _ Hms) as (Hf1 & Hi1 & Hb1 & Hl1 & Hg1).
  destruct (Hk a _ _ _ Heq) as (Hf2 & Hi2 & Hb2 & Hl2 & Hg2).
  by rewrite Hf2, Hi2, Hb2, Hl2, Hg2.
Qed.

Lemma keeps_cassert cond msg : keeps_members (cassert cond msg).
Proof.
  intros s a s' Heq. unfold cassert in Heq.
  destruct (cond s); [|discriminate]. done_inv Heq.
Qed.

Lemma keeps_get : keeps_members get.
Proof. intros s a s' Heq. done_inv Heq. Qed.

Lemma keeps_abort {A} msg : keeps_members (abort (A := A) msg).
Proof. intros s a s' Heq. discriminate. Qed.

Lemma keeps_new_inst n : keeps_members (new_inst n).
Proof. intros s a s' Heq. done_inv Heq. Qed.

Lemma keeps_on_insertPoint f : keeps_members (on_insertPoint f).
Proof.
  intros s a s' Heq. unfold on_insertPoint in Heq.
  destruct (insertPoint s) as [b|] eqn:Hip; [|discriminate].
  destruct (blocks (context s) !! b) eqn:Hb; [|discriminate].
  inversion Heq; subst s'. repeat split; simpl; try done.
  by rewrite length_alter.
Qed.

Lemma keeps_insertPoint_addInstruction i : keeps_members (insertPoint_addInstruction i).
Proof. apply keeps_on_insertPoint. Qed.

Lemma keeps_on_function f : keeps_members (on_function f).
Proof.
  intros s a s' Heq. unfold on_function in Heq.
  destruct (function s) as [b|] eqn:Hfn; [|discriminate].
  destruct (funcs (context s) !! b) eqn:Hb; [|discriminate].
  inversion Heq; subst s'. repeat split; simpl; try done.
  by rewrite length_alter.
Qed.

Lemma keeps_requireCapability cap : keeps_members (requireCapability cap).
Proof. intros s a s' Heq. done_inv Heq. Qed.

#[local] Hint Resolve keeps_cassert keeps_get keeps_abort keeps_new_inst
  keeps_on_insertPoint keeps_insertPoint_addInstruction keeps_on_function
  keeps_requireCapability : keeps.

Ltac keeps_step :=
  lazymatch goal with
  | |- keeps_members (mbind _ _) => apply keeps_bind; [|intros ?]
  | |- keeps_members (mret _) => apply keeps_ret
  | |- keeps_members (if ?c then _ else _) => destruct c
  | |- keeps_members (let _ := _ in _) => cbv zeta
  | |- _ => solve [auto with keeps]
  end.
Ltac keeps := repeat keeps_step.

Lemma keeps_createCompositeExtract ty c ix loc :
  keeps_members (createCompositeExtract ty c ix loc).
Proof. unfold createCompositeExtract. keeps. Qed.

Lemma keeps_createStore a v loc : keeps_members (createStore a v loc).
Proof. unfold createStore. keeps. Qed.

Lemma keeps_composeImageOperandsMask bias lod grad co vo cos sa ml :
  keeps_members (composeImageOperandsMask bias lod grad co vo cos sa ml).
Proof. unfold composeImageOperandsMask. keeps. Qed.

#[local] Hint Resolve keeps_createCompositeExtract keeps_createStore
  keeps_composeImageOperandsMask : keeps.

(** Every call but the four that write them leaves the active function, the
    cursor and the pending list alone. *)
Lemma exec_keeps_members `{TypeTranslator} c :
  changesMembers c = false → keeps_members (exec c).
Proof.
  intros Hc.
  destruct c; try discriminate Hc; unfold exec, returning, void;
    [ unfold addFnParam | unfold addFnVar
    | unfold addSuccessor | unfold setMergeTarget | unfold setContinueTarget
    | unfold createCompositeConstruct | unfold createCompositeExtract
    | unfold createCompositeInsert | unfold createVectorShuffle
    | unfold createLoad | unfold createStore | unfold createFunctionCall
    | unfold createAccessChain | unfold createUnaryOp | unfold createBinaryOp
    | unfold createSpecConstantBinaryOp | unfold createGroupNonUniformElect
    | unfold createGroupNonUniformUnaryOp | unfold createGroupNonUniformBinaryOp
    | unfold createAtomicOp | unfold createAtomicCompareExchange
    | unfold createImageTexelPointer | unfold createImageSample
    | unfold createImageFetchOrRead | unfold createImageWrite
    | unfold createImageGather | unfold createImageSparseTexelsResident
    | unfold createSelect | unfold createSwitch | unfold createKill
    | unfold createBranch | unfold createConditionalBranch
    | unfold createReturn | unfold createReturnValue | unfold createExtInst
    | unfold createBarrier | unfold createBitFieldInsert
    | unfold createBitFieldExtract
    | unfold createEmitVertex | unfold createEndPrimitive ];
    keeps.
Qed.

Lemma returning_done m s r s' :
  returning m s = Done r s' → ∃ p, m s = Done p s'.
Proof.
  unfold returning. rewrite bind_run. destruct (m s) as [p s1|]; [|discriminate].
  intros Heq. exists p. cbv [mret Build_ret] in Heq. by simplify_eq.
Qed.

Lemma void_done m s r s' : void m s = Done r s' → m s = Done tt s'.
Proof.
  unfold void. rewrite bind_run. destruct (m s) as [[] s1|]; [|discriminate].
  intros Heq. cbv [mret Build_ret] in Heq. by simplify_eq.
Qed.

Lemma beginFunction_idle returnType loc funcName s :
  function s = None →
  beginFunction returnType loc funcName s
  = Done (Some (length (funcs (context s))))
      (with_function (Some (length (funcs (context s))))
         (with_context
            (with_funcs
               (λ l, l ++ [mkFunction returnType 0 spv.FunctionControlMaskNone
                             loc funcName [] [] []])) s)).
Proof.
  intros Hf. unfold beginFunction.
  rewrite bind_run, cassert_true by (unfold has_function; by rewrite Hf).
  reflexivity.
Qed.

Lemma beginFunction_open returnType loc funcName s :
  function s ≠ None →
  beginFunction returnType loc funcName s = Fatal "found nested function" s.
Proof.
  intros Hf. unfold beginFunction.
  rewrite bind_run, cassert_false; [reflexivity|].
  unfold has_function. by destruct (function s).
Qed.

Lemma beginFunction_done returnType loc funcName s r s' :
  beginFunction returnType loc funcName s = Done r s' →
  function s = None ∧ function s' ≠ None
  ∧ basicBlocks s' = basicBlocks s ∧ insertPoint s' = insertPoint s.
Proof.
  destruct (function s) as [f|] eqn:Hf.
  - rewrite beginFunction_open by (by rewrite Hf). discriminate.
  - rewrite (beginFunction_idle _ _ _ _ Hf). intros Heq. by simplify_eq.
Qed.

Lemma endFunction_done s r s' :
  endFunction s = Done r s' →
  function s' = None ∧ basicBlocks s' = [] ∧ insertPoint s' = None.
Proof.
  unfold endFunction. rewrite bind_run.
  destruct (cassert has_function "no active function" s) as [[] s0|];
    [|discriminate].
  rewrite bind_run. unfold get. rewrite bind_run.
  destruct (addBasicBlocks (basicBlocks s0) s0) as [[] s1|]; [|discriminate].
  rewrite bind_run. unfold modify. rewrite bind_run, bind_run.
  destruct (function (with_basicBlocks [] s1)); [|discriminate].
  intros Heq. cbv [mbind Build_bind] in Heq. by simplify_eq.
Qed.

Lemma createBasicBlock_done name s r s' :
  createBasicBlock name s = Done r s' →
  function s ≠ None ∧ function s' = function s.
Proof.
  unfold createBasicBlock. rewrite bind_run. unfold cassert, has_function.
  destruct (function s) as [f|] eqn:Hf; [|discriminate]. simpl.
  intros Heq. cbv [mbind Build_bind new_block modify mret Build_ret] in Heq.
  simplify_eq. split; [done | exact Hf].
Qed.

(** Whenever no function is open, nothing is pending and the cursor is
    unset. *)
Lemma reachable_idle `{TypeTranslator} s :
  reachable s → Idle s → basicBlocks s = [] ∧ insertPoint s = None.
Proof.
  unfold Idle. induction 1 as [ac ctx | s c r s' Hreach IH Hcontract Hexec].
  - done.
  - intros Hidle. destruct (changesMembers c) eqn:Hc.
    + destruct c; try discriminate Hc; unfold exec in Hexec.
      * apply returning_done in Hexec as [p Hp].
        apply beginFunction_done in Hp as (_ & Hopen & _). done.
      * apply void_done, endFunction_done in Hexec as (_ & ? & ?). done.
      * apply returning_done in Hexec as [p Hp].
        apply createBasicBlock_done in Hp as (Hopen & Hsame). congruence.
      * apply void_done in Hexec. unfold setInsertPoint, modify in Hexec.
        simplify_eq. simpl in *. destruct bb as [b|].
        -- destruct Hcontract as [Hopen _]. done.
        -- split; [by apply IH | done].
    + destruct (exec_keeps_members c Hc _ _ _ Hexec) as (Hf & Hi & Hb & _).
      rewrite Hi, Hb. apply IH. by rewrite <- Hf.
Qed.

(** * Liveness of the builder's pointers *)

Lemma createBasicBlock_open name s :
  function s ≠ None →
  createBasicBlock name s
  = Done (Some (length (blocks (context s))))
      (with_basicBlocks (basicBlocks s ++ [length (blocks (context s))])
         (with_context (with_blocks (λ l, l ++ [mkBasicBlock 0 name [] [] None None])) s)).
Proof.
  intros Hf. unfold createBasicBlock.
  rewrite bind_run, cassert_true; [reflexivity|].
  unfold has_function. by destruct (function s).
Qed.

(** In every reachable state the active function and the pending blocks are
    live objects of the arena and the cursor, when set, is on a pending
    block: the model's dangling-pointer outcomes are never met. *)
Lemma reachable_live `{TypeTranslator} s : reachable s → pointers_live s.
Proof.
  induction 1 as [ac ctx | s c r s' Hreach IH Hcontract Hexec].
  - split; simpl; intros ?; [done | | done]. by intros ?%elem_of_nil.
  - destruct IH as [Lf Lp Lc]. destruct (changesMembers c) eqn:Hc.
    + destruct c; try discriminate Hc; unfold exec in Hexec.
      * apply returning_done in Hexec as [p Hp].
        pose proof (beginFunction_done _ _ _ _ _ _ Hp) as (Hidle & _).
        rewrite (beginFunction_idle _ _ _ _ Hidle) in Hp. simplify_eq.
        split; simpl; [|exact Lp|exact Lc].
        intros f [= <-]. rewrite length_app. simpl. lia.
      * apply void_done, endFunction_done in Hexec as (Hf & Hb & Hi).
        split; [rewrite Hf | rewrite Hb | rewrite Hi]; intros ?; try done.
        by intros ?%elem_of_nil.
      * apply returning_done in Hexec as [p Hp].
        pose proof (createBasicBlock_done _ _ _ _ Hp) as (Hopen & _).
        rewrite (createBasicBlock_open _ _ Hopen) in Hp. simplify_eq.
        split; simpl.
        -- exact Lf.
        -- intros b [Hb | ->%list_elem_of_singleton]%elem_of_app;
             rewrite length_app; simpl; [apply Lp in Hb|]; lia.
        -- intros b Hb. apply elem_of_app. left. by apply Lc.
      * apply void_done in Hexec. unfold setInsertPoint, modify in Hexec.
        simplify_eq. split; simpl; [exact Lf | exact Lp |].
        intros b ->. simpl in Hcontract. by destruct Hcontract.
    + destruct (exec_keeps_members c Hc _ _ _ Hexec) as (Hf & Hi & Hb & Hl & Hg).
      split; [rewrite Hf, Hg | rewrite Hb, Hl | rewrite Hi, Hb]; assumption.
Qed.

(** In a reachable state a set cursor is positioned. *)
Lemma reachable_positioned `{TypeTranslator} s b :
  reachable s → insertPoint s = Some b → positioned s b.
Proof.
  intros [Lf Lp Lc]%reachable_live Hip. split; [exact Hip|]. by apply Lp, Lc.
Qed.

(** * Emission with a cursor *)

Ltac unfold_simple_create :=
  first
    [ progress unfold createCompositeConstruct
    | progress unfold createCompositeExtract
    | progress unfold createCompositeInsert
    | progress unfold createVectorShuffle
    | progress unfold createLoad
    | progress unfold createStore
    | progress unfold createFunctionCall
    | progress unfold createAccessChain
    | progress unfold createSpecConstantBinaryOp
    | progress unfold createGroupNonUniformElect
    | progress unfold createGroupNonUniformUnaryOp
    | progress unfold createGroupNonUniformBinaryOp
    | progress unfold createAtomicOp
    | progress unfold createAtomicCompareExchange
    | progress unfold createImageTexelPointer
    | progress unfold createSelect
    | progress unfold createKill
    | progress unfold createReturn
    | progress unfold createReturnValue
    | progress unfold createExtInst
    | progress unfold createBarrier
    | progress unfold createBitFieldInsert
    | progress unfold createBitFieldExtract ].

(** Every instruction-emitting call made with the cursor positioned (and,
    for [createImageSample], not both Lod and MinLod) completes, and the
    state it yields is the state it was called in with at least one node
    appended to the cursor block and possibly some capabilities required. *)
Lemma exec_emits `{TypeTranslator} c s b :
  emitsInstruction c = true → lodContract c → positioned s b →
  ∃ r caps ns, exec c s = Done r (requiring caps (emitted b ns s)) ∧ ns ≠ [].
Proof.
  intros Hemit Hlod Hpos.
  pose proof (positioned_has_insertPoint _ _ Hpos) as Hcur.
  destruct c; try discriminate Hemit; unfold exec, returning, void;
    rewrite bind_run;
    try (unfold_simple_create;
         rewrite bind_run, (cassert_true _ _ _ Hcur);
         first [ rewrite (emit_run _ _ _ b Hpos)
               | rewrite (emit_last_run _ _ b Hpos) ];
         eexists _, [], _; rewrite requiring_nil;
         split; [reflexivity | done]).
  - rewrite (createUnaryOp_run _ _ _ _ _ b Hpos).
    eexists _, _, _. split; [reflexivity | done].
  - rewrite (createBinaryOp_run _ _ _ _ _ _ b Hpos).
    eexists _, _, _. split; [reflexivity | done].
  - rewrite (createImageSample_run _ _ _ _ _ _ _ _ _ _ _ _ _ _ _ _ _ _ b Hpos Hlod).
    eexists _, _, _. split; [reflexivity | done].
  - rewrite (createImageFetchOrRead_run _ _ _ _ _ _ _ _ _ _ _ _ _ b Hpos).
    eexists _, _, _. split; [reflexivity | done].
  - unfold createImageWrite.
    rewrite bind_run, (cassert_true _ _ _ Hcur), bind_run, requireCapability_run.
    rewrite (emit_last_run _ _ b (positioned_requiring _ _ _ Hpos)).
    eexists _, _, _. split; [reflexivity | done].
  - rewrite (createImageGather_run _ _ _ _ _ _ _ _ _ _ _ _ _ _ _ b Hpos).
    eexists _, _, _. split; [reflexivity | done].
  - unfold createImageSparseTexelsResident.
    rewrite bind_run, (cassert_true _ _ _ Hcur), bind_run. unfold get.
    rewrite (emit_run _ _ _ b Hpos).
    eexists _, [], _. rewrite requiring_nil. split; [reflexivity | done].
  - unfold createSwitch.
    rewrite bind_run, (cassert_true _ _ _ Hcur).
    rewrite (emit_run _ _ _ b Hpos).
    rewrite (emit_last_run _ _ b (positioned_emitted _ _ _ Hpos)).
    rewrite emitted_app.
    eexists _, [], _. rewrite requiring_nil. split; [reflexivity | done].
  - rewrite (createBranch_run _ _ _ _ _ _ b Hpos).
    eexists _, [], _. rewrite requiring_nil.
    split; [reflexivity | by destruct (nonnull mergeBB && nonnull continueBB)].
  - rewrite (createConditionalBranch_run _ _ _ _ _ _ _ _ _ b Hpos).
    eexists _, [], _. rewrite requiring_nil.
    split; [reflexivity | by destruct (nonnull mergeLabel), (nonnull continueLabel)].
Qed.

(** * Calls that emit nothing *)

Create HintDb quiet.

Lemma quiet_ret {A} (a : A) : keeps_instructions (mret a).
Proof. intros s a' s' b Heq. cbv [mret Build_ret] in Heq. by simplify_eq. Qed.

Lemma quiet_bind {A B} (m : Build A) (k : A → Build B) :
  keeps_instructions m → (∀ a, keeps_instructions (k a)) →
  keeps_instructions (m ≫= k).
Proof.
  intros Hm Hk s r s' b Heq. rewrite bind_run in Heq.
  destruct (m s) as [a s1|] eqn:Hms; [|discriminate].
  rewrite (Hk a _ _ _ b Heq). apply (Hm _ _ _ b Hms).
Qed.

Lemma quiet_cassert cond msg : keeps_instructions (cassert cond msg).
Proof.
  intros s a s' b Heq. unfold cassert in Heq.
  destruct (cond s); [|discriminate]. by simplify_eq.
Qed.

Lemma quiet_get : keeps_instructions get.
Proof. intros s a s' b Heq. unfold get in Heq. by simplify_eq. Qed.

Lemma quiet_abort {A} msg : keeps_instructions (abort (A := A) msg).
Proof. intros s a s' b Heq. discriminate. Qed.

Lemma quiet_modify f :
  (∀ s, blocks (context (f s)) = blocks (context s)) →
  keeps_instructions (modify f).
Proof.
  intros Hf s a s' b Heq. unfold modify in Heq. simplify_eq.
  unfold block_insts. by rewrite Hf.
Qed.

Lemma quiet_new_inst n : keeps_instructions (new_inst n).
Proof. intros s a s' b Heq. unfold new_inst in Heq. by simplify_eq. Qed.

Lemma quiet_new_function f : keeps_instructions (new_function f).
Proof. intros s a s' b Heq. unfold new_function in Heq. by simplify_eq. Qed.

Lemma quiet_new_block name : 
  keeps_instructions (new_block (mkBasicBlock 0 name [] [] None None)).
Proof.
  intros s a s' b Heq. unfold new_block in Heq. simplify_eq.
  unfold block_insts. simpl.
  destruct (decide (b < length (blocks (context s)))) as [Hlt|Hge].
  - by rewrite lookup_app_l.
  - rewrite lookup_app_r by lia. rewrite (lookup_ge_None_2 (blocks (context s))) by lia.
    by destruct (b - length (blocks (context s))) as [|[|?]].
Qed.

Lemma quiet_on_function f : keeps_instructions (on_function f).
Proof.
  intros s a s' b Heq. unfold on_function in Heq.
  destruct (function s) as [fn|]; [|discriminate].
  destruct (funcs (context s) !! fn); [|discriminate]. by simplify_eq.
Qed.

Lemma quiet_on_insertPoint f :
  (∀ bb, instructions (f bb) = instructions bb) →
  keeps_instructions (on_insertPoint f).
Proof.
  intros Hf s a s' b Heq. unfold on_insertPoint in Heq.
  destruct (insertPoint s) as [c|]; [|discriminate].
  destruct (blocks (context s) !! c); [|discriminate]. simplify_eq.
  unfold block_insts. simpl. rewrite list_lookup_alter.
  destruct (decide (c = b)) as [->|]; [|done].
  destruct (blocks (context s) !! b); simpl; [apply Hf | done].
Qed.

Lemma quiet_addBasicBlocks bbs : keeps_instructions (addBasicBlocks bbs).
Proof.
  induction bbs as [|bb bbs IH]; cbn [addBasicBlocks].
  - apply quiet_ret.
  - apply quiet_bind; [apply quiet_on_function | intros _; apply IH].
Qed.

#[local] Hint Resolve quiet_cassert quiet_get quiet_abort quiet_new_inst
  quiet_new_function quiet_new_block quiet_on_function quiet_addBasicBlocks
  : quiet.

Ltac quiet_step :=
  lazymatch goal with
  | |- keeps_instructions (mbind _ _) => apply quiet_bind; [|intros ?]
  | |- keeps_instructions (mret _) => apply quiet_ret
  | |- keeps_instructions (modify _) => apply quiet_modify; intros ?; reflexivity
  | |- keeps_instructions (on_insertPoint _) =>
      apply quiet_on_insertPoint; intros ?; reflexivity
  | |- keeps_instructions (match ?x with _ => _ end) => destruct x
  | |- _ => solve [auto with quiet]
  end.
Ltac quiet := repeat quiet_step.

(** The calls classified as not instruction-emitting leave the instruction
    sequence of every block untouched whenever they complete. *)
Lemma exec_quiet `{TypeTranslator} c :
  emitsInstruction c = false → keeps_instructions (exec c).
Proof.
  intros Hc.
  destruct c; try discriminate Hc; unfold exec, returning, void;
    [ unfold beginFunction | unfold addFnParam | unfold addFnVar
    | unfold endFunction | unfold createBasicBlock | unfold setInsertPoint
    | unfold addSuccessor | unfold setMergeTarget | unfold setContinueTarget
    | unfold createEmitVertex | unfold createEndPrimitive ];
    quiet.
Qed.

(** * The concrete builders are reachable *)

Lemma closedBuilder_reachable : reachable (H := demoTranslator) closedBuilder.
Proof.
  pose (s1 := stateOf (beginFunction 1%N 0%N "main" idleBuilder)).
  assert (reachable (H := demoTranslator) s1) as H1.
  { apply (reachable_call idleBuilder (BeginFunction 1%N 0%N "main")
             (RetPtr (Some 0)) s1); [apply reachable_new | exact I | reflexivity]. }
  assert (reachable (H := demoTranslator) openBuilder) as H2.
  { apply (reachable_call s1 (CreateBasicBlock "entry") (RetPtr (Some 0))
             openBuilder); [exact H1 | exact I | reflexivity]. }
  assert (reachable (H := demoTranslator) cursorBuilder) as H3.
  { apply (reachable_call openBuilder (SetInsertPoint (Some 0)) RetVoid
             cursorBuilder); [exact H2 | | reflexivity].
    split; [done | by apply list_elem_of_singleton]. }
  apply (reachable_call cursorBuilder EndFunction RetVoid closedBuilder);
    [exact H3 | exact I | reflexivity].
Qed.

(** The cursor contract is what keeps the cursor unset while Idle: nothing
    in [setInsertPoint] itself refuses a block of a function already closed. *)
Lemma cursor_contract_needed :
  ∃ s', exec (H := demoTranslator) (SetInsertPoint (Some 0)) closedBuilder
        = Done RetVoid s'
        ∧ Idle s' ∧ insertPoint s' = Some 0
        ∧ ¬ cursorContract (SetInsertPoint (Some 0)) closedBuilder.
Proof.
  eexists. split; [reflexivity|]. split; [reflexivity|]. split; [reflexivity|].
  intros [Hopen _]. by apply Hopen.
Qed.

(** * Idle states, with the assertions alone *)

Lemma reachable_by_mono `{TypeTranslator} (P Q : BuilderCall → SpirvBuilder → Prop) s :
  (∀ c s0, P c s0 → Q c s0) → reachable_by P s → reachable_by Q s.
Proof.
  intros HPQ. induction 1 as [ac ctx | s c r s' _ IH HP Hexec].
  - apply reachable_by_new.
  - by apply (reachable_by_call Q s c r s'); [| apply HPQ |].
Qed.

Lemma reachable_reachable_by `{TypeTranslator} s :
  reachable s → reachable_by cursorContract s.
Proof.
  induction 1 as [ac ctx | s c r s' _ IH HP Hexec].
  - apply reachable_by_new.
  - by apply (reachable_by_call cursorContract s c r s').
Qed.

Lemma cursorContract_unpositioned c s :
  cursorContract c s → ¬ positionsWhileIdle c s.
Proof.
  destruct c; try (intros _ []). destruct bb as [b|]; [|intros _ []].
  intros [Hopen _] Hidle. by apply Hopen.
Qed.

(** Whatever the caller does with the cursor, nothing is pending while no
    function is open. *)
Lemma reachable_by_pending `{TypeTranslator} P s :
  reachable_by P s → Idle s → basicBlocks s = [].
Proof.
  unfold Idle. induction 1 as [ac ctx | s c r s' _ IH _ Hexec].
  - done.
  - intros Hidle. destruct (changesMembers c) eqn:Hc.
    + destruct c; try discriminate Hc; unfold exec in Hexec.
      * apply returning_done in Hexec as [p Hp].
        apply beginFunction_done in Hp as (_ & Hopen & _). done.
      * by apply void_done, endFunction_done in Hexec as (_ & ? & _).
      * apply returning_done in Hexec as [p Hp].
        apply createBasicBlock_done in Hp as (Hopen & Hsame). congruence.
      * apply void_done in Hexec. unfold setInsertPoint, modify in Hexec.
        simplify_eq. by apply IH.
    + destruct (exec_keeps_members c Hc _ _ _ Hexec) as (Hf & _ & Hb & _).
      rewrite Hb. apply IH. by rewrite <- Hf.
Qed.

(** When the cursor is never positioned while Idle, it is unset while
    Idle. *)
Lemma unpositioned_cursor `{TypeTranslator} s :
  unpositioned s → Idle s → insertPoint s = None.
Proof.
  unfold unpositioned, Idle.
  induction 1 as [ac ctx | s c r s' _ IH Hnot Hexec].
  - done.
  - intros Hidle. destruct (changesMembers c) eqn:Hc.
    + destruct c; try discriminate Hc; unfold exec in Hexec.
      * apply returning_done in Hexec as [p Hp].
        apply beginFunction_done in Hp as (_ & Hopen & _). done.
      * by apply void_done, endFunction_done in Hexec as (_ & _ & ?).
      * apply returning_done in Hexec as [p Hp].
        apply createBasicBlock_done in Hp as (Hopen & Hsame). congruence.
      * apply void_done in Hexec. unfold setInsertPoint, modify in Hexec.
        simplify_eq. simpl in *. destruct bb as [b|]; [|done].
        by destruct Hnot.
    + destruct (exec_keeps_members c Hc _ _ _ Hexec) as (Hf & Hi & _).
      rewrite Hi. apply IH. by rewrite <- Hf.
Qed.

(** The active function is a live object of the arena, whatever the caller
    does with the cursor. *)
Lemma reachable_by_function_live `{TypeTranslator} P s f :
  reachable_by P s → function s = Some f → f < length (funcs (context s)).
Proof.
  intros Hreach. revert f.
  induction Hreach as [ac ctx | s c r s' _ IH _ Hexec]; intros f; [done|].
  destruct (changesMembers c) eqn:Hc.
  - destruct c; try discriminate Hc; unfold exec in Hexec.
    + apply returning_done in Hexec as [p Hp].
      pose proof (beginFunction_done _ _ _ _ _ _ Hp) as (Hidle & _).
      rewrite (beginFunction_idle _ _ _ _ Hidle) in Hp. simplify_eq. simpl.
      intros [= <-]. rewrite length_app. simpl. lia.
    + apply void_done, endFunction_done in Hexec as (Hf & _). by rewrite Hf.
    + apply returning_done in Hexec as [p Hp].
      pose proof (createBasicBlock_done _ _ _ _ Hp) as (Hopen & _).
      rewrite (createBasicBlock_open _ _ Hopen) in Hp. simplify_eq. simpl.
      apply IH.
    + apply void_done in Hexec. unfold setInsertPoint, modify in Hexec.
      simplify_eq. simpl. apply IH.
  - destruct (exec_keeps_members c Hc _ _ _ Hexec) as (Hf & _ & _ & _ & Hg).
    rewrite Hf, Hg. apply IH.
Qed.

Lemma closedBuilder_unpositioned : unpositioned (H := demoTranslator) closedBuilder.
Proof.
  apply (reachable_by_mono cursorContract); [apply cursorContract_unpositioned|].
  apply reachable_reachable_by, closedBuilder_reachable.
Qed.

Lemma closedBuilder_asserted : asserted (H := demoTranslator) closedBuilder.
Proof.
  apply (reachable_by_mono cursorContract); [done|].
  apply reachable_reachable_by, closedBuilder_reachable.
Qed.

(** The sequence beginFunction, createBasicBlock, setInsertPoint,
    endFunction, setInsertPoint: every call completes, and the builder ends
    Idle with nothing pending and the cursor set, on a block of the function
    already closed; a following [beginFunction] completes and opens a
    function with that cursor still set. *)
Lemma idle_with_cursor_set :
  asserted (H := demoTranslator) strayBuilder
  ∧ Idle strayBuilder
  ∧ basicBlocks strayBuilder = []
  ∧ insertPoint strayBuilder = Some 0
  ∧ ∃ s', beginFunction 2%N 0%N "second" strayBuilder = Done (Some 1) s'
          ∧ FunctionOpen s'
          ∧ basicBlocks s' = []
          ∧ insertPoint s' = Some 0.
Proof.
  split.
  { apply (reachable_by_call _ closedBuilder (SetInsertPoint (Some 0)) RetVoid
             strayBuilder); [apply closedBuilder_asserted | exact I | reflexivity]. }
  split; [reflexivity|]. split; [reflexivity|]. split; [reflexivity|].
  eexists. split; [reflexivity|]. by repeat split.
Qed.

(** C10. In every state reached from a freshly constructed builder by calls
    none of whose assertions fail: if no function is open, nothing is
    pending; and if, besides, the cursor was never positioned on a block
    while no function was open (which no assertion checks), the cursor is
    unset whenever no function is open.  A completed [endFunction] always
    leaves the builder Idle with nothing pending and the cursor unset, and
    it completes whenever a function is open.  [beginFunction] writes
    neither the pending list nor the cursor: called while Idle it completes
    and yields an open function with an empty pending list and the cursor as
    it was, hence unset when the cursor was never positioned while Idle;
    called with a function open it dies on "found nested function". *)
Theorem idle_pending_and_cursor `{TypeTranslator} s returnType loc funcName :
  asserted s →
  (Idle s → basicBlocks s = [])
  ∧ (unpositioned s → Idle s → insertPoint s = None)
  ∧ (∀ s1, endFunction s = Done tt s1 →
       Idle s1 ∧ basicBlocks s1 = [] ∧ insertPoint s1 = None)
  ∧ (FunctionOpen s → ∃ s1, endFunction s = Done tt s1)
  ∧ (Idle s →
     ∃ f s', beginFunction returnType loc funcName s = Done (Some f) s'
             ∧ FunctionOpen s'
             ∧ basicBlocks s' = []
             ∧ basicBlocks s' = basicBlocks s
             ∧ insertPoint s' = insertPoint s)
  ∧ (unpositioned s → Idle s →
     ∃ f s', beginFunction returnType loc funcName s = Done (Some f) s'
             ∧ FunctionOpen s'
             ∧ basicBlocks s' = []
             ∧ insertPoint s' = None)
  ∧ (FunctionOpen s →
     beginFunction returnType loc funcName s = Fatal "found nested function" s).
Proof.
  intros Hreach.
  pose proof (reachable_by_pending _ s Hreach) as Hpend.
  split; [exact Hpend|].
  split; [apply unpositioned_cursor|].
  split.
  { intros s1 Hend. by apply endFunction_done in Hend. }
  split.
  { intros Hopen. destruct (function s) as [f|] eqn:Hf; [|done].
    eexists. apply (endFunction_run s f Hf).
    by apply (reachable_by_function_live _ s f Hreach). }
  split.
  { intros Hidle. do 2 eexists. split; [by apply beginFunction_idle|].
    split; [done|]. split; [by apply Hpend|]. by split. }
  split.
  { intros Hun Hidle. do 2 eexists. split; [by apply beginFunction_idle|].
    split; [done|]. split; [by apply Hpend|]. simpl.
    by apply unpositioned_cursor. }
  apply beginFunction_open.
Qed.

Lemma idle_pending_and_cursor_witness :
  (basicBlocks closedBuilder = []
   ∧ insertPoint closedBuilder = None
   ∧ ∃ f s', beginFunction 2%N 0%N "second" closedBuilder = Done (Some f) s'
             ∧ FunctionOpen s'
             ∧ basicBlocks s' = []
             ∧ insertPoint s' = None)
  ∧ (Idle closedBuilder → basicBlocks closedBuilder = [])
  ∧ (unpositioned (H := demoTranslator) closedBuilder → Idle closedBuilder →
     insertPoint closedBuilder = None)
  ∧ (∀ s1, endFunction closedBuilder = Done tt s1 →
       Idle s1 ∧ basicBlocks s1 = [] ∧ insertPoint s1 = None)
  ∧ (FunctionOpen closedBuilder → ∃ s1, endFunction closedBuilder = Done tt s1)
  ∧ (Idle closedBuilder →
     ∃ f s', beginFunction 2%N 0%N "second" closedBuilder = Done (Some f) s'
             ∧ FunctionOpen s'
             ∧ basicBlocks s' = []
             ∧ basicBlocks s' = basicBlocks closedBuilder
             ∧ insertPoint s' = insertPoint closedBuilder)
  ∧ (unpositioned (H := demoTranslator) closedBuilder → Idle closedBuilder →
     ∃ f s', beginFunction 2%N 0%N "second" closedBuilder = Done (Some f) s'
             ∧ FunctionOpen s'
             ∧ basicBlocks s' = []
             ∧ insertPoint s' = None)
  ∧ (FunctionOpen closedBuilder →
     beginFunction 2%N 0%N "second" closedBuilder
     = Fatal "found nested function" closedBuilder).
Proof.
  pose (thm := idle_pending_and_cursor (H := demoTranslator) closedBuilder 2%N
                 0%N "second" closedBuilder_asserted).
  split; [|exact thm].
  destruct thm as (Hp & Hc & _ & _ & _ & Hb & _).
  split; [exact (Hp eq_refl)|].
  split; [exact (Hc closedBuilder_unpositioned eq_refl)|].
  exact (Hb closedBuilder_unpositioned eq_refl).
Defined.


(** * Further properties of the builder *)

(** ** Switches *)

(** X4. [createSwitch] with the cursor positioned appends exactly a
    selection-merge marker and then the switch, whatever the merge label is:
    the marker is emitted also for a null merge label (there is no marker-free
    form, unlike [createConditionalBranch]), its selection control is always
    [MaskNone], and the (literal, target) pairs are stored in the order
    given. *)
Theorem createSwitch_always_marks mergeLabel selector defaultLabel target loc s b :
  positioned s b →
  ∃ s' ns,
    createSwitch mergeLabel selector defaultLabel target loc s = Done tt s'
    ∧ emits_exactly s s' b ns
    ∧ ns = [SpirvSelectionMerge loc mergeLabel spv.SelectionControlMaskNone;
            SpirvSwitch loc selector defaultLabel target]
    ∧ count isSelectionMerge ns = 1
    ∧ count isLoopMerge ns = 0
    ∧ capabilities (module s') = capabilities (module s).
Proof.
  intros Hpos. do 2 eexists. split.
  { unfold createSwitch.
    rewrite bind_run, (cassert_true _ _ _ (positioned_has_insertPoint _ _ Hpos)).
    rewrite (emit_run _ _ _ b Hpos).
    rewrite (emit_last_run _ _ b (positioned_emitted _ _ _ Hpos)).
    by rewrite emitted_app. }
  split; [apply emits_exactly_emitted_only|].
  repeat split.
Qed.

Lemma createSwitch_always_marks_witness :
  ∃ s' ns,
    createSwitch None (Some 3) (Some 0) [(1%N, Some 0); (2%N, None)] 5%N
      cursorBuilder = Done tt s'
    ∧ emits_exactly cursorBuilder s' 0 ns
    ∧ ns = [SpirvSelectionMerge 5%N None spv.SelectionControlMaskNone;
            SpirvSwitch 5%N (Some 3) (Some 0) [(1%N, Some 0); (2%N, None)]]
    ∧ count isSelectionMerge ns = 1
    ∧ count isLoopMerge ns = 0
    ∧ capabilities (module s') = capabilities (module cursorBuilder).
Proof.
  exact (createSwitch_always_marks None (Some 3) (Some 0)
           [(1%N, Some 0); (2%N, None)] 5%N cursorBuilder 0
           cursorBuilder_positioned).
Defined.

(** ** Fetch, read, gather and write *)

Lemma maskOfFlags_bits f :
  N.testbit (maskOfFlags f) 0 = hasBias f
  ∧ N.testbit (maskOfFlags f) 1 = hasLod f
  ∧ N.testbit (maskOfFlags f) 2 = hasGrad f
  ∧ N.testbit (maskOfFlags f) 3 = hasConstOffset f
  ∧ N.testbit (maskOfFlags f) 4 = hasOffset f
  ∧ N.testbit (maskOfFlags f) 5 = hasConstOffsets f
  ∧ N.testbit (maskOfFlags f) 6 = hasSample f
  ∧ N.testbit (maskOfFlags f) 7 = hasMinLod f.
Proof.
  repeat split;
    [ exact (testbit_bits (flagBits f) 0) | exact (testbit_bits (flagBits f) 1)
    | exact (testbit_bits (flagBits f) 2) | exact (testbit_bits (flagBits f) 3)
    | exact (testbit_bits (flagBits f) 4) | exact (testbit_bits (flagBits f) 5)
    | exact (testbit_bits (flagBits f) 6) | exact (testbit_bits (flagBits f) 7) ].
Qed.

Lemma list_to_set_if (c : bool) (x : N) :
  list_to_set (C := gset N) (if c then [x] else []) = if c then {[x]} else ∅.
Proof. destruct c; simpl; [apply (right_id_L ∅ (∪)) | reflexivity]. Qed.

(** X5. [createImageFetchOrRead] with the cursor positioned emits its image
    instruction first, with the opcode of the four-entry table (fetch or
    read, sparse or not).  Its operand mask never has the Bias, Grad or
    MinLod bit.  The capability set gains exactly: extended image gather for
    a variable offset or a constant-offsets list, sparse residency for a
    residency-output location, and, for a read only, the storage-image
    capability the type translator resolves for the image type. *)
Theorem createImageFetchOrRead_opcode `{TypeTranslator} (doImageFetch : bool)
    texelType imageType image coordinate lod constOffset varOffset
    constOffsets sample residencyCode loc s b :
  positioned s b →
  ∃ r s' ns inst mask,
    createImageFetchOrRead doImageFetch texelType imageType image coordinate
      lod constOffset varOffset constOffsets sample residencyCode loc s
    = Done r s'
    ∧ emits_exactly s s' b ns
    ∧ ns !! 0 = Some inst
    ∧ count isImageOp ns = 1
    ∧ imageOpcode inst
      = Some (fetchOrReadOpcodeTable doImageFetch (nonnull residencyCode))
    ∧ imageMask inst = Some mask
    ∧ N.testbit mask 0 = false ∧ N.testbit mask 2 = false
    ∧ N.testbit mask 7 = false
    ∧ N.testbit mask 1 = nonnull lod
    ∧ capabilities (module s')
      = (if nonnull varOffset || nonnull constOffsets
         then {[spv.ImageGatherExtended]} else ∅)
        ∪ (if nonnull residencyCode then {[spv.SparseResidency]} else ∅)
        ∪ (if doImageFetch then ∅
           else {[getCapabilityForStorageImageReadWrite imageType]})
        ∪ capabilities (module s).
Proof.
  intros Hpos. do 5 eexists.
  split; [by apply (createImageFetchOrRead_run _ _ _ _ _ _ _ _ _ _ _ _ _ b)|].
  split; [apply emits_exactly_emitted|].
  split; [reflexivity|].
  split; [by destruct residencyCode|].
  split; [by destruct doImageFetch, residencyCode|].
  split; [reflexivity|].
  destruct (maskOfFlags_bits
              (flagsOf None lod (None, None) constOffset varOffset constOffsets
                 sample None)) as (B0 & B1 & B2 & _ & _ & _ & _ & B7).
  split; [exact B0|]. split; [exact B2|]. split; [exact B7|].
  split; [exact B1|].
  rewrite capabilities_requiring, capabilities_emitted.
  rewrite !list_to_set_app_L, !list_to_set_if.
  rewrite list_to_set_maskCapabilities. unfold capsOfFlags. simpl.
  destruct doImageFetch; simpl;
    by rewrite ?(right_id_L ∅ (∪)), ?(left_id_L ∅ (∪)), ?(assoc_L (∪)).
Qed.

Lemma createImageFetchOrRead_opcode_witness :
  ∃ r s' ns inst mask,
    createImageFetchOrRead (H := demoTranslator) false 3%N 4%N (Some 10)
      (Some 12) (Some 13) None None (Some 5) None None 5%N cursorBuilder
    = Done r s'
    ∧ emits_exactly cursorBuilder s' 0 ns
    ∧ ns !! 0 = Some inst
    ∧ count isImageOp ns = 1
    ∧ imageOpcode inst = Some spv.OpImageRead
    ∧ imageMask inst = Some mask
    ∧ N.testbit mask 0 = false ∧ N.testbit mask 2 = false
    ∧ N.testbit mask 7 = false
    ∧ N.testbit mask 1 = true
    ∧ capabilities (module s')
      = {[spv.ImageGatherExtended]} ∪ ∅ ∪ {[49%N]}
        ∪ capabilities (module cursorBuilder).
Proof.
  exact (createImageFetchOrRead_opcode (H := demoTranslator) false 3%N 4%N
           (Some 10) (Some 12) (Some 13) None None (Some 5) None None 5%N
           cursorBuilder 0 cursorBuilder_positioned).
Defined.

(** X6. [createImageGather] with the cursor positioned emits the sampled-image
    combinator and then its image instruction, which samples that
    combinator, carries the component, and has the opcode of the four-entry
    table (depth comparison or not, sparse or not).  Its operand mask never
    has the Bias, Lod, Grad or MinLod bit. *)
Theorem createImageGather_opcode texelType imageType image sampler isNonUniform
    coordinate component compareVal constOffset varOffset constOffsets sample
    residencyCode loc s b :
  positioned s b →
  ∃ r s' ns mask,
    createImageGather texelType imageType image sampler isNonUniform coordinate
      component compareVal constOffset varOffset constOffsets sample
      residencyCode loc s = Done r s'
    ∧ emits_exactly s s' b ns
    ∧ ns !! 0 = Some (SpirvSampledImage imageType 0 loc image sampler)
    ∧ ns !! 1
      = Some (SpirvImageOp
                (gatherOpcodeTable (nonnull compareVal) (nonnull residencyCode))
                texelType 0 loc (Some (length (insts (context s)))) coordinate
                mask compareVal None None None None constOffset varOffset
                constOffsets sample None component None)
    ∧ count isImageOp ns = 1
    ∧ N.testbit mask 0 = false ∧ N.testbit mask 1 = false
    ∧ N.testbit mask 2 = false ∧ N.testbit mask 7 = false
    ∧ capabilities (module s')
      = (if nonnull varOffset || nonnull constOffsets
         then {[spv.ImageGatherExtended]} else ∅)
        ∪ (if nonnull residencyCode then {[spv.SparseResidency]} else ∅)
        ∪ capabilities (module s).
Proof.
  intros Hpos. do 4 eexists.
  split; [by apply (createImageGather_run _ _ _ _ _ _ _ _ _ _ _ _ _ _ _ b)|].
  split; [apply emits_exactly_emitted|].
  split; [reflexivity|].
  split; [simpl; by destruct compareVal, residencyCode|].
  split; [by destruct residencyCode|].
  destruct (maskOfFlags_bits
              (flagsOf None None (None, None) constOffset varOffset
                 constOffsets sample None)) as (B0 & B1 & B2 & _ & _ & _ & _ & B7).
  split; [exact B0|]. split; [exact B1|]. split; [exact B2|].
  split; [exact B7|].
  rewrite capabilities_requiring, capabilities_emitted.
  rewrite !list_to_set_app_L, !list_to_set_if.
  rewrite list_to_set_maskCapabilities. unfold capsOfFlags. simpl.
  rewrite ?(right_id_L ∅ (∪)), ?(left_id_L ∅ (∪)), ?(assoc_L (∪)).
  f_equal. apply (comm_L (∪)).
Qed.

Lemma createImageGather_opcode_witness :
  ∃ r s' ns mask,
    createImageGather 3%N 4%N (Some 10) (Some 11) true (Some 12) (Some 17)
      (Some 13) None (Some 8) None None None 5%N cursorBuilder = Done r s'
    ∧ emits_exactly cursorBuilder s' 0 ns
    ∧ ns !! 0 = Some (SpirvSampledImage 4%N 0 5%N (Some 10) (Some 11))
    ∧ ns !! 1
      = Some (SpirvImageOp spv.OpImageDrefGather 3%N 0 5%N (Some 0) (Some 12)
                mask (Some 13) None None None None None (Some 8) None None None
                (Some 17) None)
    ∧ count isImageOp ns = 1
    ∧ N.testbit mask 0 = false ∧ N.testbit mask 1 = false
    ∧ N.testbit mask 2 = false ∧ N.testbit mask 7 = false
    ∧ capabilities (module s')
      = {[spv.ImageGatherExtended]} ∪ ∅ ∪ capabilities (module cursorBuilder).
Proof.
  exact (createImageGather_opcode 3%N 4%N (Some 10) (Some 11) true (Some 12)
           (Some 17) (Some 13) None (Some 8) None None None 5%N cursorBuilder 0
           cursorBuilder_positioned).
Defined.

(** X7. [createImageWrite] with the cursor positioned appends exactly one
    node: an image-write instruction on the image and coordinate, with an
    empty operand mask, no optional operand, and the texel as the value to
    write; it requires the storage-image capability the type translator
    resolves for the image type, and nothing else. *)
Theorem createImageWrite_emits `{TypeTranslator} imageType image coord texel
    loc s b :
  positioned s b →
  ∃ s',
    createImageWrite imageType image coord texel loc s = Done tt s'
    ∧ emits_exactly s s' b
        [SpirvImageOp spv.OpImageWrite imageType 0 loc image coord 0%N
           None None None None None None None None None None None texel]
    ∧ capabilities (module s')
      = {[getCapabilityForStorageImageReadWrite imageType]}
        ∪ capabilities (module s).
Proof.
  intros Hpos. eexists. split.
  { unfold createImageWrite.
    rewrite bind_run, (cassert_true _ _ _ (positioned_has_insertPoint _ _ Hpos)).
    rewrite bind_run, requireCapability_run.
    by rewrite (emit_last_run _ _ b (positioned_requiring _ _ _ Hpos)). }
  split; [exact (emits_exactly_emitted s b [_] [_])|].
  simpl. by rewrite (right_id_L ∅ (∪)).
Qed.

Lemma createImageWrite_emits_witness :
  ∃ s',
    createImageWrite (H := demoTranslator) 4%N (Some 10) (Some 12) (Some 18) 5%N
      cursorBuilder = Done tt s'
    ∧ emits_exactly cursorBuilder s' 0
        [SpirvImageOp spv.OpImageWrite 4%N 0 5%N (Some 10) (Some 12) 0%N
           None None None None None None None None None None None (Some 18)]
    ∧ capabilities (module s') = {[49%N]} ∪ capabilities (module cursorBuilder).
Proof.
  exact (createImageWrite_emits (H := demoTranslator) 4%N (Some 10) (Some 12)
           (Some 18) 5%N cursorBuilder 0 cursorBuilder_positioned).
Defined.

(** ** The Lod/MinLod assertion *)

(** X11. [createImageSample] called with both a Lod and a MinLod operand,
    the cursor positioned, dies on the Lod/MinLod assertion in the state it
    was called in: no combinator and no image instruction is allocated or
    appended, and no capability is required, not even sparse residency or
    minimum Lod. *)
Theorem createImageSample_lod_and_minLod texelType imageType image sampler
    isNonUniform coordinate compareVal bias lod grad constOffset varOffset
    constOffsets sample minLod residencyCode loc s b :
  positioned s b →
  lod ≠ None → minLod ≠ None →
  createImageSample texelType imageType image sampler isNonUniform coordinate
    compareVal bias lod grad constOffset varOffset constOffsets sample minLod
    residencyCode loc s
  = Fatal lod_minLod_assertion s.
Proof.
  intros Hpos Hlod Hmin. unfold createImageSample.
  rewrite bind_run, (cassert_true _ _ _ (positioned_has_insertPoint _ _ Hpos)).
  rewrite bind_run, cassert_false; [reflexivity|].
  by destruct lod, minLod.
Qed.

Lemma createImageSample_lod_and_minLod_witness :
  createImageSample 3%N 4%N (Some 10) (Some 11) false (Some 12) None None
    (Some 13) (None, None) None None None None (Some 14) (Some 16) 5%N
    cursorBuilder
  = Fatal lod_minLod_assertion cursorBuilder.
Proof.
  refine (createImageSample_lod_and_minLod 3%N 4%N (Some 10) (Some 11) false
            (Some 12) None None (Some 13) (None, None) None None None None
            (Some 14) (Some 16) 5%N cursorBuilder 0 cursorBuilder_positioned
            _ _); discriminate.
Defined.

(** ** Coherence of the image instruction node *)

(** X16. In the image instruction [createImageSample] emits, the opcode and
    the rest of the node agree: the opcode is an explicit-Lod one exactly
    when the mask has the Lod or the Grad bit; it is a depth-comparison one
    exactly when the node carries a depth-comparison operand; it is a sparse
    one exactly when a residency-output location was supplied; and the mask
    never has both the Lod and the MinLod bit. *)
Theorem createImageSample_coherent texelType imageType image sampler
    isNonUniform coordinate compareVal bias lod grad constOffset varOffset
    constOffsets sample minLod residencyCode loc s b :
  positioned s b →
  lod = None ∨ minLod = None →
  ∃ r s' ns inst op mask,
    createImageSample texelType imageType image sampler isNonUniform coordinate
      compareVal bias lod grad constOffset varOffset constOffsets sample minLod
      residencyCode loc s = Done r s'
    ∧ emits_exactly s s' b ns
    ∧ ns !! 1 = Some inst
    ∧ imageOpcode inst = Some op
    ∧ imageMask inst = Some mask
    ∧ isExplicitLodOp op = N.testbit mask 1 || N.testbit mask 2
    ∧ isDrefOp op = nonnull (imageDref inst)
    ∧ isSparseOp op = nonnull residencyCode
    ∧ N.testbit mask 1 && N.testbit mask 7 = false.
Proof.
  intros Hpos Hlod. do 6 eexists.
  split; [by apply (createImageSample_run _ _ _ _ _ _ _ _ _ _ _ _ _ _ _ _ _ _ b)|].
  split; [apply emits_exactly_emitted|].
  split; [reflexivity|]. split; [reflexivity|]. split; [reflexivity|].
  destruct (maskOfFlags_bits
              (flagsOf bias lod grad constOffset varOffset constOffsets sample
                 minLod)) as (_ & B1 & B2 & _ & _ & _ & _ & B7).
  rewrite B1, B2, B7, imageSampleOp_table. simpl.
  split; [|split; [|split]].
  - by destruct compareVal, lod, grad as [[?|] [?|]], residencyCode.
  - by destruct compareVal, lod, grad as [[?|] [?|]], residencyCode.
  - by destruct compareVal, lod, grad as [[?|] [?|]], residencyCode.
  - destruct Hlod as [-> | ->]; [reflexivity | apply andb_false_r].
Qed.

Lemma createImageSample_coherent_witness :
  ∃ r s' ns inst op mask,
    createImageSample 3%N 4%N (Some 10) (Some 11) false (Some 12) (Some 13) None
      None (Some 14, Some 15) None None None None (Some 19) (Some 16) 5%N
      cursorBuilder = Done r s'
    ∧ emits_exactly cursorBuilder s' 0 ns
    ∧ ns !! 1 = Some inst
    ∧ imageOpcode inst = Some op
    ∧ imageMask inst = Some mask
    ∧ isExplicitLodOp op = N.testbit mask 1 || N.testbit mask 2
    ∧ isDrefOp op = nonnull (imageDref inst)
    ∧ isSparseOp op = true
    ∧ N.testbit mask 1 && N.testbit mask 7 = false.
Proof.
  exact (createImageSample_coherent 3%N 4%N (Some 10) (Some 11) false (Some 12)
           (Some 13) None None (Some 14, Some 15) None None None None (Some 19)
           (Some 16) 5%N cursorBuilder 0 cursorBuilder_positioned
           (or_introl eq_refl)).
Defined.

Lemma maskAgrees_sparseUnwrap uintTy texelType img a residencyCode storeLoc :
  Forall maskAgrees (sparseUnwrap uintTy texelType img a residencyCode storeLoc).
Proof. unfold sparseUnwrap. by repeat constructor. Qed.

(** X17. Every node the four image accesses emit agrees with itself: the
    operand mask stored in an image instruction is exactly the mask of the
    optional operands stored in that same instruction (Grad when both
    gradient operands are stored), so the mask never announces an operand
    the node lacks nor hides one it has. *)
Theorem image_nodes_mask_agrees `{TypeTranslator} texelType imageType image
    sampler isNonUniform coordinate compareVal bias lod grad constOffset
    varOffset constOffsets sample minLod component (doImageFetch : bool)
    residencyCode texel loc s b :
  positioned s b →
  lod = None ∨ minLod = None →
  (∃ r s' ns,
     createImageSample texelType imageType image sampler isNonUniform
       coordinate compareVal bias lod grad constOffset varOffset constOffsets
       sample minLod residencyCode loc s = Done r s'
     ∧ emits_exactly s s' b ns ∧ Forall maskAgrees ns)
  ∧ (∃ r s' ns,
       createImageFetchOrRead doImageFetch texelType imageType image
         coordinate lod constOffset varOffset constOffsets sample
         residencyCode loc s = Done r s'
       ∧ emits_exactly s s' b ns ∧ Forall maskAgrees ns)
  ∧ (∃ r s' ns,
       createImageGather texelType imageType image sampler isNonUniform
         coordinate component compareVal constOffset varOffset constOffsets
         sample residencyCode loc s = Done r s'
       ∧ emits_exactly s s' b ns ∧ Forall maskAgrees ns)
  ∧ (∃ s' ns,
       createImageWrite imageType image coordinate texel loc s = Done tt s'
       ∧ emits_exactly s s' b ns ∧ Forall maskAgrees ns).
Proof.
  intros Hpos Hlod. split; [|split; [|split]].
  - do 3 eexists.
    split; [by apply (createImageSample_run _ _ _ _ _ _ _ _ _ _ _ _ _ _ _ _ _ _ b)|].
    split; [apply emits_exactly_emitted|].
    apply Forall_app. split; [by repeat constructor|].
    destruct residencyCode; [apply maskAgrees_sparseUnwrap | constructor].
  - do 3 eexists.
    split; [by apply (createImageFetchOrRead_run _ _ _ _ _ _ _ _ _ _ _ _ _ b)|].
    split; [apply emits_exactly_emitted|].
    apply Forall_app. split; [by repeat constructor|].
    destruct residencyCode; [apply maskAgrees_sparseUnwrap | constructor].
  - do 3 eexists.
    split; [by apply (createImageGather_run _ _ _ _ _ _ _ _ _ _ _ _ _ _ _ b)|].
    split; [apply emits_exactly_emitted|].
    apply Forall_app. split; [by repeat constructor|].
    destruct residencyCode; [apply maskAgrees_sparseUnwrap | constructor].
  - do 2 eexists. split.
    { unfold createImageWrite.
      rewrite bind_run, (cassert_true _ _ _ (positioned_has_insertPoint _ _ Hpos)).
      rewrite bind_run, requireCapability_run.
      by rewrite (emit_last_run _ _ b (positioned_requiring _ _ _ Hpos)). }
    split; [exact (emits_exactly_emitted s b [_] [_])|].
    by repeat constructor.
Qed.

Lemma image_nodes_mask_agrees_witness :
  (∃ r s' ns,
     createImageSample 3%N 4%N (Some 10) (Some 11) false (Some 12) (Some 13)
       (Some 20) None (Some 14, None) None (Some 21) None None (Some 19)
       (Some 16) 5%N cursorBuilder = Done r s'
     ∧ emits_exactly cursorBuilder s' 0 ns ∧ Forall maskAgrees ns)
  ∧ (∃ r s' ns,
       createImageFetchOrRead (H := demoTranslator) true 3%N 4%N (Some 10)
         (Some 12) None None (Some 21) None None (Some 16) 5%N cursorBuilder
       = Done r s'
       ∧ emits_exactly cursorBuilder s' 0 ns ∧ Forall maskAgrees ns)
  ∧ (∃ r s' ns,
       createImageGather 3%N 4%N (Some 10) (Some 11) false (Some 12) (Some 17)
         (Some 13) None (Some 21) None None (Some 16) 5%N cursorBuilder
       = Done r s'
       ∧ emits_exactly cursorBuilder s' 0 ns ∧ Forall maskAgrees ns)
  ∧ (∃ s' ns,
       createImageWrite (H := demoTranslator) 4%N (Some 10) (Some 12) (Some 18)
         5%N cursorBuilder = Done tt s'
       ∧ emits_exactly cursorBuilder s' 0 ns ∧ Forall maskAgrees ns).
Proof.
  exact (image_nodes_mask_agrees (H := demoTranslator) 3%N 4%N (Some 10)
           (Some 11) false (Some 12) (Some 13) (Some 20) None (Some 14, None)
           None (Some 21) None None (Some 19) (Some 17) true (Some 16) (Some 18)
           5%N cursorBuilder 0 cursorBuilder_positioned (or_introl eq_refl)).
Defined.

(** ** Function scope *)

Lemma addFnParam_run ptrType loc name s f :
  function s = Some f → f < length (funcs (context s)) →
  addFnParam ptrType loc name s
  = Done (Some (length (insts (context s))))
      (with_context
         (λ c, mkContext (insts c ++ [SpirvFunctionParameter ptrType 0 loc name])
                 (blocks c)
                 (alter (SpirvFunction_declare [length (insts c)] []) f (funcs c)))
         s).
Proof.
  intros Hf Hlt. unfold addFnParam.
  rewrite bind_run, cassert_true by (unfold has_function; by rewrite Hf).
  rewrite bind_run. unfold new_inst. rewrite bind_run.
  unfold on_function. simpl. rewrite Hf.
  destruct (lookup_lt_is_Some_2 _ _ Hlt) as [fn ->].
  apply Done_eq; [reflexivity|].
  unfold with_context, with_funcs. simpl. do 2 f_equal.
  apply list_alter_ext; [|done]. intros [] _.
  unfold SpirvFunction_addParameter, SpirvFunction_declare. simpl.
  by rewrite app_nil_r.
Qed.

Lemma addFnVar_run valueType loc name init s f :
  function s = Some f → f < length (funcs (context s)) →
  addFnVar valueType loc name init s
  = Done (Some (length (insts (context s))))
      (with_context
         (λ c, mkContext
                 (insts c ++ [SpirvVariable valueType 0 loc
                                spv.StorageClassFunction init name])
                 (blocks c)
                 (alter (SpirvFunction_declare [] [length (insts c)]) f (funcs c)))
         s).
Proof.
  intros Hf Hlt. unfold addFnVar.
  rewrite bind_run, cassert_true by (unfold has_function; by rewrite Hf).
  rewrite bind_run. unfold new_inst. rewrite bind_run.
  unfold on_function. simpl. rewrite Hf.
  destruct (lookup_lt_is_Some_2 _ _ Hlt) as [fn ->].
  apply Done_eq; [reflexivity|].
  unfold with_context, with_funcs. simpl. do 2 f_equal.
  apply list_alter_ext; [|done]. intros [] _.
  unfold SpirvFunction_addVariable, SpirvFunction_declare. simpl.
  by rewrite app_nil_r.
Qed.

(** X12. The three operations that work on the open function,
    [addFnParam], [addFnVar] and [createBasicBlock], need a function but no
    cursor: from Idle each dies on its own assertion ("found detached
    parameter", "found detached local variable", "found detached basic
    block") in the state it was called in; with a function open and the
    cursor unset each completes, and none of them moves the cursor. *)
Theorem function_scope_required ptrType valueType loc name init s0 s f :
  function s0 = None →
  function s = Some f → f < length (funcs (context s)) →
  insertPoint s = None →
  addFnParam ptrType loc name s0 = Fatal "found detached parameter" s0
  ∧ addFnVar valueType loc name init s0
    = Fatal "found detached local variable" s0
  ∧ createBasicBlock name s0 = Fatal "found detached basic block" s0
  ∧ (∃ p s', addFnParam ptrType loc name s = Done (Some p) s'
             ∧ insertPoint s' = None ∧ function s' = Some f)
  ∧ (∃ p s', addFnVar valueType loc name init s = Done (Some p) s'
             ∧ insertPoint s' = None ∧ function s' = Some f)
  ∧ (∃ p s', createBasicBlock name s = Done (Some p) s'
             ∧ insertPoint s' = None ∧ function s' = Some f).
Proof.
  intros Hidle Hf Hlt Hcur.
  assert (has_function s0 = false) as Hno
    by (unfold has_function; by rewrite Hidle).
  split; [unfold addFnParam; by rewrite bind_run, cassert_false|].
  split; [unfold addFnVar; by rewrite bind_run, cassert_false|].
  split; [unfold createBasicBlock; by rewrite bind_run, cassert_false|].
  split; [|split].
  - do 2 eexists. split; [by apply addFnParam_run|]. by split.
  - do 2 eexists. split; [by apply addFnVar_run|]. by split.
  - do 2 eexists.
    split; [apply createBasicBlock_open; by rewrite Hf|]. by split.
Qed.

Lemma function_scope_required_witness :
  addFnParam 3%N 5%N "p" idleBuilder = Fatal "found detached parameter" idleBuilder
  ∧ addFnVar 4%N 5%N "p" None idleBuilder
    = Fatal "found detached local variable" idleBuilder
  ∧ createBasicBlock "p" idleBuilder
    = Fatal "found detached basic block" idleBuilder
  ∧ (∃ p s', addFnParam 3%N 5%N "p" openBuilder = Done (Some p) s'
             ∧ insertPoint s' = None ∧ function s' = Some 0)
  ∧ (∃ p s', addFnVar 4%N 5%N "p" None openBuilder = Done (Some p) s'
             ∧ insertPoint s' = None ∧ function s' = Some 0)
  ∧ (∃ p s', createBasicBlock "p" openBuilder = Done (Some p) s'
             ∧ insertPoint s' = None ∧ function s' = Some 0).
Proof.
  refine (function_scope_required 3%N 4%N 5%N "p" None idleBuilder openBuilder 0
            eq_refl eq_refl _ eq_refl). simpl. lia.
Defined.

(** ** Declarations keep call order *)

Lemma declare_declare ps vs ps' vs' fn :
  SpirvFunction_declare ps' vs' (SpirvFunction_declare ps vs fn)
  = SpirvFunction_declare (ps ++ ps') (vs ++ vs') fn.
Proof. unfold SpirvFunction_declare. simpl. by rewrite !app_assoc. Qed.

Lemma alter_declare_declare ps vs ps' vs' f (l : list SpirvFunction) :
  alter (SpirvFunction_declare ps' vs') f (alter (SpirvFunction_declare ps vs) f l)
  = alter (SpirvFunction_declare (ps ++ ps') (vs ++ vs')) f l.
Proof.
  revert f. induction l as [|fn l IH]; intros [|f]; simpl; try done.
  - by rewrite declare_declare.
  - f_equal. apply IH.
Qed.

Lemma alter_declare_nil f (l : list SpirvFunction) :
  alter (SpirvFunction_declare [] []) f l = l.
Proof.
  revert f. induction l as [|fn l IH]; intros [|f]; simpl; try done.
  - destruct fn. unfold SpirvFunction_declare. simpl. by rewrite !app_nil_r.
  - f_equal. apply IH.
Qed.

Lemma declarations_run `{TypeTranslator} cs : ∀ s f,
  function s = Some f → f < length (funcs (context s)) →
  Forall (λ c, isDeclaration c = true) cs →
  execAll cs s
  = Done ((λ a, RetPtr (Some a)) <$> seq (length (insts (context s))) (length cs))
      (with_context
         (λ c, mkContext (insts c ++ declNodes cs) (blocks c)
                 (alter (SpirvFunction_declare
                           (declarations (length (insts c)) cs).1
                           (declarations (length (insts c)) cs).2) f (funcs c)))
         s).
Proof.
  induction cs as [|c cs IH]; intros s f Hf Hlt Hall.
  - simpl. apply Done_eq; [reflexivity|].
    destruct s as [ac [i bl fs] m fn ip pend]. unfold with_context. simpl.
    by rewrite app_nil_r, alter_declare_nil.
  - apply Forall_cons in Hall as [Hc Hall].
    cbn [execAll]. rewrite bind_run.
    destruct c; try discriminate Hc; unfold exec, returning; rewrite bind_run.
    + rewrite (addFnParam_run _ _ _ _ f Hf Hlt). cbn [mret Build_ret].
      rewrite bind_run, (IH _ f); [| exact Hf | simpl; by rewrite length_alter | exact Hall].
      cbn [mret Build_ret].
      apply Done_eq; [simpl; by rewrite length_app, Nat.add_1_r|].
      unfold with_context. simpl. rewrite length_app. simpl.
      rewrite Nat.add_1_r, alter_declare_declare, <- app_assoc. simpl.
      by destruct (declarations (S (length (insts (context s)))) cs).
    + rewrite (addFnVar_run _ _ _ _ _ f Hf Hlt). cbn [mret Build_ret].
      rewrite bind_run, (IH _ f); [| exact Hf | simpl; by rewrite length_alter | exact Hall].
      cbn [mret Build_ret].
      apply Done_eq; [simpl; by rewrite length_app, Nat.add_1_r|].
      unfold with_context. simpl. rewrite length_app. simpl.
      rewrite Nat.add_1_r, alter_declare_declare, <- app_assoc. simpl.
      by destruct (declarations (S (length (insts (context s)))) cs).
Qed.

Lemma declarations_nodes cs : ∀ (pre : list SpirvInstruction),
  Forall (λ c, isDeclaration c = true) cs →
  ((pre ++ declNodes cs) !!.) <$> (declarations (length pre) cs).1
  = Some <$> paramNodes cs
  ∧ ((pre ++ declNodes cs) !!.) <$> (declarations (length pre) cs).2
    = Some <$> varNodes cs.
Proof.
  induction cs as [|c cs IH]; intros pre Hall; [done|].
  apply Forall_cons in Hall as [Hc Hall].
  destruct c; try discriminate Hc; cbn [declarations declNodes paramNodes
    varNodes flat_map app].
  - specialize (IH (pre ++ [SpirvFunctionParameter ptrType 0 loc name]) Hall).
    rewrite length_app, Nat.add_1_r, <- app_assoc in IH. simpl in IH.
    destruct (declarations (S (length pre)) cs) as [ps vs]. simpl in *.
    destruct IH as [IHp IHv]. split; [|exact IHv].
    f_equal; [|exact IHp]. by rewrite list_lookup_middle.
  - specialize (IH (pre ++ [SpirvVariable valueType 0 loc
                              spv.StorageClassFunction init name]) Hall).
    rewrite length_app, Nat.add_1_r, <- app_assoc in IH. simpl in IH.
    destruct (declarations (S (length pre)) cs) as [ps vs]. simpl in *.
    destruct IH as [IHp IHv]. split; [exact IHp|].
    f_equal; [|exact IHv]. by rewrite list_lookup_middle.
Qed.

(** X1. Any run of [addFnParam] and [addFnVar] calls, in any interleaving,
    made while a function is open completes, and afterwards the function's
    parameter sequence is the old one followed by the new parameter nodes in
    the order of the calls, its variable sequence is the old one followed by
    the new variable nodes in the order of the calls, and its block sequence
    is untouched; the calls return the consecutive fresh addresses of their
    nodes and change neither cursor, pending list, blocks nor module. *)
Theorem declarations_keep_call_order `{TypeTranslator} cs s f fn :
  function s = Some f →
  funcs (context s) !! f = Some fn →
  Forall (λ c, isDeclaration c = true) cs →
  ∃ rs s' fn' ps vs,
    execAll cs s = Done rs s'
    ∧ rs = (λ a, RetPtr (Some a)) <$> seq (length (insts (context s))) (length cs)
    ∧ funcs (context s') !! f = Some fn'
    ∧ parameters fn' = parameters fn ++ ps
    ∧ variables fn' = variables fn ++ vs
    ∧ functionBlocks fn' = functionBlocks fn
    ∧ node_at s' <$> ps = Some <$> paramNodes cs
    ∧ node_at s' <$> vs = Some <$> varNodes cs
    ∧ insts (context s') = insts (context s) ++ declNodes cs
    ∧ blocks (context s') = blocks (context s)
    ∧ function s' = Some f
    ∧ insertPoint s' = insertPoint s
    ∧ basicBlocks s' = basicBlocks s
    ∧ module s' = module s.
Proof.
  intros Hf Hfn Hall.
  pose proof (lookup_lt_Some _ _ _ Hfn) as Hlt.
  do 5 eexists.
  split; [by apply declarations_run|].
  split; [reflexivity|].
  split.
  { simpl. rewrite list_lookup_alter, Hfn, decide_True by done. reflexivity. }
  split; [reflexivity|]. split; [reflexivity|]. split; [reflexivity|].
  destruct (declarations_nodes cs (insts (context s)) Hall) as [Hp Hv].
  split; [exact Hp|]. split; [exact Hv|].
  by repeat split.
Qed.

Lemma declarations_keep_call_order_witness :
  ∃ rs s' fn' ps vs,
    execAll (H := demoTranslator)
      [AddFnVar 4%N 5%N "v" None; AddFnParam 3%N 5%N "a";
       AddFnParam 3%N 5%N "b"] openBuilder = Done rs s'
    ∧ rs = (λ a, RetPtr (Some a)) <$> seq 0 3
    ∧ funcs (context s') !! 0 = Some fn'
    ∧ parameters fn' = [] ++ ps
    ∧ variables fn' = [] ++ vs
    ∧ functionBlocks fn' = []
    ∧ node_at s' <$> ps
      = Some <$> [SpirvFunctionParameter 3%N 0 5%N "a";
                  SpirvFunctionParameter 3%N 0 5%N "b"]
    ∧ node_at s' <$> vs
      = Some <$> [SpirvVariable 4%N 0 5%N spv.StorageClassFunction None "v"]
    ∧ insts (context s')
      = [] ++ [SpirvVariable 4%N 0 5%N spv.StorageClassFunction None "v";
               SpirvFunctionParameter 3%N 0 5%N "a";
               SpirvFunctionParameter 3%N 0 5%N "b"]
    ∧ blocks (context s') = blocks (context openBuilder)
    ∧ function s' = Some 0
    ∧ insertPoint s' = insertPoint openBuilder
    ∧ basicBlocks s' = basicBlocks openBuilder
    ∧ module s' = module openBuilder.
Proof.
  refine (declarations_keep_call_order (H := demoTranslator)
            [AddFnVar 4%N 5%N "v" None; AddFnParam 3%N 5%N "a";
             AddFnParam 3%N 5%N "b"] openBuilder 0 _ eq_refl eq_refl _).
  by repeat constructor.
Defined.

(** ** The life of a function *)

Lemma execAll_app `{TypeTranslator} cs1 cs2 s :
  execAll (cs1 ++ cs2) s
  = match execAll cs1 s with
    | Done rs1 s1 =>
        match execAll cs2 s1 with
        | Done rs2 s2 => Done (rs1 ++ rs2) s2
        | Fatal msg s2 => Fatal msg s2
        end
    | Fatal msg s1 => Fatal msg s1
    end.
Proof.
  revert s. induction cs1 as [|c cs1 IH]; intros s.
  - simpl. cbn [mret Build_ret]. by destruct (execAll cs2 s).
  - cbn [execAll app]. rewrite !bind_run.
    destruct (exec c s) as [r s1|]; [|reflexivity].
    rewrite !bind_run, IH.
    destruct (execAll cs1 s1) as [rs1 s2|]; [|reflexivity].
    cbn [mret Build_ret]. by destruct (execAll cs2 s2).
Qed.

Lemma createBasicBlocks_run `{TypeTranslator} names : ∀ s,
  function s ≠ None →
  execAll (CreateBasicBlock <$> names) s
  = Done ((λ a, RetPtr (Some a))
            <$> seq (length (blocks (context s))) (length names))
      (with_basicBlocks
         (basicBlocks s ++ seq (length (blocks (context s))) (length names))
         (with_context
            (with_blocks
               (λ l, l ++ ((λ n, mkBasicBlock 0 n [] [] None None) <$> names)))
            s)).
Proof.
  induction names as [|n names IH]; intros s Hf.
  - simpl. apply Done_eq; [reflexivity|].
    destruct s as [ac [i bl fs] m fn ip pend].
    unfold with_basicBlocks, with_context, with_blocks. simpl.
    by rewrite !app_nil_r.
  - cbn [fmap list_fmap execAll]. rewrite bind_run. unfold exec, returning.
    rewrite bind_run, (createBasicBlock_open _ _ Hf). cbn [mret Build_ret].
    rewrite bind_run, IH by exact Hf. cbn [mret Build_ret].
    apply Done_eq.
    + simpl. by rewrite length_app, Nat.add_1_r.
    + unfold with_basicBlocks, with_context, with_blocks. simpl.
      rewrite length_app, Nat.add_1_r, <- !app_assoc. reflexivity.
Qed.

(** X2. Any number of [createBasicBlock] calls made while a function is open
    complete; each allocates a fresh block with no instruction, no
    successor and no merge or continue target, carrying its name; the
    pending list gains their addresses in call order; no call positions the
    cursor (it stays where it was, unset included), allocates an instruction
    node or touches a block that existed. *)
Theorem createBasicBlock_pending_order `{TypeTranslator} names s :
  function s ≠ None →
  ∃ rs s',
    execAll (CreateBasicBlock <$> names) s = Done rs s'
    ∧ rs = (λ a, RetPtr (Some a))
             <$> seq (length (blocks (context s))) (length names)
    ∧ basicBlocks s'
      = basicBlocks s ++ seq (length (blocks (context s))) (length names)
    ∧ blocks (context s')
      = blocks (context s)
        ++ ((λ n, mkBasicBlock 0 n [] [] None None) <$> names)
    ∧ insertPoint s' = insertPoint s
    ∧ function s' = function s
    ∧ insts (context s') = insts (context s)
    ∧ funcs (context s') = funcs (context s)
    ∧ module s' = module s.
Proof.
  intros Hf. do 2 eexists. split; [by apply createBasicBlocks_run|].
  by repeat split.
Qed.

Lemma createBasicBlock_pending_order_witness :
  ∃ rs s',
    execAll (H := demoTranslator) (CreateBasicBlock <$> ["then"; "else"])
      cursorBuilder = Done rs s'
    ∧ rs = (λ a, RetPtr (Some a)) <$> seq 1 2
    ∧ basicBlocks s' = basicBlocks cursorBuilder ++ seq 1 2
    ∧ blocks (context s')
      = blocks (context cursorBuilder)
        ++ ((λ n, mkBasicBlock 0 n [] [] None None) <$> ["then"; "else"])
    ∧ insertPoint s' = insertPoint cursorBuilder
    ∧ function s' = function cursorBuilder
    ∧ insts (context s') = insts (context cursorBuilder)
    ∧ funcs (context s') = funcs (context cursorBuilder)
    ∧ module s' = module cursorBuilder.
Proof.
  refine (createBasicBlock_pending_order (H := demoTranslator) ["then"; "else"]
            cursorBuilder _). discriminate.
Defined.

(** X3. The life of a function, end to end: from Idle, [beginFunction]
    followed by any number of [createBasicBlock] calls and [endFunction]
    completes and leaves the builder Idle, cursor unset, nothing pending.
    The arena has gained exactly one function, with the given return type,
    location and name, no parameter, no variable, and as its blocks whatever
    was pending before followed by the new blocks in creation order; the
    module has gained exactly that function at the end of its sequence; no
    instruction node was allocated and no capability required. *)
Theorem function_lifecycle `{TypeTranslator} returnType loc funcName names s :
  function s = None →
  ∃ rs s',
    execAll (BeginFunction returnType loc funcName
               :: (CreateBasicBlock <$> names) ++ [EndFunction]) s = Done rs s'
    ∧ funcs (context s')
      = funcs (context s)
        ++ [mkFunction returnType 0 spv.FunctionControlMaskNone loc funcName
              [] []
              (basicBlocks s
               ++ seq (length (blocks (context s))) (length names))]
    ∧ blocks (context s')
      = blocks (context s)
        ++ ((λ n, mkBasicBlock 0 n [] [] None None) <$> names)
    ∧ functions (module s')
      = functions (module s) ++ [length (funcs (context s))]
    ∧ function s' = None
    ∧ insertPoint s' = None
    ∧ basicBlocks s' = []
    ∧ insts (context s') = insts (context s)
    ∧ capabilities (module s') = capabilities (module s).
Proof.
  intros Hidle. do 2 eexists. split.
  { cbn [execAll]. rewrite bind_run. unfold exec at 1. unfold returning.
    rewrite bind_run, (beginFunction_idle _ _ _ _ Hidle). cbn [mret Build_ret].
    rewrite bind_run, execAll_app.
    rewrite createBasicBlocks_run by done.
    cbn [execAll]. rewrite bind_run. unfold exec, void.
    rewrite bind_run.
    erewrite (endFunction_run _ (length (funcs (context s))));
      [| reflexivity | simpl; rewrite length_app; simpl; lia].
    reflexivity. }
  simpl. split.
  { rewrite <- (Nat.add_0_r (length (funcs (context s)))) at 1.
    rewrite alter_app_r. reflexivity. }
  by repeat split.
Qed.

Lemma function_lifecycle_witness :
  ∃ rs s',
    execAll (H := demoTranslator)
      (BeginFunction 2%N 6%N "helper"
         :: (CreateBasicBlock <$> ["entry"; "exit"]) ++ [EndFunction])
      closedBuilder = Done rs s'
    ∧ funcs (context s')
      = funcs (context closedBuilder)
        ++ [mkFunction 2%N 0 spv.FunctionControlMaskNone 6%N "helper" [] []
              (basicBlocks closedBuilder ++ seq 1 2)]
    ∧ blocks (context s')
      = blocks (context closedBuilder)
        ++ ((λ n, mkBasicBlock 0 n [] [] None None) <$> ["entry"; "exit"])
    ∧ functions (module s') = functions (module closedBuilder) ++ [1]
    ∧ function s' = None
    ∧ insertPoint s' = None
    ∧ basicBlocks s' = []
    ∧ insts (context s') = insts (context closedBuilder)
    ∧ capabilities (module s') = capabilities (module closedBuilder).
Proof.
  exact (function_lifecycle (H := demoTranslator) 2%N 6%N "helper"
           ["entry"; "exit"] closedBuilder eq_refl).
Defined.

(** ** Capabilities only grow, and only as announced *)

Create HintDb caps.

Lemma cw_same {B} A (m : Build B) :
  (∀ s, capabilities (module (stateOf (m s))) = capabilities (module s)) →
  caps_within A m.
Proof. intros Hm s. rewrite Hm. split; [done | apply union_subseteq_l]. Qed.

Lemma cw_ret {B} A (a : B) : caps_within A (mret a).
Proof. by apply cw_same. Qed.

Lemma cw_bind {B C} A (m : Build B) (k : B → Build C) :
  caps_within A m → (∀ a, caps_within A (k a)) → caps_within A (m ≫= k).
Proof.
  intros Hm Hk s. rewrite bind_run. specialize (Hm s).
  destruct (m s) as [a s1|msg s1]; simpl in Hm; [|exact Hm].
  destruct Hm as [Hlo Hhi]. destruct (Hk a s1) as [Hlo' Hhi']. split.
  - by etrans.
  - etrans; [exact Hhi'|]. apply union_least; [exact Hhi | apply union_subseteq_r].
Qed.

Lemma cw_cassert A cond msg : caps_within A (cassert cond msg).
Proof. apply cw_same. intros s. unfold cassert. by destruct (cond s). Qed.

Lemma cw_get A : caps_within A get.
Proof. by apply cw_same. Qed.

Lemma cw_abort {B} A msg : caps_within A (abort (A := B) msg).
Proof. by apply cw_same. Qed.

Lemma cw_new_inst A n : caps_within A (new_inst n).
Proof. by apply cw_same. Qed.

Lemma cw_new_block A bb : caps_within A (new_block bb).
Proof. by apply cw_same. Qed.

Lemma cw_new_function A f : caps_within A (new_function f).
Proof. by apply cw_same. Qed.

Lemma cw_on_insertPoint A f : caps_within A (on_insertPoint f).
Proof.
  apply cw_same. intros s. unfold on_insertPoint.
  destruct (insertPoint s) as [b|]; [|done]. by destruct (blocks (context s) !! b).
Qed.

Lemma cw_insertPoint_addInstruction A i :
  caps_within A (insertPoint_addInstruction i).
Proof. apply cw_on_insertPoint. Qed.

Lemma cw_on_function A f : caps_within A (on_function f).
Proof.
  apply cw_same. intros s. unfold on_function.
  destruct (function s) as [b|]; [|done]. by destruct (funcs (context s) !! b).
Qed.

Lemma cw_modify A f :
  (∀ s, capabilities (module (f s)) = capabilities (module s)) →
  caps_within A (modify f).
Proof. intros Hf. apply cw_same. exact Hf. Qed.

Lemma cw_requireCapability (A : gset N) cap :
  cap ∈ A → caps_within A (requireCapability cap).
Proof.
  intros Hin s. simpl. split; [apply union_subseteq_r|].
  apply union_least; [|apply union_subseteq_l].
  apply singleton_subseteq_l, elem_of_union_r, Hin.
Qed.

Lemma cw_addBasicBlocks A bbs : caps_within A (addBasicBlocks bbs).
Proof.
  induction bbs as [|bb bbs IH]; cbn [addBasicBlocks].
  - apply cw_ret.
  - apply cw_bind; [apply cw_on_function | intros _; apply IH].
Qed.

#[local] Hint Resolve cw_cassert cw_get cw_abort cw_new_inst cw_new_block
  cw_new_function cw_on_insertPoint cw_insertPoint_addInstruction
  cw_on_function cw_addBasicBlocks : caps.

Ltac cw_step :=
  lazymatch goal with
  | |- caps_within _ (mbind _ _) => apply cw_bind; [|intros ?]
  | |- caps_within _ (mret _) => apply cw_ret
  | |- caps_within _ (modify _) => apply cw_modify; intros ?; reflexivity
  | |- caps_within _ (requireCapability _) =>
      apply cw_requireCapability; set_unfold; tauto
  | |- caps_within _ (if ?c then _ else _) => destruct c
  | |- caps_within _ (let _ := _ in _) => cbv zeta
  | |- caps_within _ (match ?x with _ => _ end) => destruct x
  | |- _ => solve [auto with caps]
  end.
Ltac cw := repeat cw_step.

Lemma cw_weaken {B} (A A' : gset N) (m : Build B) :
  A ⊆ A' → caps_within A m → caps_within A' m.
Proof.
  intros Hsub Hm s. destruct (Hm s) as [Hlo Hhi]. split; [exact Hlo|].
  etrans; [exact Hhi|]. by apply union_mono_l.
Qed.

Lemma cw_createCompositeExtract A ty c ix loc :
  caps_within A (createCompositeExtract ty c ix loc).
Proof. unfold createCompositeExtract. cw. Qed.

Lemma cw_createStore A a v loc : caps_within A (createStore a v loc).
Proof. unfold createStore. cw. Qed.

Lemma cw_composeImageOperandsMask (A : gset N) bias lod grad co vo cos sa ml :
  (nonnull vo || nonnull cos = true → spv.ImageGatherExtended ∈ A) →
  (nonnull ml = true → spv.MinLodCap ∈ A) →
  caps_within A (composeImageOperandsMask bias lod grad co vo cos sa ml).
Proof.
  intros Hige Hmin. unfold composeImageOperandsMask.
  destruct vo, cos, ml; simpl in *;
    repeat first
      [ apply cw_bind; [|intros ?]
      | apply cw_ret
      | apply cw_requireCapability; auto ].
Qed.

#[local] Hint Resolve cw_createCompositeExtract cw_createStore : caps.

Lemma exec_caps_within `{TypeTranslator} c : caps_within (mayRequire c) (exec c).
Proof.
  destruct c; unfold exec, returning, void, mayRequire;
    [ unfold beginFunction | unfold addFnParam | unfold addFnVar
    | unfold endFunction | unfold createBasicBlock | unfold setInsertPoint
    | unfold addSuccessor | unfold setMergeTarget | unfold setContinueTarget
    | unfold createCompositeConstruct | unfold createCompositeExtract
    | unfold createCompositeInsert | unfold createVectorShuffle
    | unfold createLoad | unfold createStore | unfold createFunctionCall
    | unfold createAccessChain | unfold createUnaryOp | unfold createBinaryOp
    | unfold createSpecConstantBinaryOp | unfold createGroupNonUniformElect
    | unfold createGroupNonUniformUnaryOp | unfold createGroupNonUniformBinaryOp
    | unfold createAtomicOp | unfold createAtomicCompareExchange
    | unfold createImageTexelPointer | unfold createImageSample
    | unfold createImageFetchOrRead | unfold createImageWrite
    | unfold createImageGather | unfold createImageSparseTexelsResident
    | unfold createSelect | unfold createSwitch | unfold createKill
    | unfold createBranch | unfold createConditionalBranch
    | unfold createReturn | unfold createReturnValue | unfold createExtInst
    | unfold createBarrier | unfold createBitFieldInsert
    | unfold createBitFieldExtract
    | unfold createEmitVertex | unfold createEndPrimitive ];
    repeat first
      [ cw_step
      | apply cw_composeImageOperandsMask; intros;
          first [discriminate | set_unfold; tauto] ].
Qed.

Lemma execAll_caps_within `{TypeTranslator} cs :
  caps_within (⋃ (mayRequire <$> cs)) (execAll cs).
Proof.
  induction cs as [|c cs IH]; cbn [execAll fmap list_fmap union_list foldr].
  - apply cw_ret.
  - apply cw_bind.
    + eapply cw_weaken; [|apply exec_caps_within]. apply union_subseteq_l.
    + intros r. apply cw_bind; [|intros; apply cw_ret].
      eapply cw_weaken; [|exact IH]. apply union_subseteq_r.
Qed.

(** X8. Whatever call is made in whatever state, and however it ends, no
    capability is removed from the module, and the only capabilities that
    can appear are those the call announces: image query for the unary and
    binary operations; sparse residency, extended image gather and minimum
    Lod for a sample; sparse residency, extended image gather and the
    translator's storage-image capability for a fetch or read; that
    storage-image capability for a write; sparse residency and extended
    image gather for a gather; for every other call the capability set is
    left exactly as it was.  The same holds along any sequence of calls. *)
Theorem capabilities_only_grow `{TypeTranslator} c cs s :
  capabilities (module s) ⊆ capabilities (module (stateOf (exec c s)))
  ∧ capabilities (module (stateOf (exec c s)))
    ⊆ capabilities (module s) ∪ mayRequire c
  ∧ capabilities (module s) ⊆ capabilities (module (stateOf (execAll cs s)))
  ∧ capabilities (module (stateOf (execAll cs s)))
    ⊆ capabilities (module s) ∪ ⋃ (mayRequire <$> cs).
Proof.
  destruct (exec_caps_within c s) as [H1 H2].
  destruct (execAll_caps_within cs s) as [H3 H4].
  done.
Qed.

(** ** The arena is append-only *)

Create HintDb grow.

Lemma extends_refl s : extends s s.
Proof. by repeat split. Qed.

Lemma extends_trans s1 s2 s3 : extends s1 s2 → extends s2 s3 → extends s1 s3.
Proof.
  intros (Hi & Hb & Hf & Hbi) (Hi' & Hb' & Hf' & Hbi').
  split; [by transitivity (insts (context s2))|]. split; [lia|]. split; [lia|].
  intros b. transitivity (block_insts s2 b); [apply Hbi | apply Hbi'].
Qed.

Lemma ao_same {B} (m : Build B) :
  (∀ s, context (stateOf (m s)) = context s) → append_only m.
Proof.
  intros Hm s. unfold extends, block_insts. rewrite Hm. by repeat split.
Qed.

Lemma ao_ret {B} (a : B) : append_only (mret a).
Proof. by apply ao_same. Qed.

Lemma ao_bind {B C} (m : Build B) (k : B → Build C) :
  append_only m → (∀ a, append_only (k a)) → append_only (m ≫= k).
Proof.
  intros Hm Hk s. rewrite bind_run. specialize (Hm s).
  destruct (m s) as [a s1|msg s1]; simpl in Hm; [|exact Hm].
  eapply extends_trans; [exact Hm | apply Hk].
Qed.

Lemma ao_cassert cond msg : append_only (cassert cond msg).
Proof. apply ao_same. intros s. unfold cassert. by destruct (cond s). Qed.

Lemma ao_get : append_only get.
Proof. by apply ao_same. Qed.

Lemma ao_abort {B} msg : append_only (abort (A := B) msg).
Proof. by apply ao_same. Qed.

Lemma ao_modify f : (∀ s, context (f s) = context s) → append_only (modify f).
Proof. intros Hf. apply ao_same. exact Hf. Qed.

Lemma ao_new_inst n : append_only (new_inst n).
Proof.
  intros s. unfold extends, block_insts. simpl.
  split; [by apply prefix_app_r|]. by repeat split.
Qed.

Lemma ao_new_function f : append_only (new_function f).
Proof.
  intros s. unfold extends, block_insts. simpl.
  split; [done|]. split; [done|]. split; [rewrite length_app; lia | done].
Qed.

Lemma ao_new_block bb : append_only (new_block bb).
Proof.
  intros s. unfold extends, block_insts. simpl.
  split; [done|]. split; [rewrite length_app; lia|]. split; [done|].
  intros b. destruct (blocks (context s) !! b) as [x|] eqn:Hb.
  - by rewrite (lookup_app_l_Some _ _ _ _ Hb).
  - apply prefix_nil.
Qed.

Lemma ao_on_function f : append_only (on_function f).
Proof.
  intros s. unfold on_function.
  destruct (function s) as [a|]; [|apply extends_refl].
  destruct (funcs (context s) !! a); [|apply extends_refl].
  unfold extends, block_insts. simpl. rewrite length_alter. by repeat split.
Qed.

Lemma ao_on_insertPoint f :
  (∀ bb, instructions bb `prefix_of` instructions (f bb)) →
  append_only (on_insertPoint f).
Proof.
  intros Hf s. unfold on_insertPoint.
  destruct (insertPoint s) as [c|]; [|apply extends_refl].
  destruct (blocks (context s) !! c) eqn:Hc; [|apply extends_refl].
  unfold extends, block_insts. simpl. rewrite length_alter.
  split; [done|]. split; [done|]. split; [done|].
  intros b. rewrite list_lookup_alter.
  destruct (decide (c = b)) as [->|]; [|done].
  rewrite Hc. simpl. apply Hf.
Qed.

Lemma ao_insertPoint_addInstruction i : append_only (insertPoint_addInstruction i).
Proof. apply ao_on_insertPoint. intros bb. simpl. by apply prefix_app_r. Qed.

Lemma ao_addBasicBlocks bbs : append_only (addBasicBlocks bbs).
Proof.
  induction bbs as [|bb bbs IH]; cbn [addBasicBlocks].
  - apply ao_ret.
  - apply ao_bind; [apply ao_on_function | intros _; apply IH].
Qed.

Lemma ao_requireCapability cap : append_only (requireCapability cap).
Proof. by apply ao_same. Qed.

#[local] Hint Resolve ao_cassert ao_get ao_abort ao_new_inst ao_new_function
  ao_new_block ao_on_function ao_insertPoint_addInstruction ao_addBasicBlocks
  ao_requireCapability : grow.

Ltac ao_step :=
  lazymatch goal with
  | |- append_only (mbind _ _) => apply ao_bind; [|intros ?]
  | |- append_only (mret _) => apply ao_ret
  | |- append_only (modify _) => apply ao_modify; intros ?; reflexivity
  | |- append_only (on_insertPoint _) =>
      apply ao_on_insertPoint; intros ?; reflexivity
  | |- append_only (if ?c then _ else _) => destruct c
  | |- append_only (let _ := _ in _) => cbv zeta
  | |- append_only (match ?x with _ => _ end) => destruct x
  | |- _ => solve [auto with grow]
  end.
Ltac ao := repeat ao_step.

Lemma ao_createCompositeExtract ty c ix loc :
  append_only (createCompositeExtract ty c ix loc).
Proof. unfold createCompositeExtract. ao. Qed.

Lemma ao_createStore a v loc : append_only (createStore a v loc).
Proof. unfold createStore. ao. Qed.

Lemma ao_composeImageOperandsMask bias lod grad co vo cos sa ml :
  append_only (composeImageOperandsMask bias lod grad co vo cos sa ml).
Proof. unfold composeImageOperandsMask. ao. Qed.

#[local] Hint Resolve ao_createCompositeExtract ao_createStore
  ao_composeImageOperandsMask : grow.

Lemma exec_append_only `{TypeTranslator} c : append_only (exec c).
Proof.
  destruct c; unfold exec, returning, void;
    [ unfold beginFunction | unfold addFnParam | unfold addFnVar
    | unfold endFunction | unfold createBasicBlock | unfold setInsertPoint
    | unfold addSuccessor | unfold setMergeTarget | unfold setContinueTarget
    | unfold createCompositeConstruct | unfold createCompositeExtract
    | unfold createCompositeInsert | unfold createVectorShuffle
    | unfold createLoad | unfold createStore | unfold createFunctionCall
    | unfold createAccessChain | unfold createUnaryOp | unfold createBinaryOp
    | unfold createSpecConstantBinaryOp | unfold createGroupNonUniformElect
    | unfold createGroupNonUniformUnaryOp | unfold createGroupNonUniformBinaryOp
    | unfold createAtomicOp | unfold createAtomicCompareExchange
    | unfold createImageTexelPointer | unfold createImageSample
    | unfold createImageFetchOrRead | unfold createImageWrite
    | unfold createImageGather | unfold createImageSparseTexelsResident
    | unfold createSelect | unfold createSwitch | unfold createKill
    | unfold createBranch | unfold createConditionalBranch
    | unfold createReturn | unfold createReturnValue | unfold createExtInst
    | unfold createBarrier | unfold createBitFieldInsert
    | unfold createBitFieldExtract
    | unfold createEmitVertex | unfold createEndPrimitive ];
    ao.
Qed.

Lemma execAll_append_only `{TypeTranslator} cs : append_only (execAll cs).
Proof.
  induction cs as [|c cs IH]; cbn [execAll].
  - apply ao_ret.
  - apply ao_bind; [apply exec_append_only|]. intros r.
    apply ao_bind; [exact IH | intros; apply ao_ret].
Qed.

(** X9. The arena is append-only under every call and every sequence of
    calls, however they end: each instruction node stays at its address with
    its contents (the old node table is a prefix of the new one), no block
    and no function is dropped, and the instruction sequence of every block
    only grows at its end (the old sequence is a prefix of the new one);
    so nothing once emitted is ever reordered, replaced or removed. *)
Theorem arena_append_only `{TypeTranslator} c cs s :
  extends s (stateOf (exec c s))
  ∧ extends s (stateOf (execAll cs s))
  ∧ (∀ p n, node_at s p = Some n → node_at (stateOf (execAll cs s)) p = Some n).
Proof.
  split; [apply exec_append_only|].
  split; [apply execAll_append_only|].
  intros p n Hn. destruct (execAll_append_only cs s) as [[k Hk] _].
  unfold node_at in *. rewrite Hk. by apply lookup_app_l_Some.
Qed.

(** ** What an emitting call returns *)

Lemma exec_no_cursor `{TypeTranslator} c s :
  emitsInstruction c = true → insertPoint s = None →
  exec c s = Fatal null_insert_point s.
Proof.
  intros Hemit Hnone.
  destruct c; try discriminate Hemit; unfold exec, returning, void;
    [ unfold createCompositeConstruct | unfold createCompositeExtract
    | unfold createCompositeInsert | unfold createVectorShuffle
    | unfold createLoad | unfold createStore | unfold createFunctionCall
    | unfold createAccessChain | unfold createUnaryOp | unfold createBinaryOp
    | unfold createSpecConstantBinaryOp | unfold createGroupNonUniformElect
    | unfold createGroupNonUniformUnaryOp | unfold createGroupNonUniformBinaryOp
    | unfold createAtomicOp | unfold createAtomicCompareExchange
    | unfold createImageTexelPointer | unfold createImageSample
    | unfold createImageFetchOrRead | unfold createImageWrite
    | unfold createImageGather | unfold createImageSparseTexelsResident
    | unfold createSelect | unfold createSwitch | unfold createKill
    | unfold createBranch | unfold createConditionalBranch
    | unfold createReturn | unfold createReturnValue | unfold createExtInst
    | unfold createBarrier | unfold createBitFieldInsert
    | unfold createBitFieldExtract ];
    dies_on_cursor.
Qed.

Ltac returns_last :=
  first [ left; reflexivity
        | right; do 2 f_equal; simpl; lia ].

Lemma exec_emits_returns `{TypeTranslator} c s b :
  emitsInstruction c = true → lodContract c → positioned s b →
  ∃ r caps ns,
    exec c s = Done r (requiring caps (emitted b ns s))
    ∧ ns ≠ []
    ∧ (r = RetVoid
       ∨ r = RetPtr (Some (length (insts (context s)) + length ns - 1))).
Proof.
  intros Hemit Hlod Hpos.
  pose proof (positioned_has_insertPoint _ _ Hpos) as Hcur.
  destruct c; try discriminate Hemit; unfold exec, returning, void;
    rewrite bind_run;
    try (unfold_simple_create;
         rewrite bind_run, (cassert_true _ _ _ Hcur);
         first [ rewrite (emit_run _ _ _ b Hpos)
               | rewrite (emit_last_run _ _ b Hpos) ];
         eexists _, [], _; rewrite requiring_nil;
         split; [reflexivity | split; [done | returns_last]]).
  - rewrite (createUnaryOp_run _ _ _ _ _ b Hpos).
    eexists _, _, _. split; [reflexivity | split; [done | returns_last]].
  - rewrite (createBinaryOp_run _ _ _ _ _ _ b Hpos).
    eexists _, _, _. split; [reflexivity | split; [done | returns_last]].
  - rewrite (createImageSample_run _ _ _ _ _ _ _ _ _ _ _ _ _ _ _ _ _ _ b Hpos Hlod).
    eexists _, _, _. split; [reflexivity | split; [done |]].
    destruct residencyCode; returns_last.
  - rewrite (createImageFetchOrRead_run _ _ _ _ _ _ _ _ _ _ _ _ _ b Hpos).
    eexists _, _, _. split; [reflexivity | split; [done |]].
    destruct residencyCode; returns_last.
  - unfold createImageWrite.
    rewrite bind_run, (cassert_true _ _ _ Hcur), bind_run, requireCapability_run.
    rewrite (emit_last_run _ _ b (positioned_requiring _ _ _ Hpos)).
    eexists _, _, _. split; [reflexivity | split; [done | returns_last]].
  - rewrite (createImageGather_run _ _ _ _ _ _ _ _ _ _ _ _ _ _ _ b Hpos).
    eexists _, _, _. split; [reflexivity | split; [done |]].
    destruct residencyCode; returns_last.
  - unfold createImageSparseTexelsResident.
    rewrite bind_run, (cassert_true _ _ _ Hcur), bind_run. unfold get.
    rewrite (emit_run _ _ _ b Hpos).
    eexists _, [], _. rewrite requiring_nil.
    split; [reflexivity | split; [done | returns_last]].
  - unfold createSwitch.
    rewrite bind_run, (cassert_true _ _ _ Hcur).
    rewrite (emit_run _ _ _ b Hpos).
    rewrite (emit_last_run _ _ b (positioned_emitted _ _ _ Hpos)).
    rewrite emitted_app.
    eexists _, [], _. rewrite requiring_nil.
    split; [reflexivity | split; [done | returns_last]].
  - rewrite (createBranch_run _ _ _ _ _ _ b Hpos).
    eexists _, [], _. rewrite requiring_nil.
    split; [reflexivity | split; [|returns_last]].
    by destruct (nonnull mergeBB && nonnull continueBB).
  - rewrite (createConditionalBranch_run _ _ _ _ _ _ _ _ _ b Hpos).
    eexists _, [], _. rewrite requiring_nil.
    split; [reflexivity | split; [|returns_last]].
    by destruct (nonnull mergeLabel), (nonnull continueLabel).
Qed.

Lemma block_insts_emitted s b ns caps :
  b < length (blocks (context s)) →
  block_insts (requiring caps (emitted b ns s)) b
  = block_insts s b ++ seq (length (insts (context s))) (length ns).
Proof.
  intros Hlt. destruct (lookup_lt_is_Some_2 _ _ Hlt) as [bb Hbb].
  unfold block_insts. simpl.
  rewrite list_lookup_alter, Hbb, decide_True by done. reflexivity.
Qed.

Lemma last_seq a n : n ≠ 0 → last (seq a n) = Some (a + n - 1).
Proof.
  destruct n as [|n]; [done|]. intros _.
  rewrite seq_S, last_snoc. f_equal. lia.
Qed.

(** X10. Every instruction-emitting call made with the cursor positioned
    (and not both Lod and MinLod for a sample) completes and leaves, as the
    last instruction of the cursor block, a node that did not exist before
    the call; when the call returns a pointer, the pointer is never null and
    is the address of exactly that last node.  So the handle a caller gets
    back always names the most recently appended instruction, also when the
    call emitted several (the sparse accesses return the final extract). *)
Theorem returned_node_is_last `{TypeTranslator} c s b :
  emitsInstruction c = true → lodContract c → positioned s b →
  ∃ r s' a,
    exec c s = Done r s'
    ∧ last (block_insts s' b) = Some a
    ∧ is_Some (node_at s' a)
    ∧ node_at s a = None
    ∧ (∀ p, r = RetPtr p → p = Some a).
Proof.
  intros Hemit Hlod Hpos.
  destruct (exec_emits_returns c s b Hemit Hlod Hpos)
    as (r & caps & ns & Hexec & Hne & Hret).
  assert (length ns ≠ 0) as Hlen by (by destruct ns).
  exists r, (requiring caps (emitted b ns s)),
    (length (insts (context s)) + length ns - 1).
  split; [exact Hexec|].
  split.
  { rewrite block_insts_emitted by apply Hpos.
    rewrite last_app, last_seq by exact Hlen. reflexivity. }
  split.
  { unfold node_at. rewrite insts_requiring, insts_emitted.
    apply lookup_lt_is_Some. rewrite length_app. lia. }
  split; [apply lookup_ge_None; lia|].
  intros p ->. destruct Hret as [Hvoid | Hptr]; [discriminate|].
  by injection Hptr.
Qed.

Lemma returned_node_is_last_witness :
  ∃ r s' a,
    exec (H := demoTranslator)
      (CreateImageGather 3%N 4%N (Some 10) (Some 11) false (Some 12) (Some 17)
         None None None None None (Some 16) 5%N) cursorBuilder = Done r s'
    ∧ last (block_insts s' 0) = Some a
    ∧ is_Some (node_at s' a)
    ∧ node_at cursorBuilder a = None
    ∧ (∀ p, r = RetPtr p → p = Some a).
Proof.
  exact (returned_node_is_last (H := demoTranslator)
           (CreateImageGather 3%N 4%N (Some 10) (Some 11) false (Some 12)
              (Some 17) None None None None None (Some 16) 5%N)
           cursorBuilder 0 eq_refl I cursorBuilder_positioned).
Defined.

(** ** The cursor decides, and runs compose *)

Lemma exec_completes_iff `{TypeTranslator} c s :
  emitsInstruction c = true → lodContract c →
  (∀ b, insertPoint s = Some b → b < length (blocks (context s))) →
  completes (exec c s) = true ↔ insertPoint s ≠ None.
Proof.
  intros Hemit Hlod Hlive. destruct (insertPoint s) as [b|] eqn:Hip.
  - split; [done|]. intros _.
    destruct (exec_emits c s b Hemit Hlod (conj Hip (Hlive b eq_refl)))
      as (r & caps & ns & -> & _). reflexivity.
  - rewrite (exec_no_cursor c s Hemit Hip). split; [discriminate | done].
Qed.

(** X14. In a state whose cursor, when set, addresses a block, an
    instruction-emitting call (not both Lod and MinLod for a sample)
    completes if and only if the cursor is set: a positioned cursor is all
    such a call needs (no open function is asked for, no operand is
    inspected, null operands included), and without it the call dies on
    "null insert point". *)
Theorem emitting_call_needs_only_cursor `{TypeTranslator} c s :
  emitsInstruction c = true → lodContract c →
  (∀ b, insertPoint s = Some b → b < length (blocks (context s))) →
  (completes (exec c s) = true ↔ insertPoint s ≠ None)
  ∧ (insertPoint s = None → exec c s = Fatal null_insert_point s).
Proof.
  intros Hemit Hlod Hlive.
  split; [by apply exec_completes_iff | by apply exec_no_cursor].
Qed.

Lemma emitting_call_needs_only_cursor_witness :
  (completes (exec (H := demoTranslator) (CreateLoad 3%N None 5%N) cursorBuilder)
   = true ↔ insertPoint cursorBuilder ≠ None)
  ∧ (insertPoint cursorBuilder = None →
     exec (H := demoTranslator) (CreateLoad 3%N None 5%N) cursorBuilder
     = Fatal null_insert_point cursorBuilder).
Proof.
  refine (emitting_call_needs_only_cursor (H := demoTranslator)
            (CreateLoad 3%N None 5%N) cursorBuilder eq_refl I _).
  intros b [= <-]. simpl. lia.
Defined.

Lemma execAll_emits `{TypeTranslator} cs b : ∀ s,
  positioned s b →
  Forall (λ c, emitsInstruction c = true ∧ lodContract c) cs →
  ∃ rs caps ns,
    execAll cs s = Done rs (requiring caps (emitted b ns s))
    ∧ length cs ≤ length ns ∧ length rs = length cs.
Proof.
  induction cs as [|c cs IH]; intros s Hpos Hall.
  - exists [], [], []. rewrite requiring_nil, emitted_nil. by repeat split.
  - apply Forall_cons in Hall as [[Hemit Hlod] Hall].
    destruct (exec_emits c s b Hemit Hlod Hpos) as (r & caps1 & ns1 & Hexec & Hne).
    destruct (IH (requiring caps1 (emitted b ns1 s))) as (rs & caps2 & ns2 & Hrest & Hlen & Hrs);
      [by apply positioned_requiring, positioned_emitted | exact Hall |].
    exists (r :: rs), (caps1 ++ caps2), (ns1 ++ ns2).
    split.
    + cbn [execAll]. rewrite bind_run, Hexec, bind_run, Hrest.
      cbn [mret Build_ret].
      by rewrite emitted_requiring, emitted_app, requiring_app.
    + rewrite length_app. simpl. destruct ns1; [done|]. simpl. split; lia.
Qed.

(** X15. Runs of instruction-emitting calls compose: on a positioned cursor
    any run of them (none with both Lod and MinLod) completes, returns one
    result per call, leaves the cursor on the same block and changes nothing
    but that block, the node table and the capability set; the block gains
    at least one node per call; and what a longer run appends starts with
    exactly what its first part appends alone, so the nodes of earlier calls
    always precede those of later ones. *)
Theorem emitting_runs_compose `{TypeTranslator} cs1 cs2 s b :
  positioned s b →
  Forall (λ c, emitsInstruction c = true ∧ lodContract c) (cs1 ++ cs2) →
  ∃ rs1 s1 ns1 rs2 s2 ns2,
    execAll cs1 s = Done rs1 s1
    ∧ emits_exactly s s1 b ns1
    ∧ execAll (cs1 ++ cs2) s = Done (rs1 ++ rs2) s2
    ∧ emits_exactly s s2 b (ns1 ++ ns2)
    ∧ length rs1 = length cs1 ∧ length rs2 = length cs2
    ∧ length cs1 ≤ length ns1 ∧ length cs2 ≤ length ns2
    ∧ positioned s2 b.
Proof.
  intros Hpos [Hall1 Hall2]%Forall_app.
  destruct (execAll_emits cs1 b s Hpos Hall1)
    as (rs1 & caps1 & ns1 & Hrun1 & Hlen1 & Hrs1).
  pose proof (positioned_requiring _ _ caps1 (positioned_emitted _ _ ns1 Hpos))
    as Hpos1.
  destruct (execAll_emits cs2 b _ Hpos1 Hall2)
    as (rs2 & caps2 & ns2 & Hrun2 & Hlen2 & Hrs2).
  exists rs1, (requiring caps1 (emitted b ns1 s)), ns1, rs2,
    (requiring (caps1 ++ caps2) (emitted b (ns1 ++ ns2) s)), ns2.
  split; [exact Hrun1|].
  split; [apply emits_exactly_emitted|].
  split.
  { rewrite execAll_app, Hrun1, Hrun2.
    by rewrite emitted_requiring, emitted_app, requiring_app. }
  split; [apply emits_exactly_emitted|].
  repeat split; try assumption.
  - apply Hpos.
  - simpl. rewrite length_alter. apply Hpos.
Qed.

Lemma emitting_runs_compose_witness :
  ∃ rs1 s1 ns1 rs2 s2 ns2,
    execAll (H := demoTranslator)
      [CreateLoad 3%N (Some 10) 5%N] cursorBuilder = Done rs1 s1
    ∧ emits_exactly cursorBuilder s1 0 ns1
    ∧ execAll (H := demoTranslator)
        ([CreateLoad 3%N (Some 10) 5%N]
         ++ [CreateBinaryOp 128%N 3%N (Some 0) (Some 11) 5%N;
             CreateReturnValue (Some 1) 5%N]) cursorBuilder
      = Done (rs1 ++ rs2) s2
    ∧ emits_exactly cursorBuilder s2 0 (ns1 ++ ns2)
    ∧ length rs1 = 1 ∧ length rs2 = 2
    ∧ 1 ≤ length ns1 ∧ 2 ≤ length ns2
    ∧ positioned s2 0.
Proof.
  refine (emitting_runs_compose (H := demoTranslator)
            [CreateLoad 3%N (Some 10) 5%N]
            [CreateBinaryOp 128%N 3%N (Some 0) (Some 11) 5%N;
             CreateReturnValue (Some 1) 5%N]
            cursorBuilder 0 cursorBuilder_positioned _).
  by repeat constructor.
Defined.

(** ** The three mutators of the cursor block *)

Lemma on_insertPoint_run f s b :
  positioned s b →
  on_insertPoint f s = Done tt (with_context (with_blocks (alter f b)) s).
Proof.
  intros [Hip Hlt]. unfold on_insertPoint. rewrite Hip.
  by destruct (lookup_lt_is_Some_2 _ _ Hlt) as [bb ->].
Qed.

Lemma only_cursor_block_alter f s b :
  (∀ bb, instructions (f bb) = instructions bb) →
  only_cursor_block s (with_context (with_blocks (alter f b)) s) b.
Proof.
  intros Hf. unfold only_cursor_block. simpl.
  split; [done|]. split.
  { intros b'. unfold block_insts. simpl. rewrite list_lookup_alter.
    destruct (decide (b = b')) as [->|]; [|done].
    destruct (blocks (context s) !! b'); simpl; [apply Hf | done]. }
  split; [intros b' Hne; by rewrite list_lookup_alter_ne|].
  split; [by rewrite length_alter|]. by repeat split.
Qed.

(** X13. [addSuccessor], [setMergeTarget] and [setContinueTarget], with the
    cursor positioned, complete and touch the cursor block only: its
    instruction sequence, every other block, the node table, the functions,
    the module and the builder's members are as before, and no node is
    allocated.  With no cursor each dies on "null insert point" in the state
    it was called in. *)
Theorem cursor_block_mutators bb s b s0 :
  positioned s b →
  insertPoint s0 = None →
  (∃ s', addSuccessor bb s = Done tt s' ∧ only_cursor_block s s' b)
  ∧ (∃ s', setMergeTarget bb s = Done tt s' ∧ only_cursor_block s s' b)
  ∧ (∃ s', setContinueTarget bb s = Done tt s' ∧ only_cursor_block s s' b)
  ∧ addSuccessor bb s0 = Fatal null_insert_point s0
  ∧ setMergeTarget bb s0 = Fatal null_insert_point s0
  ∧ setContinueTarget bb s0 = Fatal null_insert_point s0.
Proof.
  intros Hpos Hnone.
  pose proof (positioned_has_insertPoint _ _ Hpos) as Hcur.
  pose proof (no_cursor_has_insertPoint _ Hnone) as Hno.
  unfold addSuccessor, setMergeTarget, setContinueTarget.
  rewrite !bind_run, !(cassert_true _ _ _ Hcur), !(cassert_false _ _ _ Hno).
  rewrite !(on_insertPoint_run _ _ b Hpos).
  repeat split; eexists; (split; [reflexivity|]);
    by apply only_cursor_block_alter.
Qed.

Lemma cursor_block_mutators_witness :
  (∃ s', addSuccessor (Some 0) cursorBuilder = Done tt s'
         ∧ only_cursor_block cursorBuilder s' 0)
  ∧ (∃ s', setMergeTarget (Some 0) cursorBuilder = Done tt s'
           ∧ only_cursor_block cursorBuilder s' 0)
  ∧ (∃ s', setContinueTarget (Some 0) cursorBuilder = Done tt s'
           ∧ only_cursor_block cursorBuilder s' 0)
  ∧ addSuccessor (Some 0) openBuilder = Fatal null_insert_point openBuilder
  ∧ setMergeTarget (Some 0) openBuilder = Fatal null_insert_point openBuilder
  ∧ setContinueTarget (Some 0) openBuilder = Fatal null_insert_point openBuilder.
Proof.
  exact (cursor_block_mutators (Some 0) cursorBuilder 0 openBuilder
           cursorBuilder_positioned eq_refl).
Defined.

(** ** Building a whole function *)

(** X18. A one-block function, end to end: from Idle, [beginFunction],
    [createBasicBlock], positioning the cursor on the new block, any run of
    instruction-emitting calls (none with both Lod and MinLod) and
    [endFunction] all complete.  Afterwards the builder is Idle with the
    cursor unset and nothing pending; the module has gained exactly one
    function; that function has, after whatever was pending before, the new
    block; and the new block's instruction sequence is exactly the nodes the
    run emitted, all of them and in the order of their emission, at least one
    per call. *)
Theorem build_one_block_function `{TypeTranslator} returnType loc funcName
    blockName cs s :
  function s = None →
  Forall (λ c, emitsInstruction c = true ∧ lodContract c) cs →
  ∃ rs s' ns,
    execAll (BeginFunction returnType loc funcName
               :: CreateBasicBlock blockName
               :: SetInsertPoint (Some (length (blocks (context s))))
               :: cs ++ [EndFunction]) s = Done rs s'
    ∧ insts (context s') = insts (context s) ++ ns
    ∧ length cs ≤ length ns
    ∧ blocks (context s')
      = blocks (context s)
        ++ [mkBasicBlock 0 blockName
              (seq (length (insts (context s))) (length ns)) [] None None]
    ∧ funcs (context s')
      = funcs (context s)
        ++ [mkFunction returnType 0 spv.FunctionControlMaskNone loc funcName
              [] [] (basicBlocks s ++ [length (blocks (context s))])]
    ∧ functions (module s')
      = functions (module s) ++ [length (funcs (context s))]
    ∧ function s' = None
    ∧ insertPoint s' = None
    ∧ basicBlocks s' = []
    ∧ length rs = length cs + 4.
Proof.
  intros Hidle Hall.
  set (s1 := with_function (Some (length (funcs (context s))))
               (with_context
                  (with_funcs
                     (λ l, l ++ [mkFunction returnType 0
                                   spv.FunctionControlMaskNone loc funcName
                                   [] [] []])) s)).
  set (s3 := with_insertPoint (Some (length (blocks (context s))))
               (with_basicBlocks
                  (basicBlocks s1 ++ [length (blocks (context s))])
                  (with_context
                     (with_blocks
                        (λ l, l ++ [mkBasicBlock 0 blockName [] [] None None]))
                     s1))).
  assert (positioned s3 (length (blocks (context s)))) as Hpos3.
  { split; [reflexivity|]. simpl. rewrite length_app. simpl. lia. }
  destruct (execAll_emits cs _ s3 Hpos3 Hall)
    as (rs & caps & ns & Hrun & Hlen & Hrs).
  do 2 eexists. exists ns. split.
  { cbn [execAll]. rewrite bind_run. unfold exec at 1. unfold returning.
    rewrite bind_run, (beginFunction_idle _ _ _ _ Hidle). cbn [mret Build_ret].
    fold s1. rewrite bind_run, bind_run. unfold exec at 1. unfold returning.
    rewrite bind_run, (createBasicBlock_open _ s1) by done.
    cbn [mret Build_ret]. rewrite bind_run, bind_run.
    unfold exec at 1. unfold void, setInsertPoint, modify.
    rewrite bind_run. cbn [mret Build_ret].
    change (length (blocks (context s1))) with (length (blocks (context s))).
    fold s3. rewrite bind_run, execAll_app, Hrun.
    cbn [execAll]. rewrite bind_run. unfold exec, void. rewrite bind_run.
    erewrite (endFunction_run _ (length (funcs (context s))));
      [| reflexivity | simpl; rewrite length_app; simpl; lia].
    reflexivity. }
  simpl. split; [reflexivity|]. split; [exact Hlen|].
  split.
  { rewrite <- (Nat.add_0_r (length (blocks (context s)))) at 1.
    rewrite alter_app_r. reflexivity. }
  split.
  { rewrite <- (Nat.add_0_r (length (funcs (context s)))) at 1.
    rewrite alter_app_r. reflexivity. }
  repeat split. rewrite length_app, Hrs. simpl. lia.
Qed.

Lemma build_one_block_function_witness :
  ∃ rs s' ns,
    execAll (H := demoTranslator)
      (BeginFunction 2%N 6%N "sum"
         :: CreateBasicBlock "entry"
         :: SetInsertPoint (Some (length (blocks (context closedBuilder))))
         :: [CreateLoad 3%N (Some 10) 5%N;
             CreateBinaryOp 128%N 3%N (Some 0) (Some 11) 5%N;
             CreateReturnValue (Some 1) 5%N] ++ [EndFunction])
      closedBuilder = Done rs s'
    ∧ insts (context s') = insts (context closedBuilder) ++ ns
    ∧ 3 ≤ length ns
    ∧ blocks (context s')
      = blocks (context closedBuilder)
        ++ [mkBasicBlock 0 "entry" (seq 0 (length ns)) [] None None]
    ∧ funcs (context s')
      = funcs (context closedBuilder)
        ++ [mkFunction 2%N 0 spv.FunctionControlMaskNone 6%N "sum" [] []
              (basicBlocks closedBuilder ++ [1])]
    ∧ functions (module s') = functions (module closedBuilder) ++ [1]
    ∧ function s' = None
    ∧ insertPoint s' = None
    ∧ basicBlocks s' = []
    ∧ length rs = 3 + 4.
Proof.
  refine (build_one_block_function (H := demoTranslator) 2%N 6%N "sum" "entry"
            [CreateLoad 3%N (Some 10) 5%N;
             CreateBinaryOp 128%N 3%N (Some 0) (Some 11) 5%N;
             CreateReturnValue (Some 1) 5%N] closedBuilder eq_refl _).
  by repeat constructor.
Defined.
